(** * gobananas: resumable batch image generation

    A shallow embedding of the orchestration core of the repository:
    - [errors.js]            (module [Errors]): the error classes and
      [parseApiError];
    - [progress-tracker.js]  (module [Tracker]): the progress record and
      its operations;
    - [generator.js]         (module [Generator]): [isRetryable], the
      retry loop of [generateImage], [processResponse], [chunkArray]
      and [generateBatch].
    The definitions come first; the modules [JSFacts], [ErrorsFacts],
    [TrackerFacts], [ChunkFacts], [ExecutorFacts] and [BatchFacts] hold
    what is proved about them, and [Sample] a concrete configuration on
    which the statements are run.

    Conventions of the embedding.
    - JS strings are modelled as [string] (ASCII); [toLowerCase] maps
      'A'..'Z' to 'a'..'z' and leaves every other character alone.
    - JS numbers that the code uses as counters and indices are [Z].
    - A value that may be [undefined] is an [option].
    - An exception is an explicit [Threw] outcome; [try]/[catch] is a
      match on the outcome.
    - A loop whose termination depends on its arguments takes fuel and
      answers [None] when the fuel runs out. *)

From Stdlib Require Import ZArith List String Ascii DecimalString Bool Lia Permutation.
From stdpp Require Import base option list strings gmap.

Import ListNotations.
Local Open Scope string_scope.
Local Open Scope Z_scope.
Local Open Scope list_scope.

(** ** JavaScript string helpers *)

Module JS.

(** [c.toLowerCase()] on one ASCII character. *)
Definition lowerAscii (c : ascii) : ascii :=
  let n := nat_of_ascii c in
  if ((65 <=? n)%nat && (n <=? 90)%nat)%bool then ascii_of_nat (n + 32) else c.

(** [s.toLowerCase()] *)
Fixpoint toLowerCase (s : string) : string :=
  match s with
  | EmptyString => EmptyString
  | String c s' => String (lowerAscii c) (toLowerCase s')
  end.

(** [s.startsWith(pat)] *)
Fixpoint startsWith (s pat : string) : bool :=
  match pat, s with
  | EmptyString, _ => true
  | String _ _, EmptyString => false
  | String p pat', String c s' =>
      if Ascii.eqb p c then startsWith s' pat' else false
  end.

(** [s.includes(pat)]: [pat] occurs in [s] as a contiguous substring. *)
Fixpoint includes (s pat : string) : bool :=
  startsWith s pat ||
  match s with
  | EmptyString => false
  | String _ s' => includes s' pat
  end.

(** Truthiness of a possibly-undefined string: [undefined] and the empty
    string are falsy. *)
Definition truthy (s : option string) : bool :=
  match s with
  | Some (String _ _) => true
  | _ => false
  end.

(** [s || d] for a possibly-undefined string [s]. *)
Definition orElse (s : option string) (d : string) : string :=
  match s with
  | Some (String c r) => String c r
  | _ => d
  end.

(** A template literal prints [undefined] as the word. *)
Definition show (s : option string) : string :=
  match s with
  | Some v => v
  | None => "undefined"
  end.

Definition newline : string := String (ascii_of_nat 10) EmptyString.
Definition dquote : string := String (ascii_of_nat 34) EmptyString.

End JS.

(** ** errors.js *)

Module Errors.

Definition API_KEY_URL : string := "https://aistudio.google.com/app/apikey".

(** An instance of [GobananaError] or of one of its subclasses; the
    subclass is recorded in [name], as the constructors do. *)
Record GobananaError : Type := mkError {
  name : string;
  message : string;
  code : option string;
  hint : option string;
  docsSection : option string;
  imageId : option string
}.

(** What the remote call (or [processResponse]) threw: only its
    [message] is ever inspected. *)
Record RawError : Type := mkRaw { raw_message : option string }.

Definition ApiKeyError (msg : option string) : GobananaError :=
  {| name := "ApiKeyError";
     message := JS.orElse msg "API key is missing or invalid";
     code := Some "API_KEY_ERROR";
     hint := Some ("Set GOOGLE_AI_STUDIO_API_KEY environment variable or pass apiKey option."
                   +:+ JS.newline +:+ "Get your key at: " +:+ API_KEY_URL);
     docsSection := Some "quick-start";
     imageId := None |}.

Definition RateLimitError (msg : option string) : GobananaError :=
  {| name := "RateLimitError";
     message := JS.orElse msg "API rate limit exceeded";
     code := Some "RATE_LIMIT";
     hint := Some ("Reduce concurrency with -c flag or wait before retrying."
                   +:+ JS.newline
                   +:+ "Example: gobanana generate -s style.json -i images.json -c 2");
     docsSection := Some "options";
     imageId := None |}.

Definition ConfigError (msg : string) (field : option string) : GobananaError :=
  {| name := "ConfigError";
     message := msg;
     code := Some "CONFIG_ERROR";
     hint := Some (if JS.truthy field
                   then "Check the " +:+ JS.dquote +:+ JS.show field +:+ JS.dquote
                        +:+ " field in your configuration file"
                   else "Verify your JSON configuration files are valid");
     docsSection := Some "style-guide-reference";
     imageId := None |}.

Definition GenerationError (msg : string) (imgId : option string) : GobananaError :=
  {| name := "GenerationError";
     message := msg;
     code := Some "GENERATION_ERROR";
     hint := Some (if JS.truthy imgId
                   then "Failed to generate image " +:+ JS.dquote +:+ JS.show imgId
                        +:+ JS.dquote
                        +:+ ". Check your prompt or try with different settings."
                   else "Image generation failed. Try adjusting the prompt or reducing complexity.");
     docsSection := Some "image-definition-reference";
     imageId := imgId |}.

(** The two errors that [parseApiError] builds from the base class. *)
Definition serverError : GobananaError :=
  {| name := "GobananaError";
     message := "Google API server error. This is temporary - please retry.";
     code := Some "SERVER_ERROR";
     hint := Some "The API is temporarily unavailable. Your progress is saved and you can resume later.";
     docsSection := None;
     imageId := None |}.

Definition timeoutError : GobananaError :=
  {| name := "GobananaError";
     message := "Request timed out";
     code := Some "TIMEOUT";
     hint := Some "The request took too long. Try reducing image complexity or concurrency.";
     docsSection := None;
     imageId := None |}.

Definition safetyError (imgId : option string) : GobananaError :=
  GenerationError
    "Content was blocked by safety filters. Try adjusting your prompt to be less specific or remove potentially problematic content."
    imgId.

(** [err.message?.toLowerCase() || ''] *)
Definition lowered (err : RawError) : string :=
  JS.orElse (option_map JS.toLowerCase (raw_message err)) "".

(** The keyword tests of [parseApiError], one per [if], on the
    lower-cased message. *)
Definition authRule (m : string) : bool :=
  JS.includes m "api key" || JS.includes m "401" || JS.includes m "unauthorized".
Definition rateRule (m : string) : bool :=
  JS.includes m "rate limit" || JS.includes m "429" || JS.includes m "quota".
Definition safetyRule (m : string) : bool :=
  JS.includes m "safety" || JS.includes m "blocked" || JS.includes m "harmful".
Definition malformedRule (m : string) : bool :=
  JS.includes m "invalid" || JS.includes m "400".
Definition serverRule (m : string) : bool :=
  JS.includes m "503" || JS.includes m "500" || JS.includes m "server".
Definition timeoutRule (m : string) : bool :=
  JS.includes m "timeout" || JS.includes m "timed out".

Definition parseApiError (err : RawError) (imgId : option string) : GobananaError :=
  let m := lowered err in
  if authRule m then ApiKeyError (Some "Invalid or expired API key")
  else if rateRule m then
    RateLimitError (Some "API rate limit exceeded. The request will be retried automatically.")
  else if safetyRule m then safetyError imgId
  else if malformedRule m then
    ConfigError ("Invalid request: " +:+ JS.show (raw_message err)) None
  else if serverRule m then serverError
  else if timeoutRule m then timeoutError
  else GenerationError (JS.orElse (raw_message err) "Unknown error occurred") imgId.

(** The taxonomy: which branch of [parseApiError] an error takes.  The
    branches are, in the order of the source: API key errors, rate
    limiting, safety/content filtering, invalid request, server errors,
    timeout, generic fallback. *)
Module Class.
Inductive t : Type :=
| AuthError
| RateLimitError
| ContentSafetyError
| MalformedRequestError
| TransientServerError
| TimeoutError
| UnknownGenerationError.
End Class.

Definition classify (err : RawError) : Class.t :=
  let m := lowered err in
  if authRule m then Class.AuthError
  else if rateRule m then Class.RateLimitError
  else if safetyRule m then Class.ContentSafetyError
  else if malformedRule m then Class.MalformedRequestError
  else if serverRule m then Class.TransientServerError
  else if timeoutRule m then Class.TimeoutError
  else Class.UnknownGenerationError.

(** The object built in each branch. *)
Definition errorOf (c : Class.t) (err : RawError) (imgId : option string)
  : GobananaError :=
  match c with
  | Class.AuthError => ApiKeyError (Some "Invalid or expired API key")
  | Class.RateLimitError =>
      RateLimitError (Some "API rate limit exceeded. The request will be retried automatically.")
  | Class.ContentSafetyError => safetyError imgId
  | Class.MalformedRequestError =>
      ConfigError ("Invalid request: " +:+ JS.show (raw_message err)) None
  | Class.TransientServerError => serverError
  | Class.TimeoutError => timeoutError
  | Class.UnknownGenerationError =>
      GenerationError (JS.orElse (raw_message err) "Unknown error occurred") imgId
  end.

Definition ofString (s : string) : RawError := mkRaw (Some s).

End Errors.

(** ** [ImageDefinition] (types.d.ts) *)

Module Image.
Record t : Type := mk {
  id : string;
  section : option string;
  title : string;
  aspect_ratio : string;
  prompt : string
}.
End Image.

(** ** progress-tracker.js *)

Module Tracker.

(** One entry of [progress.failed]. *)
Module Failed.
Record t : Type := mk {
  id : string;
  attempts : Z;
  lastError : string;
  lastAttempt : string
}.
End Failed.

(** [this.progress]: [completed] is an array used as a set, [failed] an
    array searched by [find]. *)
Record Progress : Type := mkProgress {
  completed : list string;
  failed : list Failed.t;
  startedAt : string
}.

(** The tracker object: the in-memory record and the content of
    [.progress.json] ([None] while the file does not exist).  Writes are
    taken to succeed; the source logs a failed write and carries on with
    the same in-memory record. *)
Record t : Type := mkTracker {
  progress : Progress;
  stored : option Progress
}.

Module Stats.
Record t : Type := mk {
  completed : Z;
  failed : Z;
  startedAt : string
}.
End Stats.

Definition empty (now : string) : Progress :=
  {| completed := []; failed := []; startedAt := now |}.

(** [load()], with [now] the clock reading used for a fresh record. *)
Definition load (file : option Progress) (now : string) : Progress :=
  match file with
  | Some data => data
  | None => empty now
  end.

(** [new ProgressTracker(outputDir)] over the given file content. *)
Definition create (file : option Progress) (now : string) : t :=
  {| progress := load file now; stored := file |}.

Definition save (tr : t) : t :=
  {| progress := progress tr; stored := Some (progress tr) |}.

(** [array.includes(x)] on an array of strings. *)
Definition includes (array : list string) (x : string) : bool :=
  existsb (String.eqb x) array.

Definition isCompleted (tr : t) (imageId : string) : bool :=
  includes (completed (progress tr)) imageId.

Definition markCompleted (tr : t) (imageId : string) : t :=
  if negb (includes (completed (progress tr)) imageId) then
    save {| progress :=
              {| completed := completed (progress tr) ++ [imageId];
                 failed := failed (progress tr);
                 startedAt := startedAt (progress tr) |};
            stored := stored tr |}
  else tr.

(** The callback [(f) => f.id === imageId]. *)
Definition hasId (imageId : string) (f : Failed.t) : bool :=
  String.eqb (Failed.id f) imageId.

(** The three assignments made to an existing record. *)
Definition bump (error now : string) (f : Failed.t) : Failed.t :=
  {| Failed.id := Failed.id f;
     Failed.attempts := Failed.attempts f + 1;
     Failed.lastError := error;
     Failed.lastAttempt := now |}.

(** In-place mutation of the object that [find] returned: the first
    element satisfying [p] is replaced by its image under [g]. *)
Fixpoint updateFirst {A : Type} (p : A -> bool) (g : A -> A) (l : list A)
  : list A :=
  match l with
  | [] => []
  | x :: rest => if p x then g x :: rest else x :: updateFirst p g rest
  end.

Definition markFailed (tr : t) (imageId error now : string) : t :=
  let p := progress tr in
  let failed' :=
    match List.find (hasId imageId) (failed p) with
    | Some _ => updateFirst (hasId imageId) (bump error now) (failed p)
    | None =>
        failed p ++ [ {| Failed.id := imageId;
                         Failed.attempts := 1;
                         Failed.lastError := error;
                         Failed.lastAttempt := now |} ]
    end in
  save {| progress :=
            {| completed := completed p; failed := failed';
               startedAt := startedAt p |};
          stored := stored tr |}.

(** [record?.attempts || 0] *)
Definition getFailedAttempts (tr : t) (imageId : string) : Z :=
  match List.find (hasId imageId) (failed (progress tr)) with
  | Some record => if Failed.attempts record =? 0 then 0 else Failed.attempts record
  | None => 0
  end.

(** [maxRetries] is [None] when the argument is omitted. *)
Definition getRemaining (tr : t) (allImages : list Image.t)
    (maxRetries : option Z) : list Image.t :=
  let maxRetries := default 3 maxRetries in
  List.filter
    (fun img =>
       if isCompleted tr (Image.id img) then false
       else if getFailedAttempts tr (Image.id img) >=? maxRetries then false
       else true)
    allImages.

Definition getStats (tr : t) : Stats.t :=
  {| Stats.completed := Z.of_nat (length (completed (progress tr)));
     Stats.failed := Z.of_nat (length (failed (progress tr)));
     Stats.startedAt := startedAt (progress tr) |}.

Definition clear (tr : t) (now : string) : t :=
  {| progress := empty now; stored := None |}.

(** Whether [progress.failed] holds a record for the id. *)
Definition hasRecord (tr : t) (imageId : string) : bool :=
  existsb (hasId imageId) (failed (progress tr)).

(** A run of [markFailed] calls for one id, each with its own error
    text and clock reading. *)
Definition markFailedMany (tr : t) (imageId : string)
    (calls : list (string * string)) : t :=
  fold_left (fun acc call => markFailed acc imageId (fst call) (snd call))
            calls tr.

(** The remaining set as the specification words it: the requests whose
    id is not in the completed set [C] and whose failed-attempt count
    [F] is below [k]. *)
Definition remainingSpec (C : list string) (F : string -> Z) (k : Z)
    (R : list Image.t) : list Image.t :=
  List.filter
    (fun r => negb (bool_decide (Image.id r ∈ C)) && bool_decide (F (Image.id r) < k))
    R.

End Tracker.

(** ** generator.js *)

Module Generator.

Import Errors.

Definition RETRY_DELAYS : list Z := [1000; 2000; 4000].

Definition isRetryable (err : RawError) : bool :=
  let message := lowered err in
  JS.includes message "rate limit" ||
  JS.includes message "429" ||
  JS.includes message "503" ||
  JS.includes message "timeout" ||
  JS.includes message "temporarily".

(** One element of [response.candidates[0].content.parts]. *)
Record Part : Type := mkPart {
  inlineData : option string;
  text : option string
}.

(** [response.candidates?.[0]?.content?.parts], [None] when one of the
    links is missing. *)
Definition Response : Type := option (list Part).

(** One element of the outbound [contents]. *)
Inductive ContentPart : Type :=
| TextPart (text : string)
| InlinePart (mimeType data : string).

(** What one call of [ai.models.generateContent] does. *)
Inductive RemoteOutcome : Type :=
| Rejects (err : RawError)
| Responds (response : Response).

Record GenerationResult : Type := mkResult {
  success : bool;
  filepath : string;
  imageId : string;
  filename : string
}.

(** How a call ends: with a value, or with an exception. *)
Inductive Outcome (E A : Type) : Type :=
| Returned (a : A)
| Threw (e : E).
Arguments Returned {E A} a.
Arguments Threw {E A} e.

(** The effects of one request, in the order in which they happen. *)
Inductive Event : Type :=
| Notify (msg : string)
| Sleep (ms : Z)
| GenerateContent (attempt : nat)
| MkDir (dir : string)
| WriteFile (path data : string).

(** A progress callback, by the messages with which it calls the
    user's handler when it is called with a message. *)
Definition Callback : Type := string -> list string.

(** What the user hears of [cb?.(msg)]. *)
Definition heard (cb : option Callback) (msg : string) : list string :=
  match cb with
  | Some f => f msg
  | None => []
  end.

(** [cb?.(msg)], as the notifications that reach the user. *)
Definition invoke (cb : option Callback) (msg : string) : list Event :=
  map Notify (heard cb msg).

Definition showNat (n : nat) : string := NilZero.string_of_uint (Nat.to_uint n).

(** The template literal of the retry notification. *)
Definition retryMessage (attempt : nat) : string :=
  "Retry attempt " +:+ showNat attempt +:+ "/" +:+ showNat (length RETRY_DELAYS)
  +:+ "...".

(** The error object as the [catch] clause of [generateImage] sees it. *)
Definition asRaw (e : GobananaError) : RawError := mkRaw (Some (message e)).

(** An exception that the code does not raise itself. *)
Inductive Thrown : Type :=
| TypeError (what : string).

Record BatchFailure : Type := mkFailure {
  failedImageId : string;
  error : string
}.

Record BatchResults : Type := mkResults {
  successful : list GenerationResult;
  failed : list BatchFailure;
  skipped : Z
}.

(** The options of [generateBatch] that bear on what it returns;
    [onImageStart] only reports. *)
Record BatchOptions : Type := mkOptions {
  onProgress : option Callback;
  getReferenceImages : option (Image.t -> list string);
  freshStart : bool;
  concurrency : option Z
}.

(** What one element of [chunkResults] holds. *)
Inductive ChunkResult : Type :=
| Success (result : GenerationResult)
| Failure (imageId error : string).

(** [array.slice(start, end)], negative indices counting from the end. *)
Definition slice {A : Type} (array : list A) (start end_ : Z) : list A :=
  let len := Z.of_nat (length array) in
  let from := if start <? 0 then Z.max (len + start) 0 else Z.min start len in
  let to := if end_ <? 0 then Z.max (len + end_) 0 else Z.min end_ len in
  firstn (Z.to_nat (to - from)) (skipn (Z.to_nat from) array).

(** The [for] loop of [chunkArray], entered with index [i] and the
    chunks pushed so far. *)
Fixpoint chunkLoop {A : Type} (fuel : nat) (array : list A) (size i : Z)
    (chunks : list (list A)) : option (list (list A)) :=
  match fuel with
  | O => None
  | S fuel' =>
      if i <? Z.of_nat (length array) then
        chunkLoop fuel' array size (i + size)
                  (chunks ++ [slice array i (i + size)])
      else Some chunks
  end.

Definition chunkArray {A : Type} (fuel : nat) (array : list A) (size : Z)
  : option (list (list A)) :=
  chunkLoop fuel array size 0 [].

(** [results.successful.push] / [results.failed.push] over one chunk. *)
Definition collect (results : BatchResults) (chunkResults : list ChunkResult)
  : BatchResults :=
  fold_left
    (fun acc res =>
       match res with
       | Success result =>
           {| successful := successful acc ++ [result];
              failed := failed acc;
              skipped := skipped acc |}
       | Failure imageId error =>
           {| successful := successful acc;
              failed := failed acc ++ [ {| failedImageId := imageId; error := error |} ];
              skipped := skipped acc |}
       end)
    chunkResults results.

(** [imageRefMap]: filled for every remaining request, in order, before
    any generation starts. *)
Definition collectReferences (getRefs : option (Image.t -> list string))
    (remaining : list Image.t) : gmap string (list string) :=
  match getRefs with
  | Some f => fold_left (fun m image => <[Image.id image := f image]> m) remaining ∅
  | None => ∅
  end.

(** [imageRefMap.get(image.id) || []] *)
Definition referencesFor (imageRefMap : gmap string (list string))
    (image : Image.t) : list string :=
  default [] (imageRefMap !! Image.id image).

(** The remote calls, the sleeps and the notifications of a trace. *)
Definition callsOf (trace : list Event) : list nat :=
  omap (fun e => match e with GenerateContent n => Some n | _ => None end) trace.

Definition sleepsOf (trace : list Event) : list Z :=
  omap (fun e => match e with Sleep ms => Some ms | _ => None end) trace.


(** The successes and the failures among reported outcomes, in order. *)
Definition successesOf (l : list ChunkResult) : list GenerationResult :=
  omap (fun res => match res with Success result => Some result | _ => None end) l.

Definition failuresOf (l : list ChunkResult) : list BatchFailure :=
  omap (fun res =>
          match res with
          | Failure imageId error =>
              Some {| failedImageId := imageId; error := error |}
          | _ => None
          end) l.

(** The id under which a reported outcome is filed. *)
Definition outcomeId (res : ChunkResult) : string :=
  match res with
  | Success result => imageId result
  | Failure imageId _ => imageId
  end.

(** What the partition of [chunkArray] is meant to be: contiguous groups
    of at most [size] elements, all full except possibly the last,
    which put together give the array back. *)
Definition isPartition {A : Type} (size : Z) (array : list A)
    (chunks : list (list A)) : Prop :=
  concat chunks = array /\
  (forall chunk, chunk ∈ chunks -> 0 < Z.of_nat (length chunk) <= size) /\
  (forall k chunk,
     chunks !! k = Some chunk -> (S k < length chunks)%nat ->
     Z.of_nat (length chunk) = size).

Section Run.

(** The collaborators of the generator: its configuration, the prompt
    formatter, the file system and the remote service.  [remote image
    contents n] is what the [n]-th call of the service does for the
    request (the service is taken to answer as a function of the
    request, the parts sent and the number of the attempt); [now] is
    the clock reading; file-system writes are taken to succeed. *)
Variable outputDir : string.
Variable buildPrompt : Image.t -> string.
Variable getMimeType : string -> string.
Variable readReference : string -> option string.
Variable generateFilename : Image.t -> string.
Variable pathJoin : string -> string -> string.
Variable remote : Image.t -> list ContentPart -> nat -> RemoteOutcome.
Variable now : string.

(** The outbound parts: the prompt, then one part per readable reference
    image. *)
Definition contentParts (image : Image.t) (referenceImages : list string)
  : list ContentPart :=
  TextPart (buildPrompt image) ::
  omap (fun refPath =>
          match readReference refPath with
          | Some base64 => Some (InlinePart (getMimeType refPath) base64)
          | None => None
          end)
       referenceImages.

Definition processResponse (response : Response) (image : Image.t)
  : list Event * Outcome GobananaError GenerationResult :=
  match response with
  | None =>
      ([], Threw (GenerationError
                    "Invalid response structure from API. The model may not support image generation."
                    (Some (Image.id image))))
  | Some parts =>
      match List.find (fun part => bool_decide (is_Some (inlineData part))) parts with
      | Some part =>
          let filename := generateFilename image in
          let filepath := pathJoin outputDir filename in
          ([MkDir outputDir; WriteFile filepath (default "" (inlineData part))],
           Returned {| success := true; filepath := filepath;
                       imageId := Image.id image; filename := filename |})
      | None =>
          match List.find (fun part => JS.truthy (text part)) parts with
          | Some part =>
              let text := String.substring 0 200 (default "" (text part)) in
              if JS.includes (JS.toLowerCase text) "cannot" ||
                 JS.includes (JS.toLowerCase text) "sorry"
              then
                ([], Threw (GenerationError
                              ("Content blocked: " +:+ text +:+
                               ". Try simplifying your prompt or removing specific brand references.")
                              (Some (Image.id image))))
              else
                ([], Threw (GenerationError
                              ("API returned text instead of image: " +:+ text)
                              (Some (Image.id image))))
          | None =>
              ([], Threw (GenerationError
                            "No image data in response. The prompt may be too complex."
                            (Some (Image.id image))))
          end
      end
  end.

(** The body of the [try] block after the optional retry notice: the
    remote call, then [processResponse]. *)
Definition attemptOnce (image : Image.t) (contents : list ContentPart)
    (attempt : nat) : list Event * Outcome RawError GenerationResult :=
  match remote image contents attempt with
  | Rejects err => ([GenerateContent attempt], Threw err)
  | Responds response =>
      match processResponse response image with
      | (events, Returned result) => (GenerateContent attempt :: events, Returned result)
      | (events, Threw e) => (GenerateContent attempt :: events, Threw (asRaw e))
      end
  end.

(** What precedes the remote call when [attempt > 0]. *)
Definition beforeRetry (onProgress : option Callback) (attempt : nat)
  : list Event :=
  if (0 <? attempt)%nat then
    invoke onProgress (retryMessage attempt) ++
    [Sleep (nth (attempt - 1) RETRY_DELAYS 0)]
  else [].

(** The [for] loop of [generateImage], entered at [attempt] with the
    current [lastError]; the statement after the loop is
    [throw lastError]. *)
Fixpoint attemptLoop (fuel : nat) (image : Image.t) (contents : list ContentPart)
    (onProgress : option Callback) (attempt : nat)
    (lastError : option GobananaError)
  : list Event * option (Outcome (option GobananaError) GenerationResult) :=
  match fuel with
  | O => ([], None)
  | S fuel' =>
      if (attempt <=? length RETRY_DELAYS)%nat then
        let before := beforeRetry onProgress attempt in
        match attemptOnce image contents attempt with
        | (events, Returned result) =>
            (before ++ events, Some (Returned result))
        | (events, Threw err) =>
            let lastError' := Some (parseApiError err (Some (Image.id image))) in
            if isRetryable err && (attempt <? length RETRY_DELAYS)%nat then
              let (later, outcome) :=
                attemptLoop fuel' image contents onProgress (S attempt) lastError' in
              (before ++ events ++ later, outcome)
            else (before ++ events, Some (Threw lastError'))
        end
      else ([], Some (Threw lastError))
  end.

Definition generateImage (image : Image.t) (referenceImages : list string)
    (onProgress : option Callback)
  : list Event * option (Outcome (option GobananaError) GenerationResult) :=
  attemptLoop (S (S (length RETRY_DELAYS))) image
              (contentParts image referenceImages) onProgress 0 None.

(** The callback that [generateBatch] hands to [generateImage]. *)
Definition prefixed (onProgress : option Callback) (image : Image.t) : Callback :=
  fun msg => heard onProgress ("[" +:+ Image.id image +:+ "] " +:+ msg).

(** The [async] function mapped over a chunk, for one request: the
    result it resolves to and the tracker it leaves.  Reading [message]
    off an [undefined] exception is a [TypeError] raised inside the
    [catch] clause, which nothing catches. *)
Definition runOne (tr : Tracker.t) (imageRefMap : gmap string (list string))
    (onProgress : option Callback) (image : Image.t)
  : option (Outcome Thrown (ChunkResult * Tracker.t)) :=
  match snd (generateImage image (referencesFor imageRefMap image)
                           (Some (prefixed onProgress image))) with
  | None => None
  | Some (Returned result) =>
      Some (Returned (Success result, Tracker.markCompleted tr (Image.id image)))
  | Some (Threw (Some err)) =>
      Some (Returned (Failure (Image.id image) (message err),
                      Tracker.markFailed tr (Image.id image) (message err) now))
  | Some (Threw None) =>
      Some (Threw (TypeError "Cannot read properties of undefined (reading 'message')"))
  end.

(** One chunk: [Promise.all] over the mapped requests.  The results come
    back in the order of the chunk whatever the order of completion; the
    tracker updates are applied here in the order of the chunk. *)
Fixpoint runChunk (tr : Tracker.t) (imageRefMap : gmap string (list string))
    (onProgress : option Callback) (chunk : list Image.t)
  : option (Outcome Thrown (list ChunkResult * Tracker.t)) :=
  match chunk with
  | [] => Some (Returned ([], tr))
  | image :: rest =>
      match runOne tr imageRefMap onProgress image with
      | None => None
      | Some (Threw e) => Some (Threw e)
      | Some (Returned (res, tr')) =>
          match runChunk tr' imageRefMap onProgress rest with
          | None => None
          | Some (Threw e) => Some (Threw e)
          | Some (Returned (more, tr'')) => Some (Returned (res :: more, tr''))
          end
      end
  end.

(** The loop over the chunks. *)
Fixpoint runChunks (tr : Tracker.t) (imageRefMap : gmap string (list string))
    (onProgress : option Callback) (chunks : list (list Image.t))
    (results : BatchResults)
  : option (Outcome Thrown (BatchResults * Tracker.t)) :=
  match chunks with
  | [] => Some (Returned (results, tr))
  | chunk :: rest =>
      match runChunk tr imageRefMap onProgress chunk with
      | None => None
      | Some (Threw e) => Some (Threw e)
      | Some (Returned (chunkResults, tr')) =>
          runChunks tr' imageRefMap onProgress rest (collect results chunkResults)
      end
  end.

(** [generateBatch]: the summary it returns and the tracker it leaves.
    The progress messages of the batch itself ("Processing ...",
    "Completed: ...", "Failed: ...") do not bear on either and are left
    out; the callbacks are taken to return normally. *)
Definition generateBatch (fuel : nat) (tr : Tracker.t) (images : list Image.t)
    (options : BatchOptions)
  : option (Outcome Thrown (BatchResults * Tracker.t)) :=
  let tr := if freshStart options then Tracker.clear tr now else tr in
  let remaining := Tracker.getRemaining tr images None in
  let results :=
    {| successful := []; failed := [];
       skipped := Z.of_nat (length images) - Z.of_nat (length remaining) |} in
  let imageRefMap := collectReferences (getReferenceImages options) remaining in
  match chunkArray fuel remaining (default 5 (concurrency options)) with
  | None => None
  | Some chunks => runChunks tr imageRefMap (onProgress options) chunks results
  end.

(** The terminal outcome of one request as the mapped function reports
    it; [None] stands for the two cases in which it reports nothing. *)
Definition settle (imageRefMap : gmap string (list string))
    (onProgress : option Callback) (image : Image.t) : option ChunkResult :=
  match snd (generateImage image (referencesFor imageRefMap image)
                           (Some (prefixed onProgress image))) with
  | Some (Returned result) => Some (Success result)
  | Some (Threw (Some err)) => Some (Failure (Image.id image) (message err))
  | _ => None
  end.

(** The tracker update that goes with a reported outcome. *)
Definition recordOutcome (tr : Tracker.t) (res : ChunkResult) : Tracker.t :=
  match res with
  | Success result => Tracker.markCompleted tr (imageId result)
  | Failure imageId error => Tracker.markFailed tr imageId error now
  end.

End Run.

End Generator.

(** ** A sample configuration

    Concrete collaborators, used to run the generator on examples. *)

Module Sample.
Import Generator.

Definition outputDir : string := "./output".
Definition buildPrompt (image : Image.t) : string := Image.prompt image.
Definition getMimeType (path : string) : string := "image/png".
Definition readReference (path : string) : option string := None.
Definition generateFilename (image : Image.t) : string := Image.id image +:+ ".png".
Definition pathJoin (dir file : string) : string := dir +:+ "/" +:+ file.
Definition now : string := "2026-01-01T00:00:00.000Z".

Definition image (id : string) : Image.t :=
  Image.mk id None id "16:9" "a banana".

(** A service that rejects every call with the same message. *)
Definition rejecting (msg : string)
  : Image.t -> list ContentPart -> nat -> RemoteOutcome :=
  fun _ _ _ => Rejects (Errors.ofString msg).

(** A service that answers every call with one image part. *)
Definition succeeding : Image.t -> list ContentPart -> nat -> RemoteOutcome :=
  fun _ _ _ => Responds (Some [ {| inlineData := Some "iVBORw0KGgo="; text := None |} ]).

(** The user's handler, called with each message. *)
Definition handler : Callback := fun msg => [msg].

Definition generateImage remote :=
  Generator.generateImage outputDir buildPrompt getMimeType readReference
                          generateFilename pathJoin remote.

Definition generateBatch remote :=
  Generator.generateBatch outputDir buildPrompt getMimeType readReference
                          generateFilename pathJoin remote now.

Definition defaults : BatchOptions :=
  {| onProgress := None; getReferenceImages := None;
     freshStart := false; concurrency := None |}.

End Sample.

(** ** Histories of the tracker

    The operations that change a tracker, as data, to speak about what
    holds after any sequence of them. *)

Module TrackerOps.
Import Tracker.

Inductive Op : Type :=
| MarkCompleted (imageId : string)
| MarkFailed (imageId error now : string)
| Clear (now : string).

Definition step (tr : t) (op : Op) : t :=
  match op with
  | MarkCompleted imageId => markCompleted tr imageId
  | MarkFailed imageId error now => markFailed tr imageId error now
  | Clear now => clear tr now
  end.

Definition run (tr : t) (ops : list Op) : t := fold_left step ops tr.

(** A record as the operations build it: no id twice in [completed], one
    failure record per id at most, each with at least one attempt. *)
Definition wellFormed (p : Progress) : Prop :=
  NoDup (completed p) /\
  NoDup (map Failed.id (failed p)) /\
  Forall (fun f => 1 <= Failed.attempts f) (failed p).

(** The file holds the in-memory record, or there is no file and
    nothing has been recorded. *)
Definition durable (tr : t) : Prop :=
  stored tr = Some (progress tr) \/
  (stored tr = None /\ completed (progress tr) = [] /\ failed (progress tr) = []).

(** A new process over the same output directory:
    [new ProgressTracker(outputDir)] reads what the last one stored. *)
Definition reload (tr : t) (now : string) : t := create (stored tr) now.

End TrackerOps.

(** ** errors.js: the codes and the classes *)

Module ErrorsCli.
Import Errors.

(** The values that [code] takes in errors.js. *)
Definition codes : list string :=
  ["API_KEY_ERROR"; "RATE_LIMIT"; "CONFIG_ERROR"; "GENERATION_ERROR";
   "SERVER_ERROR"; "TIMEOUT"].

(** The classes whose error object is a [GenerationError]. *)
Definition isGenerationClass (c : Class.t) : bool :=
  match c with
  | Class.ContentSafetyError | Class.UnknownGenerationError => true
  | _ => false
  end.

End ErrorsCli.

(** ** More projections of a trace *)

Module Traces.
Import Generator.

(** The files written, with their content. *)
Definition writesOf (trace : list Event) : list (string * string) :=
  omap (fun e => match e with WriteFile path data => Some (path, data) | _ => None end)
       trace.

(** The time slept, in milliseconds. *)
Definition sleptMs (trace : list Event) : Z :=
  fold_right Z.add 0 (sleepsOf trace).

(** Whether a part carries an image. *)
Definition hasImage (part : Part) : bool := bool_decide (is_Some (inlineData part)).

End Traces.

(** ** More sample services *)

Module Scenes.
Import Generator.

Definition imagePart : Part := {| inlineData := Some "iVBORw0KGgo="; text := None |}.
Definition textPart (t : string) : Part := {| inlineData := None; text := Some t |}.

(** A service that rejects the calls before the [k]-th with "503" and
    answers the others with an image. *)
Definition flaky (k : nat) : Image.t -> list ContentPart -> nat -> RemoteOutcome :=
  fun _ _ n =>
    if (n <? k)%nat then Rejects (Errors.ofString "503 Service Unavailable")
    else Responds (Some [imagePart]).

(** A service that rejects the calls before the [k]-th with "503" and
    the others with a message of its own. *)
Definition failing (k : nat) (msg : string)
  : Image.t -> list ContentPart -> nat -> RemoteOutcome :=
  fun _ _ n =>
    if (n <? k)%nat then Rejects (Errors.ofString "503 Service Unavailable")
    else Rejects (Errors.ofString msg).


End Scenes.

(** ** Reading a summary *)

Module Summary.
Import Generator.

(** How many times an id occurs in a list of ids. *)
Definition countId (imageId : string) (ids : list string) : Z :=
  Z.of_nat (length (List.filter (String.eqb imageId) ids)).

(** The ids of the successes and of the failures of a summary. *)
Definition succeededIds (results : BatchResults) : list string :=
  map imageId (successful results).

Definition failedIds (results : BatchResults) : list string :=
  map failedImageId (failed results).

(** The options of a run with another concurrency. *)
Definition withConcurrency (options : BatchOptions) (c : option Z) : BatchOptions :=
  {| onProgress := onProgress options;
     getReferenceImages := getReferenceImages options;
     freshStart := freshStart options;
     concurrency := c |}.

(** The last request of a list that has the id of [image]. *)
Definition lastWithId (image : Image.t) (requests : list Image.t) : option Image.t :=
  last (List.filter (fun r => String.eqb (Image.id r) (Image.id image)) requests).

End Summary.

(** ** prompt-builder.js *)

Module PromptBuilder.

(** [items.join(sep)] on an array of strings. *)
Fixpoint join (sep : string) (items : list string) : string :=
  match items with
  | [] => ""
  | x :: rest =>
      match rest with
      | [] => x
      | _ :: _ => x +:+ sep +:+ join sep rest
      end
  end.

(** [array?.length] as a condition: the array is there and not empty. *)
Definition nonEmpty {A : Type} (array : option (list A)) : bool :=
  match array with
  | Some (_ :: _) => true
  | _ => false
  end.

Definition items {A : Type} (array : option (list A)) : list A := default [] array.

Record Palette : Type := mkPalette {
  background : option (list string);
  primary_accents : option (list string);
  secondary_accents : option (list string);
  neutrals : option (list string)
}.

Record UIStyle : Type := mkUIStyle {
  mode : option string;
  shapes : option string;
  charts : option string;
  icons : option string
}.

Record StyleGuideDefinition : Type := mkDefinition {
  brand_keywords : option (list string);
  palette : option Palette;
  ui_style : option UIStyle;
  typography_feel : option (list string);
  visual_motifs : option (list string);
  avoid : option (list string)
}.

(** The argument of [formatStyleGuide]: an object that may have a
    [style_guide] property and, read as a definition itself, has the
    fields [own]. *)
Record StyleGuide : Type := mkStyleGuide {
  style_guide : option StyleGuideDefinition;
  own : StyleGuideDefinition
}.

Record ImageStyle : Type := mkImageStyle {
  lighting : option string;
  detail_level : option string;
  ui_fidelity : option string;
  mood : option string
}.

(** [if (cond) list.push(line)] *)
Definition pushIf (cond : bool) (line : string) : list string :=
  if cond then [line] else [].

Definition paletteLines (p : Palette) : list string :=
  pushIf (nonEmpty (background p))
         ("Background: " +:+ join ", " (items (background p)))
  ++ pushIf (nonEmpty (primary_accents p))
            ("Primary accents: " +:+ join ", " (items (primary_accents p)))
  ++ pushIf (nonEmpty (secondary_accents p))
            ("Secondary accents: " +:+ join ", " (items (secondary_accents p)))
  ++ pushIf (nonEmpty (neutrals p))
            ("Neutrals: " +:+ join ", " (items (neutrals p))).

Definition uiLines (ui : UIStyle) : list string :=
  pushIf (JS.truthy (mode ui)) ("Mode: " +:+ JS.show (mode ui))
  ++ pushIf (JS.truthy (shapes ui)) ("Shapes: " +:+ JS.show (shapes ui))
  ++ pushIf (JS.truthy (charts ui)) ("Charts: " +:+ JS.show (charts ui))
  ++ pushIf (JS.truthy (icons ui)) ("Icons: " +:+ JS.show (icons ui)).

(** The sections pushed by [formatStyleGuide], in order. *)
Definition sections (sg : StyleGuideDefinition) : list string :=
  pushIf (nonEmpty (brand_keywords sg))
         ("Style Keywords: " +:+ join ", " (items (brand_keywords sg)))
  ++ match palette sg with
     | Some p =>
         pushIf (match paletteLines p with [] => false | _ => true end)
                ("Color Palette:" +:+ JS.newline +:+ join JS.newline (paletteLines p))
     | None => []
     end
  ++ match ui_style sg with
     | Some ui =>
         pushIf (match uiLines ui with [] => false | _ => true end)
                ("UI Style:" +:+ JS.newline +:+ join JS.newline (uiLines ui))
     | None => []
     end
  ++ pushIf (nonEmpty (typography_feel sg))
            ("Typography: " +:+ join ", " (items (typography_feel sg)))
  ++ pushIf (nonEmpty (visual_motifs sg))
            ("Visual Motifs: " +:+ join "; " (items (visual_motifs sg)))
  ++ pushIf (nonEmpty (avoid sg))
            ("AVOID: " +:+ join "; " (items (avoid sg))).

(** [styleGuide.style_guide || styleGuide] *)
Definition effective (styleGuide : StyleGuide) : StyleGuideDefinition :=
  match style_guide styleGuide with
  | Some d => d
  | None => own styleGuide
  end.

Definition formatStyleGuide (styleGuide : StyleGuide) : string :=
  let sg := effective styleGuide in
  join (JS.newline +:+ JS.newline) (sections sg).

(** Every line that a style guide gives rise to: one per group of
    keywords that is not empty, one per colour list and per UI attribute
    that is set. *)
Definition groupLines (sg : StyleGuideDefinition) : list string :=
  pushIf (nonEmpty (brand_keywords sg))
         ("Style Keywords: " +:+ join ", " (items (brand_keywords sg)))
  ++ match palette sg with Some p => paletteLines p | None => [] end
  ++ match ui_style sg with Some ui => uiLines ui | None => [] end
  ++ pushIf (nonEmpty (typography_feel sg))
            ("Typography: " +:+ join ", " (items (typography_feel sg)))
  ++ pushIf (nonEmpty (visual_motifs sg))
            ("Visual Motifs: " +:+ join "; " (items (visual_motifs sg)))
  ++ pushIf (nonEmpty (avoid sg))
            ("AVOID: " +:+ join "; " (items (avoid sg))).

(** The lines that [buildPrompt] always writes. *)
Definition fixedLines (styleGuide : StyleGuide) (image : Image.t) : list string :=
  ["=== STYLE GUIDE ===";
   formatStyleGuide styleGuide;
   "=== IMAGE REQUEST ===";
   "Title: " +:+ Image.title image;
   "Section: " +:+ JS.show (Image.section image);
   "Aspect Ratio: " +:+ Image.aspect_ratio image;
   "=== MAIN PROMPT ===";
   Image.prompt image].

Definition styleParts (imageStyle : ImageStyle) : list string :=
  pushIf (JS.truthy (lighting imageStyle))
         ("Lighting: " +:+ JS.show (lighting imageStyle))
  ++ pushIf (JS.truthy (detail_level imageStyle))
            ("Detail level: " +:+ JS.show (detail_level imageStyle))
  ++ pushIf (JS.truthy (ui_fidelity imageStyle))
            ("UI fidelity: " +:+ JS.show (ui_fidelity imageStyle))
  ++ pushIf (JS.truthy (mood imageStyle))
            ("Mood: " +:+ JS.show (mood imageStyle)).

Definition formatImageStyle (imageStyle : option ImageStyle) : string :=
  match imageStyle with
  | None => ""
  | Some st =>
      match styleParts st with
      | [] => ""
      | parts => join ". " parts +:+ "."
      end
  end.

(** [buildPrompt(styleGuide, image)]; [style] is [image.style], a field
    that [Image.t] does not carry. *)
Definition buildPrompt (styleGuide : StyleGuide) (image : Image.t)
    (style : option ImageStyle) : string :=
  let styleGuideText := formatStyleGuide styleGuide in
  let imageStyleText := formatImageStyle style in
  let promptParts :=
    ["=== STYLE GUIDE ===";
     styleGuideText;
     "";
     "=== IMAGE REQUEST ===";
     "Title: " +:+ Image.title image;
     "Section: " +:+ JS.show (Image.section image);
     "Aspect Ratio: " +:+ Image.aspect_ratio image;
     "";
     "=== MAIN PROMPT ===";
     Image.prompt image] in
  let promptParts :=
    if JS.truthy (Some imageStyleText)
    then promptParts ++ [""; "=== IMAGE-SPECIFIC STYLE ==="; imageStyleText]
    else promptParts in
  join JS.newline promptParts.

(** The ASCII characters that [\s] matches: tab, line feed, vertical
    tab, form feed, carriage return, space. *)
Definition isSpace (c : ascii) : bool :=
  let n := nat_of_ascii c in
  ((9 <=? n)%nat && (n <=? 13)%nat) || (n =? 32)%nat.

(** [s.replace(/\s/g, '')] *)
Fixpoint stripSpaces (s : string) : string :=
  match s with
  | EmptyString => EmptyString
  | String c s' => if isSpace c then stripSpaces s' else String c (stripSpaces s')
  end.

Definition supported : list string :=
  ["1:1"; "16:9"; "21:9"; "4:5"; "5:4"; "2:3"; "3:2"; "3:4"; "4:3"; "9:16"].

Definition normalizeAspectRatio (aspectRatio : string) : string :=
  let normalized := stripSpaces aspectRatio in
  if existsb (String.eqb normalized) supported then normalized else "16:9".

End PromptBuilder.

(** ** config-loader.js *)

Module ConfigLoader.

(** The values of an options object; [Undefined] is also what reading a
    missing property gives. *)
Inductive Value : Type :=
| Undefined
| Str (s : string)
| Num (n : Z)
| Bool (b : bool).

Definition isUndefined (v : Value) : bool :=
  match v with
  | Undefined => true
  | _ => false
  end.

(** [object[key]] *)
Definition get (object : gmap string Value) (key : string) : Value :=
  default Undefined (object !! key).

(** [keyMap]: config-file key, CLI key. *)
Definition keyMap : list (string * string) :=
  [("styleGuide", "styleGuide"); ("images", "images"); ("output", "output");
   ("model", "model"); ("size", "size"); ("format", "format");
   ("filename", "filename"); ("concurrency", "concurrency");
   ("interactive", "interactive")].

(** The body of the [for] loop of [mergeOptions]. *)
Definition mergeKey (fileConfig : gmap string Value)
    (merged : gmap string Value) (entry : string * string) : gmap string Value :=
  let (configKey, cliKey) := entry in
  if negb (isUndefined (get fileConfig configKey)) && isUndefined (get merged cliKey)
  then <[cliKey := get fileConfig configKey]> merged
  else merged.

(** [mergeOptions(cliOptions, fileConfig)]; [fileConfig] is [None] when
    it is [null] or [undefined]. *)
Definition mergeOptions (cliOptions : gmap string Value)
    (fileConfig : option (gmap string Value)) : gmap string Value :=
  match fileConfig with
  | None => cliOptions
  | Some config => fold_left (mergeKey config) keyMap cliOptions
  end.

Definition keys : list string := map snd keyMap.

Definition CONFIG_FILES : list string :=
  [".stylegenrc"; ".stylegenrc.json"; "stylegen.config.json"; ".stylegen.json"].

Section Files.

(** The file system and the JSON parser: [readFile path] is the content
    of the file when it exists, [parse] is [None] when [JSON.parse]
    throws; [pathJoin] is [path.join]. *)
Variable Config : Type.
Variable cwd : string.
Variable pathJoin : string -> string -> string.
Variable readFile : string -> option string.
Variable parse : string -> option Config.

(** The loop of [loadConfigFile] over the candidates that are left. *)
Fixpoint loadFrom (candidates : list string) : option (Config * string) :=
  match candidates with
  | [] => None
  | filename :: rest =>
      let filepath := pathJoin cwd filename in
      match readFile filepath with
      | Some content =>
          match parse content with
          | Some config => Some (config, filepath)
          | None => loadFrom rest
          end
      | None => loadFrom rest
      end
  end.

Definition loadConfigFile : option (Config * string) := loadFrom CONFIG_FILES.

(** A candidate that [loadConfigFile] can use: it exists and parses. *)
Definition usable (filename : string) : option Config :=
  match readFile (pathJoin cwd filename) with
  | Some content => parse content
  | None => None
  end.

End Files.

End ConfigLoader.

(** ** generator.js: file names *)

Module Filename.

(** The first occurrence of [pat] in [s]: what stands before it and
    after it. *)
Fixpoint splitFirst (s pat : string) : option (string * string) :=
  if JS.startsWith s pat
  then Some (EmptyString, String.substring (String.length pat) (String.length s) s)
  else match s with
       | EmptyString => None
       | String c s' =>
           match splitFirst s' pat with
           | Some (before, after) => Some (String c before, after)
           | None => None
           end
       end.

(** The replacement text of [replace] with a string pattern: ["$$"] is a
    dollar, ["$&"] the match, ["$`"] and ["$'"] what stands before and
    after the match; without capture groups every other character,
    a dollar included, stands for itself. *)
Fixpoint expand (replacement matched before after : string) : string :=
  match replacement with
  | EmptyString => EmptyString
  | String c rest =>
      match rest with
      | String d rest' =>
          if Ascii.eqb c "$" then
            if Ascii.eqb d "$" then "$" +:+ expand rest' matched before after
            else if Ascii.eqb d "&" then matched +:+ expand rest' matched before after
            else if Ascii.eqb d "`" then before +:+ expand rest' matched before after
            else if Ascii.eqb d "'" then after +:+ expand rest' matched before after
            else String c (expand rest matched before after)
          else String c (expand rest matched before after)
      | EmptyString => String c EmptyString
      end
  end.

(** [s.replace(pat, replacement)] with a string pattern: the first
    occurrence only. *)
Definition replace (s pat replacement : string) : string :=
  match splitFirst s pat with
  | Some (before, after) => before +:+ expand replacement pat before after +:+ after
  | None => s
  end.

(** The characters that [/[^a-zA-Z0-9-_]/] lets through. *)
Definition isSafe (c : ascii) : bool :=
  let n := nat_of_ascii c in
  ((97 <=? n)%nat && (n <=? 122)%nat) || ((65 <=? n)%nat && (n <=? 90)%nat)
  || ((48 <=? n)%nat && (n <=? 57)%nat) || (n =? 45)%nat || (n =? 95)%nat.

(** [s.replace(/[^a-zA-Z0-9-_]/g, '_')] *)
Fixpoint sanitize (s : string) : string :=
  match s with
  | EmptyString => EmptyString
  | String c s' => String (if isSafe c then c else "_"%char) (sanitize s')
  end.

(** [generateFilename(image)] for a generator with the given
    [filenameTemplate] and [outputFormat]. *)
Definition generateFilename (filenameTemplate outputFormat : string)
    (image : Image.t) : string :=
  let ext := if String.eqb outputFormat "jpg" then "jpg" else outputFormat in
  let filename :=
    replace
      (replace
         (replace
            (replace filenameTemplate "{id}" (Image.id image))
            "{section}" (JS.orElse (Image.section image) "default"))
         "{title}" (sanitize (JS.orElse (Some (Image.title image)) (Image.id image))))
      "{ratio}" (replace (JS.orElse (Some (Image.aspect_ratio image)) "16:9") ":" "x") in
  filename +:+ "." +:+ ext.

(** Whether a character occurs in a string. *)
Definition hasChar (c : ascii) (s : string) : bool :=
  existsb (Ascii.eqb c) (list_ascii_of_string s).

End Filename.

(** * Properties *)

(** ** Strings *)

Module JSFacts.
Import JS.

Lemma lowerAscii_idem (c : ascii) : lowerAscii (lowerAscii c) = lowerAscii c.
Proof.
  destruct c as [b0 b1 b2 b3 b4 b5 b6 b7].
  destruct b0, b1, b2, b3, b4, b5, b6, b7; reflexivity.
Qed.

Lemma toLowerCase_idem (s : string) : toLowerCase (toLowerCase s) = toLowerCase s.
Proof.
  induction s as [|c s IH]; simpl; [reflexivity|].
  now rewrite lowerAscii_idem, IH.
Qed.

Lemma orElse_nonempty (s d : string) : s <> "" -> orElse (Some s) d = s.
Proof. destruct s; [congruence | reflexivity]. Qed.

Lemma toLowerCase_empty (s : string) : toLowerCase s = "" <-> s = "".
Proof. destruct s; simpl; split; congruence. Qed.

End JSFacts.

(** ** The classifier *)

Module ErrorsFacts.
Import Errors.

Lemma lowered_ofString (s : string) : lowered (ofString s) = JS.toLowerCase s.
Proof.
  unfold lowered, ofString; simpl.
  destruct s; reflexivity.
Qed.

Lemma lowered_lower (s : string) :
  lowered (ofString (JS.toLowerCase s)) = lowered (ofString s).
Proof. now rewrite !lowered_ofString, JSFacts.toLowerCase_idem. Qed.

Lemma parseApiError_errorOf (err : RawError) (imgId : option string) :
  parseApiError err imgId = errorOf (classify err) err imgId.
Proof.
  unfold parseApiError, classify.
  destruct (authRule _); [reflexivity|].
  destruct (rateRule _); [reflexivity|].
  destruct (safetyRule _); [reflexivity|].
  destruct (malformedRule _); [reflexivity|].
  destruct (serverRule _); [reflexivity|].
  destruct (timeoutRule _); reflexivity.
Qed.

(** First match wins: a class is chosen exactly when its rule matches
    and no rule before it does. *)
Lemma classify_first_match (err : RawError) :
  let m := lowered err in
  (classify err = Class.AuthError <-> authRule m = true) /\
  (classify err = Class.RateLimitError <->
     authRule m = false /\ rateRule m = true) /\
  (classify err = Class.ContentSafetyError <->
     authRule m = false /\ rateRule m = false /\ safetyRule m = true) /\
  (classify err = Class.MalformedRequestError <->
     authRule m = false /\ rateRule m = false /\ safetyRule m = false /\
     malformedRule m = true) /\
  (classify err = Class.TransientServerError <->
     authRule m = false /\ rateRule m = false /\ safetyRule m = false /\
     malformedRule m = false /\ serverRule m = true) /\
  (classify err = Class.TimeoutError <->
     authRule m = false /\ rateRule m = false /\ safetyRule m = false /\
     malformedRule m = false /\ serverRule m = false /\ timeoutRule m = true) /\
  (classify err = Class.UnknownGenerationError <->
     authRule m = false /\ rateRule m = false /\ safetyRule m = false /\
     malformedRule m = false /\ serverRule m = false /\ timeoutRule m = false).
Proof.
  intros m; unfold classify; fold m.
  destruct (authRule m), (rateRule m), (safetyRule m), (malformedRule m),
    (serverRule m), (timeoutRule m);
    repeat split; intros; try discriminate; try reflexivity;
    repeat match goal with H : _ /\ _ |- _ => destruct H end;
    try discriminate.
Qed.

(** C4, as stated, fails on the empty message: it matches no rule, and
    the fallback error carries the default text, not the (empty)
    original. *)
Lemma parseApiError_empty_message_not_preserved :
  classify (ofString "") = Class.UnknownGenerationError /\
  message (parseApiError (ofString "") (Some "a")) = "Unknown error occurred" /\
  message (parseApiError (ofString "") (Some "a")) <> "".
Proof. repeat split; vm_compute; discriminate. Qed.

(** C4 (amended): [parseApiError] tests the lower-cased message against
    the rules in the order auth, rate limit, safety, malformed, server,
    timeout, fallback, and the first rule that matches decides.  "429
    quota exceeded" is a rate-limit error and "401 unauthorized" an auth
    error.  A message that matches no rule gives the fallback
    [GenerationError]; it carries the original text when that text is
    not empty, and "Unknown error occurred" when the message is empty or
    absent. *)
Theorem parseApiError_ordered_rules (err : RawError) (imgId : option string) :
  parseApiError err imgId = errorOf (classify err) err imgId /\
  (forall s, classify (ofString s) = classify (ofString (JS.toLowerCase s))) /\
  (let m := lowered err in
   (classify err = Class.AuthError <-> authRule m = true) /\
   (classify err = Class.RateLimitError <->
      authRule m = false /\ rateRule m = true) /\
   (classify err = Class.ContentSafetyError <->
      authRule m = false /\ rateRule m = false /\ safetyRule m = true) /\
   (classify err = Class.MalformedRequestError <->
      authRule m = false /\ rateRule m = false /\ safetyRule m = false /\
      malformedRule m = true) /\
   (classify err = Class.TransientServerError <->
      authRule m = false /\ rateRule m = false /\ safetyRule m = false /\
      malformedRule m = false /\ serverRule m = true) /\
   (classify err = Class.TimeoutError <->
      authRule m = false /\ rateRule m = false /\ safetyRule m = false /\
      malformedRule m = false /\ serverRule m = false /\ timeoutRule m = true) /\
   (classify err = Class.UnknownGenerationError <->
      authRule m = false /\ rateRule m = false /\ safetyRule m = false /\
      malformedRule m = false /\ serverRule m = false /\ timeoutRule m = false)) /\
  classify (ofString "429 quota exceeded") = Class.RateLimitError /\
  name (parseApiError (ofString "429 quota exceeded") imgId) = "RateLimitError" /\
  classify (ofString "401 unauthorized") = Class.AuthError /\
  name (parseApiError (ofString "401 unauthorized") imgId) = "ApiKeyError" /\
  (classify err = Class.UnknownGenerationError ->
   name (parseApiError err imgId) = "GenerationError" /\
   imageId (parseApiError err imgId) = imgId /\
   (forall s, raw_message err = Some s -> s <> "" ->
              message (parseApiError err imgId) = s) /\
   (raw_message err = Some "" \/ raw_message err = None ->
    message (parseApiError err imgId) = "Unknown error occurred")).
Proof.
  split; [apply parseApiError_errorOf|].
  split.
  { intros s. unfold classify. now rewrite lowered_lower. }
  split; [apply classify_first_match|].
  repeat (split; [reflexivity|]).
  intros Hc. rewrite parseApiError_errorOf, Hc. simpl.
  repeat split.
  - intros s Hs Hne. rewrite Hs. now apply JSFacts.orElse_nonempty.
  - intros [-> | ->]; reflexivity.
Qed.

Lemma parseApiError_ordered_rules_witness :
  classify (ofString "disk full") = Class.UnknownGenerationError /\
  message (parseApiError (ofString "disk full") (Some "a")) = "disk full".
Proof.
  assert (Hc : classify (ofString "disk full") = Class.UnknownGenerationError)
    by reflexivity.
  split; [exact Hc|].
  destruct (parseApiError_ordered_rules (ofString "disk full") (Some "a"))
    as (_ & _ & _ & _ & _ & _ & _ & Hfallback).
  destruct (Hfallback Hc) as (_ & _ & Hkeep & _).
  apply Hkeep; [reflexivity | discriminate].
Defined.

End ErrorsFacts.

(** ** The progress tracker *)

Module TrackerFacts.
Import Tracker.

Lemma includes_elem_of (l : list string) (x : string) :
  includes l x = true <-> x ∈ l.
Proof.
  unfold includes. rewrite existsb_exists, list_elem_of_In. split.
  - intros (y & Hy & Heq). apply String.eqb_eq in Heq. now subst.
  - intros Hin. exists x. split; [assumption | apply String.eqb_refl].
Qed.

Lemma includes_app (l1 l2 : list string) (x : string) :
  includes (l1 ++ l2) x = includes l1 x || includes l2 x.
Proof. apply existsb_app. Qed.

Lemma includes_self (l : list string) (x : string) : includes (l ++ [x]) x = true.
Proof.
  rewrite includes_app. unfold includes at 2. simpl.
  rewrite String.eqb_refl. now rewrite orb_true_r.
Qed.

Section Lists.
Context {A : Type} (p : A -> bool) (g : A -> A).

Lemma find_snoc (l : list A) (x : A) :
  List.find p (l ++ [x]) =
  match List.find p l with
  | Some y => Some y
  | None => if p x then Some x else None
  end.
Proof.
  induction l as [|y l IH]; simpl; [reflexivity|].
  destruct (p y); [reflexivity | exact IH].
Qed.

Lemma find_updateFirst (l : list A) :
  (forall x, p x = true -> p (g x) = true) ->
  List.find p (updateFirst p g l) = option_map g (List.find p l).
Proof.
  intros Hg. induction l as [|y l IH]; simpl; [reflexivity|].
  destruct (p y) eqn:Hy; simpl.
  - now rewrite (Hg y Hy).
  - now rewrite Hy.
Qed.

Lemma length_updateFirst (l : list A) : length (updateFirst p g l) = length l.
Proof.
  induction l as [|y l IH]; simpl; [reflexivity|].
  destruct (p y); simpl; [reflexivity | now rewrite IH].
Qed.


End Lists.

Lemma hasId_bump (imageId error now : string) (f : Failed.t) :
  forall other, hasId other (bump error now f) = hasId other f.
Proof. reflexivity. Qed.

Lemma filter_sublist {A : Type} (p : A -> bool) (l : list A) :
  sublist (List.filter p l) l.
Proof.
  induction l as [|x l IH]; simpl; [constructor|].
  destruct (p x); now constructor.
Qed.

(** The test of [getRemaining], in the words of the specification. *)
Lemma keep_iff (tr : t) (k : Z) (img : Image.t) :
  (if isCompleted tr (Image.id img) then false
   else if getFailedAttempts tr (Image.id img) >=? k then false else true)
  = negb (bool_decide (Image.id img ∈ completed (progress tr)))
    && bool_decide (getFailedAttempts tr (Image.id img) < k).
Proof.
  unfold isCompleted.
  destruct (includes _ _) eqn:Hc.
  - apply includes_elem_of in Hc. now rewrite (bool_decide_eq_true_2 _ Hc).
  - assert (Hn : Image.id img ∉ completed (progress tr)).
    { intros Hin. apply includes_elem_of in Hin. congruence. }
    rewrite (bool_decide_eq_false_2 _ Hn). simpl.
    destruct (Z.geb_spec (getFailedAttempts tr (Image.id img)) k) as [Hge|Hlt].
    + symmetry. apply bool_decide_eq_false_2. lia.
    + symmetry. apply bool_decide_eq_true_2. lia.
Qed.

Lemma getRemaining_remainingSpec (tr : t) (R : list Image.t) (maxRetries : option Z) :
  getRemaining tr R maxRetries
  = remainingSpec (completed (progress tr)) (getFailedAttempts tr)
                  (default 3 maxRetries) R.
Proof.
  unfold getRemaining, remainingSpec. apply filter_ext. intros img.
  apply keep_iff.
Qed.

Lemma elem_of_getRemaining (tr : t) (R : list Image.t) (maxRetries : option Z)
    (r : Image.t) :
  r ∈ getRemaining tr R maxRetries <->
  r ∈ R /\ (Image.id r ∉ completed (progress tr)) /\
  getFailedAttempts tr (Image.id r) < default 3 maxRetries.
Proof.
  rewrite getRemaining_remainingSpec. unfold remainingSpec.
  rewrite (list_elem_of_In (List.filter _ R) r), filter_In.
  rewrite andb_true_iff, negb_true_iff.
  rewrite bool_decide_eq_false, bool_decide_eq_true, <- list_elem_of_In.
  reflexivity.
Qed.

(** C1: [getRemaining(R, k)] is exactly the requests of [R] whose id is
    not completed and whose failed-attempt count is below [k], in the
    order of [R]; [k] is 3 when the argument is omitted. *)
Theorem getRemaining_correct (tr : t) (R : list Image.t) (maxRetries : option Z) :
  let C := completed (progress tr) in
  let F := getFailedAttempts tr in
  let k := default 3 maxRetries in
  getRemaining tr R maxRetries = remainingSpec C F k R /\
  (forall r, r ∈ getRemaining tr R maxRetries <->
             r ∈ R /\ (Image.id r ∉ C) /\ F (Image.id r) < k) /\
  sublist (getRemaining tr R maxRetries) R /\
  getRemaining tr R None = getRemaining tr R (Some 3).
Proof.
  intros C F k.
  split; [apply getRemaining_remainingSpec|]. split; [|split].
  - intros r. apply elem_of_getRemaining.
  - apply filter_sublist.
  - reflexivity.
Qed.

(** C9: a second [markCompleted(id)] changes nothing: the completed
    list, the rest of the record and the stored file are those left by
    the first call. *)
Theorem markCompleted_idempotent (tr : t) (imageId : string) :
  markCompleted (markCompleted tr imageId) imageId = markCompleted tr imageId /\
  isCompleted (markCompleted tr imageId) imageId = true.
Proof.
  assert (Hin : isCompleted (markCompleted tr imageId) imageId = true).
  { unfold markCompleted, isCompleted.
    destruct (includes (completed (progress tr)) imageId) eqn:Hc; simpl.
    - exact Hc.
    - apply includes_self. }
  split; [|exact Hin].
  unfold isCompleted in Hin.
  unfold markCompleted at 1. now rewrite Hin.
Qed.

(** *** Failure counting *)

Lemma markFailed_find_new (tr : t) (imageId error now : string) :
  List.find (hasId imageId) (failed (progress tr)) = None ->
  List.find (hasId imageId) (failed (progress (markFailed tr imageId error now)))
  = Some {| Failed.id := imageId; Failed.attempts := 1;
            Failed.lastError := error; Failed.lastAttempt := now |}.
Proof.
  intros Hnone. unfold markFailed. simpl. rewrite Hnone.
  rewrite find_snoc, Hnone. unfold hasId at 1. simpl.
  now rewrite String.eqb_refl.
Qed.

Lemma markFailed_find_existing (tr : t) (imageId error now : string)
    (record : Failed.t) :
  List.find (hasId imageId) (failed (progress tr)) = Some record ->
  List.find (hasId imageId) (failed (progress (markFailed tr imageId error now)))
  = Some (bump error now record).
Proof.
  intros Hsome. unfold markFailed. simpl. rewrite Hsome.
  rewrite find_updateFirst, Hsome; [reflexivity|].
  intros x Hx. exact Hx.
Qed.

Lemma markFailedMany_existing (imageId : string) (calls : list (string * string)) :
  forall (tr : t) (record : Failed.t),
    List.find (hasId imageId) (failed (progress tr)) = Some record ->
    exists record',
      List.find (hasId imageId)
                (failed (progress (markFailedMany tr imageId calls))) = Some record' /\
      Failed.attempts record' = Failed.attempts record + Z.of_nat (length calls).
Proof.
  induction calls as [|[error now] calls IH]; intros tr record Hfind.
  - exists record. split; [exact Hfind | simpl; lia].
  - simpl.
    destruct (IH (markFailed tr imageId error now) (bump error now record))
      as (record' & Hfind' & Hatt).
    { now apply markFailed_find_existing. }
    exists record'. split; [exact Hfind'|].
    rewrite Hatt. simpl. lia.
Qed.

Lemma getFailedAttempts_none (tr : t) (imageId : string) :
  List.find (hasId imageId) (failed (progress tr)) = None ->
  getFailedAttempts tr imageId = 0.
Proof. intros H. unfold getFailedAttempts. now rewrite H. Qed.

(** C8: starting without a failure record for [id], after any number of
    [markFailed(id, ...)] calls [getFailedAttempts(id)] is the number of
    calls.  The first call creates the record with [attempts = 1]; a
    call that finds a record adds one to [attempts] and overwrites
    [lastError] and [lastAttempt]; without a record the count is 0. *)
Theorem markFailed_counts_calls (tr : t) (imageId : string) :
  (List.find (hasId imageId) (failed (progress tr)) = None ->
   getFailedAttempts tr imageId = 0 /\
   (forall calls,
      getFailedAttempts (markFailedMany tr imageId calls) imageId
      = Z.of_nat (length calls)) /\
   (forall error now,
      List.find (hasId imageId)
                (failed (progress (markFailed tr imageId error now)))
      = Some {| Failed.id := imageId; Failed.attempts := 1;
                Failed.lastError := error; Failed.lastAttempt := now |})) /\
  (forall record error now,
     List.find (hasId imageId) (failed (progress tr)) = Some record ->
     List.find (hasId imageId)
               (failed (progress (markFailed tr imageId error now)))
     = Some {| Failed.id := Failed.id record;
               Failed.attempts := Failed.attempts record + 1;
               Failed.lastError := error; Failed.lastAttempt := now |}).
Proof.
  split.
  - intros Hnone. split; [now apply getFailedAttempts_none|]. split.
    + intros [|[error now] calls].
      * simpl. now apply getFailedAttempts_none.
      * simpl.
        destruct (markFailedMany_existing imageId calls
                    (markFailed tr imageId error now) _
                    (markFailed_find_new tr imageId error now Hnone))
          as (record' & Hfind & Hatt).
        unfold getFailedAttempts. rewrite Hfind, Hatt. simpl Failed.attempts.
        destruct (Z.eqb_spec (1 + Z.of_nat (length calls)) 0); lia.
    + intros error now. now apply markFailed_find_new.
  - intros record error now Hsome.
    now apply markFailed_find_existing.
Qed.

Lemma markFailed_counts_calls_witness :
  getFailedAttempts
    (markFailedMany (create None "2026-01-01T00:00:00.000Z") "b"
       [("503 server error", "t1"); ("Request timed out", "t2");
        ("503 server error", "t3")]) "b" = 3.
Proof.
  destruct (markFailed_counts_calls (create None "2026-01-01T00:00:00.000Z") "b")
    as [Hfresh _].
  destruct (Hfresh eq_refl) as (_ & Hcount & _).
  exact (Hcount [("503 server error", "t1"); ("Request timed out", "t2");
                 ("503 server error", "t3")]).
Defined.

(** *** Completion leaves the failure records alone *)

Lemma markCompleted_failed (tr : t) (imageId : string) :
  failed (progress (markCompleted tr imageId)) = failed (progress tr).
Proof. unfold markCompleted. now destruct (negb _). Qed.

Lemma markCompleted_completed (tr : t) (imageId : string) :
  imageId ∈ completed (progress (markCompleted tr imageId)).
Proof.
  apply includes_elem_of.
  unfold markCompleted.
  destruct (includes (completed (progress tr)) imageId) eqn:Hc; simpl.
  - exact Hc.
  - apply includes_self.
Qed.

Lemma markFailed_record (tr : t) (imageId error now : string) :
  exists record,
    List.find (hasId imageId) (failed (progress (markFailed tr imageId error now)))
    = Some record /\
    Failed.id record = imageId /\
    Failed.lastError record = error /\
    Failed.lastAttempt record = now.
Proof.
  destruct (List.find (hasId imageId) (failed (progress tr))) as [old|] eqn:Hfind.
  - exists (bump error now old). split; [now apply markFailed_find_existing|].
    apply find_some in Hfind. destruct Hfind as [_ Hid].
    apply String.eqb_eq in Hid. now repeat split.
  - eexists. split; [now apply markFailed_find_new|]. now repeat split.
Qed.

(** C10: [markCompleted(id)] touches only the completed list.  After a
    failure followed by a success the id is in [completed] while its
    failure record, with the last error and time, is still in [failed]
    and still counted by [getStats]; [getRemaining] leaves the request
    out, and it is the completed test that does so: with the attempts
    below the limit the request was remaining just before. *)
Theorem markCompleted_keeps_failure_record (tr : t) (imageId : string) :
  failed (progress (markCompleted tr imageId)) = failed (progress tr) /\
  startedAt (progress (markCompleted tr imageId)) = startedAt (progress tr) /\
  getFailedAttempts (markCompleted tr imageId) imageId
  = getFailedAttempts tr imageId /\
  Stats.failed (getStats (markCompleted tr imageId)) = Stats.failed (getStats tr) /\
  (forall error now,
     let tr' := markCompleted (markFailed tr imageId error now) imageId in
     imageId ∈ completed (progress tr') /\
     (exists record,
        List.find (hasId imageId) (failed (progress tr')) = Some record /\
        record ∈ failed (progress tr') /\
        Failed.id record = imageId /\
        Failed.lastError record = error /\
        Failed.lastAttempt record = now) /\
     1 <= Stats.failed (getStats tr') /\
     (forall R k r, r ∈ getRemaining tr' R k -> Image.id r <> imageId)) /\
  (forall R k r,
     r ∈ R -> Image.id r = imageId ->
     isCompleted tr imageId = false ->
     getFailedAttempts tr imageId < default 3 k ->
     r ∈ getRemaining tr R k /\
     (r ∉ getRemaining (markCompleted tr imageId) R k)).
Proof.
  assert (Hframe : forall t0, failed (progress (markCompleted t0 imageId))
                              = failed (progress t0))
    by (intros; apply markCompleted_failed).
  split; [apply Hframe|].
  split; [unfold markCompleted; now destruct (negb _)|].
  split; [unfold getFailedAttempts; now rewrite Hframe|].
  split; [unfold getStats; simpl; now rewrite Hframe|].
  split.
  - intros error now tr'. subst tr'.
    split; [apply markCompleted_completed|].
    destruct (markFailed_record tr imageId error now)
      as (record & Hfind & Hid & Herr & Hnow).
    split; [|split].
    + exists record. rewrite Hframe.
      split; [exact Hfind|]. split; [|now repeat split].
      apply list_elem_of_In. now apply find_some in Hfind.
    + unfold getStats; simpl Stats.failed. rewrite Hframe.
      apply find_some in Hfind. destruct Hfind as [Hin _].
      destruct (failed (progress (markFailed tr imageId error now)));
        [destruct Hin | simpl length; lia].
    + intros R k r Hr Heq. apply elem_of_getRemaining in Hr.
      destruct Hr as (_ & Hnot & _). apply Hnot. rewrite Heq.
      apply markCompleted_completed.
  - intros R k r Hin Hid Hc Hlt. split.
    + apply elem_of_getRemaining. split; [exact Hin|]. rewrite Hid.
      split; [|exact Hlt].
      intros Hel. apply includes_elem_of in Hel.
      unfold isCompleted in Hc. congruence.
    + intros Hr. apply elem_of_getRemaining in Hr.
      destruct Hr as (_ & Hnot & _). apply Hnot. rewrite Hid.
      apply markCompleted_completed.
Qed.

Lemma markCompleted_keeps_failure_record_witness :
  Sample.image "b"
    ∈ getRemaining (markFailed (create None "t0") "b" "503 server error" "t1")
                   [Sample.image "b"] None /\
  (Sample.image "b"
    ∉ getRemaining
        (markCompleted (markFailed (create None "t0") "b" "503 server error" "t1") "b")
        [Sample.image "b"] None).
Proof.
  set (tr := markFailed (create None "t0") "b" "503 server error" "t1").
  set (b := Sample.image "b").
  destruct (markCompleted_keeps_failure_record tr "b")
    as (_ & _ & _ & _ & _ & Honly).
  apply (Honly [b] None b).
  - apply list_elem_of_In. now left.
  - reflexivity.
  - reflexivity.
  - vm_compute. reflexivity.
Defined.

End TrackerFacts.

(** ** Chunking *)

Module ChunkFacts.
Import Generator.

Section Chunks.
Context {A : Type}.
Implicit Types (array : list A) (chunks : list (list A)).

(** Inside the loop the slice is a plain window of the array. *)
Lemma slice_window array (i size : Z) :
  0 <= i -> 0 < size ->
  slice array i (i + size) = take (Z.to_nat size) (drop (Z.to_nat i) array).
Proof.
  intros Hi Hsize. unfold slice.
  destruct (Z.ltb_spec i 0) as [?|_]; [lia|].
  destruct (Z.ltb_spec (i + size) 0) as [?|_]; [lia|].
  set (len := Z.of_nat (length array)).
  destruct (Z.le_gt_cases len i) as [Hout|Hin].
  - rewrite (Z.min_r i len), (Z.min_r (i + size) len) by lia.
    rewrite Z.sub_diag. simpl.
    rewrite (drop_ge array (Z.to_nat i)) by (subst len; lia).
    now rewrite take_nil.
  - rewrite (Z.min_l i len) by lia.
    destruct (Z.le_gt_cases (i + size) len) as [Hfull|Hshort].
    + rewrite (Z.min_l (i + size) len) by lia.
      now replace (i + size - i) with size by lia.
    + rewrite (Z.min_r (i + size) len) by lia.
      rewrite !take_ge; [reflexivity | |]; rewrite length_drop; subst len; lia.
Qed.

Lemma chunkLoop_partition (size : Z) array :
  0 < size ->
  forall fuel i chunks,
    0 <= i ->
    (length (drop (Z.to_nat i) array) < fuel)%nat ->
    exists rest,
      chunkLoop fuel array size i chunks = Some (chunks ++ rest) /\
      isPartition size (drop (Z.to_nat i) array) rest.
Proof.
  intros Hsize. induction fuel as [|fuel IH]; intros i chunks Hi Hfuel; [lia|].
  simpl. rewrite length_drop in Hfuel.
  destruct (Z.ltb_spec i (Z.of_nat (length array))) as [Hin|Hout].
  - destruct (IH (i + size) (chunks ++ [slice array i (i + size)]))
      as (rest & Hrun & Hcat & Hsizes & Hfull).
    { lia. }
    { rewrite length_drop. lia. }
    set (chunk := slice array i (i + size)) in *.
    assert (Hchunk : chunk = take (Z.to_nat size) (drop (Z.to_nat i) array))
      by (now apply slice_window).
    assert (Hnext : drop (Z.to_nat (i + size)) array
                    = drop (Z.to_nat size) (drop (Z.to_nat i) array)).
    { rewrite drop_drop. f_equal. lia. }
    assert (Hlen : length chunk
                   = Nat.min (Z.to_nat size) (length array - Z.to_nat i)).
    { rewrite Hchunk, length_take, length_drop. reflexivity. }
    exists (chunk :: rest). split; [|split; [|split]].
    + rewrite Hrun. now rewrite <- app_assoc.
    + simpl. rewrite Hcat, Hnext, Hchunk. apply take_drop.
    + intros c Hc. apply elem_of_cons in Hc. destruct Hc as [->|Hc].
      * rewrite Hlen. lia.
      * now apply Hsizes.
    + intros [|k] c Hlook Hmore.
      * simpl in Hlook. injection Hlook as <-.
        destruct rest as [|next rest']; [simpl in Hmore; lia|].
        assert (Hpos : 0 < Z.of_nat (length next))
          by (apply Hsizes; left).
        assert (Hrem : (0 < length (drop (Z.to_nat (i + size)) array))%nat).
        { rewrite <- Hcat. simpl. rewrite length_app. lia. }
        rewrite length_drop in Hrem. rewrite Hlen. lia.
      * simpl in Hlook, Hmore. apply (Hfull k c Hlook). lia.
  - exists []. rewrite app_nil_r. split; [reflexivity|].
    rewrite drop_ge by lia.
    split; [reflexivity|]. split.
    + intros c Hc. now apply elem_of_nil in Hc.
    + intros k c Hlook. now rewrite lookup_nil in Hlook.
Qed.

Lemma chunkArray_partition (size : Z) array (fuel : nat) :
  0 < size -> (length array < fuel)%nat ->
  exists chunks,
    chunkArray fuel array size = Some chunks /\ isPartition size array chunks.
Proof.
  intros Hsize Hfuel.
  destruct (chunkLoop_partition size array Hsize fuel 0 [])
    as (rest & Hrun & Hpart); [lia | rewrite length_drop; lia |].
  change (Z.to_nat 0) with 0%nat in Hpart. rewrite drop_0 in Hpart.
  exists rest. split; [exact Hrun | exact Hpart].
Qed.

(** With a size that is not positive the index never advances past the
    start of a non-empty array: the loop does not end. *)
Lemma chunkLoop_diverges (size : Z) array :
  size <= 0 -> array <> [] ->
  forall fuel i chunks, i <= 0 -> chunkLoop fuel array size i chunks = None.
Proof.
  intros Hsize Hne. induction fuel as [|fuel IH]; intros i chunks Hi;
    [reflexivity|].
  simpl. destruct (Z.ltb_spec i (Z.of_nat (length array))) as [_|Hout].
  - apply IH. lia.
  - destruct array; [congruence | simpl in Hout; lia].
Qed.

Lemma chunkLoop_fuel_mono (size : Z) array :
  forall fuel fuel' i chunks result,
    chunkLoop fuel array size i chunks = Some result ->
    (fuel <= fuel')%nat ->
    chunkLoop fuel' array size i chunks = Some result.
Proof.
  induction fuel as [|fuel IH]; intros fuel' i chunks result Hrun Hle;
    [discriminate|].
  destruct fuel' as [|fuel']; [lia|]. simpl in *.
  destruct (i <? Z.of_nat (length array)); [|exact Hrun].
  apply (IH fuel'); [exact Hrun | lia].
Qed.

(** C7: for a positive size [chunkArray] returns (given fuel beyond the
    length of the array, and then whatever the fuel) contiguous groups
    of at most [size] elements, every group but possibly the last of
    exactly [size], whose concatenation in order is the array. *)
Theorem chunkArray_contiguous_groups (size : Z) array :
  0 < size ->
  exists chunks,
    (forall fuel, (length array < fuel)%nat ->
                  chunkArray fuel array size = Some chunks) /\
    concat chunks = array /\
    (forall chunk, chunk ∈ chunks -> 0 < Z.of_nat (length chunk) <= size) /\
    (forall k chunk,
       chunks !! k = Some chunk -> (S k < length chunks)%nat ->
       Z.of_nat (length chunk) = size).
Proof.
  intros Hsize.
  destruct (chunkArray_partition size array (S (length array)) Hsize)
    as (chunks & Hrun & Hcat & Hsizes & Hfull); [lia|].
  exists chunks.
  split; [| split; [exact Hcat | split; [exact Hsizes | exact Hfull]]].
  intros fuel Hfuel.
  apply (chunkLoop_fuel_mono size array (S (length array))); [exact Hrun | lia].
Qed.

End Chunks.

Lemma chunkArray_contiguous_groups_witness :
  exists chunks,
    chunkArray 6 [1; 2; 3; 4; 5] 2 = Some chunks /\
    concat chunks = [1; 2; 3; 4; 5].
Proof.
  destruct (chunkArray_contiguous_groups 2 [1; 2; 3; 4; 5])
    as (chunks & Hrun & Hcat & _); [lia|].
  exists chunks. split; [apply Hrun; simpl; lia | exact Hcat].
Defined.

End ChunkFacts.

(** ** The single-request executor *)

Module ExecutorFacts.
Import Errors Generator.

Section Executor.

Variable outputDir : string.
Variable buildPrompt : Image.t -> string.
Variable getMimeType : string -> string.
Variable readReference : string -> option string.
Variable generateFilename : Image.t -> string.
Variable pathJoin : string -> string -> string.
Variable remote : Image.t -> list ContentPart -> nat -> RemoteOutcome.

Local Abbreviation attemptOnce := (attemptOnce outputDir generateFilename pathJoin remote).
Local Abbreviation attemptLoop := (attemptLoop outputDir generateFilename pathJoin remote).
Local Abbreviation processResponse := (processResponse outputDir generateFilename pathJoin).
Local Abbreviation contentParts := (contentParts buildPrompt getMimeType readReference).
Local Abbreviation generateImage :=
  (generateImage outputDir buildPrompt getMimeType readReference
                 generateFilename pathJoin remote).

Variable image : Image.t.
Variable onProgress : option Callback.

Lemma attemptLoop_unfold contents fuel attempt lastError :
  attemptLoop (S fuel) image contents onProgress attempt lastError
  = if (attempt <=? length RETRY_DELAYS)%nat then
      match attemptOnce image contents attempt with
      | (events, Returned result) =>
          (beforeRetry onProgress attempt ++ events, Some (Returned result))
      | (events, Threw err) =>
          if isRetryable err && (attempt <? length RETRY_DELAYS)%nat then
            let (later, outcome) :=
              attemptLoop fuel image contents onProgress (S attempt)
                (Some (parseApiError err (Some (Image.id image)))) in
            (beforeRetry onProgress attempt ++ events ++ later, outcome)
          else (beforeRetry onProgress attempt ++ events,
                Some (Threw (Some (parseApiError err (Some (Image.id image))))))
      end
    else ([], Some (Threw lastError)).
Proof. reflexivity. Qed.

(** One turn of the loop, by the way the attempt ends. *)
Lemma attemptLoop_returns contents fuel attempt lastError events result :
  (attempt <= length RETRY_DELAYS)%nat ->
  attemptOnce image contents attempt = (events, Returned result) ->
  attemptLoop (S fuel) image contents onProgress attempt lastError
  = (beforeRetry onProgress attempt ++ events, Some (Returned result)).
Proof.
  intros Hle Hrun. rewrite attemptLoop_unfold.
  destruct (Nat.leb_spec attempt (length RETRY_DELAYS)); [|lia].
  now rewrite Hrun.
Qed.

Lemma attemptLoop_retries contents fuel attempt lastError events err :
  (attempt < length RETRY_DELAYS)%nat ->
  attemptOnce image contents attempt = (events, Threw err) ->
  isRetryable err = true ->
  attemptLoop (S fuel) image contents onProgress attempt lastError
  = (beforeRetry onProgress attempt ++ events ++
       fst (attemptLoop fuel image contents onProgress (S attempt)
              (Some (parseApiError err (Some (Image.id image))))),
     snd (attemptLoop fuel image contents onProgress (S attempt)
            (Some (parseApiError err (Some (Image.id image)))))).
Proof.
  intros Hlt Hrun Hretry. rewrite attemptLoop_unfold.
  destruct (Nat.leb_spec attempt (length RETRY_DELAYS)); [|lia].
  rewrite Hrun, Hretry.
  destruct (Nat.ltb_spec attempt (length RETRY_DELAYS)); [|lia].
  simpl andb. cbv iota.
  now destruct (attemptLoop fuel image contents onProgress (S attempt) _).
Qed.

Lemma attemptLoop_gives_up contents fuel attempt lastError events err :
  (attempt <= length RETRY_DELAYS)%nat ->
  attemptOnce image contents attempt = (events, Threw err) ->
  isRetryable err = false \/ attempt = length RETRY_DELAYS ->
  attemptLoop (S fuel) image contents onProgress attempt lastError
  = (beforeRetry onProgress attempt ++ events,
     Some (Threw (Some (parseApiError err (Some (Image.id image)))))).
Proof.
  intros Hle Hrun Hstop. rewrite attemptLoop_unfold.
  destruct (Nat.leb_spec attempt (length RETRY_DELAYS)); [|lia].
  rewrite Hrun.
  destruct Hstop as [-> | ->]; [reflexivity|].
  rewrite Nat.ltb_irrefl, andb_false_r. reflexivity.
Qed.

(** The loop ends, and what it throws is never [undefined]. *)
Lemma attemptLoop_settles contents fuel :
  forall attempt lastError,
    (attempt <= length RETRY_DELAYS)%nat ->
    (length RETRY_DELAYS - attempt < fuel)%nat ->
    (exists result,
       snd (attemptLoop fuel image contents onProgress attempt lastError)
       = Some (Returned result)) \/
    (exists e,
       snd (attemptLoop fuel image contents onProgress attempt lastError)
       = Some (Threw (Some e))).
Proof.
  induction fuel as [|fuel IH]; intros attempt lastError Hle Hfuel; [lia|].
  destruct (attemptOnce image contents attempt) as [events [result|err]] eqn:Hrun.
  - left. exists result. now rewrite (attemptLoop_returns _ _ _ _ _ _ Hle Hrun).
  - destruct (isRetryable err) eqn:Hretry.
    + destruct (Nat.eq_dec attempt (length RETRY_DELAYS)) as [Heq|Hne].
      * right. eexists.
        now rewrite (attemptLoop_gives_up _ _ _ _ _ _ Hle Hrun (or_intror Heq)).
      * assert (Hlt : (attempt < length RETRY_DELAYS)%nat) by lia.
        rewrite (attemptLoop_retries _ _ _ _ _ _ Hlt Hrun Hretry).
        simpl snd. apply IH; lia.
    + right. eexists.
      now rewrite (attemptLoop_gives_up _ _ _ _ _ _ Hle Hrun (or_introl Hretry)).
Qed.

Lemma attemptOnce_rejected contents attempt err :
  remote image contents attempt = Rejects err ->
  attemptOnce image contents attempt = ([GenerateContent attempt], Threw err).
Proof. intros H. unfold Generator.attemptOnce. now rewrite H. Qed.

Lemma attemptOnce_calls contents attempt :
  exists events, fst (attemptOnce image contents attempt)
                 = GenerateContent attempt :: events.
Proof.
  unfold Generator.attemptOnce.
  destruct (remote image contents attempt) as [err|response]; [now exists []|].
  destruct (processResponse response image) as [events [result|e]];
    now exists events.
Qed.

(** Every turn of the loop that is entered makes its remote call. *)
Lemma attemptLoop_calls contents fuel attempt lastError :
  (attempt <= length RETRY_DELAYS)%nat ->
  exists later,
    fst (attemptLoop (S fuel) image contents onProgress attempt lastError)
    = beforeRetry onProgress attempt ++ GenerateContent attempt :: later.
Proof.
  intros Hle. rewrite attemptLoop_unfold.
  destruct (Nat.leb_spec attempt (length RETRY_DELAYS)); [|lia].
  destruct (attemptOnce_calls contents attempt) as (events & Hev).
  destruct (attemptOnce image contents attempt) as [events' [result|err]];
    simpl in Hev; subst events'.
  - now exists events.
  - destruct (isRetryable err && (attempt <? length RETRY_DELAYS)%nat).
    + destruct (attemptLoop fuel image contents onProgress (S attempt) _)
        as [later outcome].
      exists (events ++ later). reflexivity.
    + now exists events.
Qed.

Lemma callsOf_app (t1 t2 : list Event) :
  callsOf (t1 ++ t2) = callsOf t1 ++ callsOf t2.
Proof. apply omap_app. Qed.

Lemma sleepsOf_app (t1 t2 : list Event) :
  sleepsOf (t1 ++ t2) = sleepsOf t1 ++ sleepsOf t2.
Proof. apply omap_app. Qed.


Lemma callsOf_invoke msg : callsOf (invoke onProgress msg) = [].
Proof.
  unfold invoke, callsOf.
  induction (heard onProgress msg) as [|m l IH]; [reflexivity | exact IH].
Qed.

Lemma sleepsOf_invoke msg : sleepsOf (invoke onProgress msg) = [].
Proof.
  unfold invoke, sleepsOf.
  induction (heard onProgress msg) as [|m l IH]; [reflexivity | exact IH].
Qed.




(** *** Which errors are retried *)






(** *** What [generateImage] hands back *)

Lemma processResponse_imageId response events result :
  processResponse response image = (events, Returned result) ->
  imageId result = Image.id image.
Proof.
  unfold Generator.processResponse.
  destruct response as [parts|]; [|discriminate].
  destruct (List.find _ parts) as [part|].
  - intros H. injection H as _ <-. reflexivity.
  - destruct (List.find _ parts) as [part|]; [|discriminate].
    destruct (_ || _); discriminate.
Qed.

Lemma attemptOnce_imageId contents attempt events result :
  attemptOnce image contents attempt = (events, Returned result) ->
  imageId result = Image.id image.
Proof.
  unfold Generator.attemptOnce.
  destruct (remote image contents attempt) as [err|response]; [discriminate|].
  destruct (processResponse response image) as [events' [result'|e]] eqn:Hproc;
    [|discriminate].
  intros H. injection H as _ <-.
  exact (processResponse_imageId _ _ _ Hproc).
Qed.

Lemma attemptLoop_imageId contents fuel :
  forall attempt lastError result,
    snd (attemptLoop fuel image contents onProgress attempt lastError)
    = Some (Returned result) ->
    imageId result = Image.id image.
Proof.
  induction fuel as [|fuel IH]; intros attempt lastError result; [discriminate|].
  rewrite attemptLoop_unfold.
  destruct (attempt <=? length RETRY_DELAYS)%nat; [|discriminate].
  destruct (attemptOnce image contents attempt) as [events [result'|err]] eqn:Hrun.
  - simpl. intros H. injection H as <-.
    exact (attemptOnce_imageId _ _ _ _ Hrun).
  - destruct (isRetryable err && (attempt <? length RETRY_DELAYS)%nat);
      [|discriminate].
    destruct (attemptLoop fuel image contents onProgress (S attempt) _)
      as [later outcome] eqn:Hrest.
    simpl. intros ->.
    apply (IH (S attempt) (Some (parseApiError err (Some (Image.id image))))).
    now rewrite Hrest.
Qed.

(** [generateImage] always ends: with a result filed under the id of
    the request, or by throwing a classified error. *)
Lemma generateImage_settles referenceImages :
  (exists result,
     snd (generateImage image referenceImages onProgress) = Some (Returned result) /\
     imageId result = Image.id image) \/
  (exists e,
     snd (generateImage image referenceImages onProgress) = Some (Threw (Some e))).
Proof.
  unfold Generator.generateImage.
  destruct (attemptLoop_settles (contentParts image referenceImages)
              (S (S (length RETRY_DELAYS))) 0 None) as [(result & Hr)|(e & He)];
    [lia | lia | |].
  - left. exists result. split; [exact Hr|].
    exact (attemptLoop_imageId _ _ _ _ _ Hr).
  - right. now exists e.
Qed.

(** A first answer that holds an image part ends the request at once. *)
Lemma generateImage_first_success referenceImages parts part :
  remote image (contentParts image referenceImages) 0%nat = Responds (Some parts) ->
  List.find (fun p => bool_decide (is_Some (inlineData p))) parts = Some part ->
  exists result,
    snd (generateImage image referenceImages onProgress) = Some (Returned result).
Proof.
  intros Hremote Hfind.
  assert (Hrun : exists events result,
             attemptOnce image (contentParts image referenceImages) 0
             = (events, Returned result)).
  { unfold Generator.attemptOnce, Generator.processResponse.
    rewrite Hremote, Hfind. eauto. }
  destruct Hrun as (events & result & Hrun).
  exists result. unfold Generator.generateImage.
  now rewrite (attemptLoop_returns _ _ 0 None _ _ ltac:(lia) Hrun).
Qed.

End Executor.




End ExecutorFacts.

(** ** The batch orchestrator *)

Module BatchFacts.
Import Errors Generator.

(** *** What the collected outcomes add to the summary *)

Lemma collect_spec (chunkResults : list ChunkResult) :
  forall results,
    collect results chunkResults
    = {| successful := successful results ++ successesOf chunkResults;
         failed := failed results ++ failuresOf chunkResults;
         skipped := skipped results |}.
Proof.
  unfold collect.
  induction chunkResults as [|res rest IH]; intros results; simpl.
  - rewrite !app_nil_r. now destruct results.
  - rewrite IH. destruct res as [result|imageId error]; simpl;
      now rewrite <- !app_assoc.
Qed.

Lemma successesOf_app (l1 l2 : list ChunkResult) :
  successesOf (l1 ++ l2) = successesOf l1 ++ successesOf l2.
Proof. apply omap_app. Qed.

Lemma failuresOf_app (l1 l2 : list ChunkResult) :
  failuresOf (l1 ++ l2) = failuresOf l1 ++ failuresOf l2.
Proof. apply omap_app. Qed.

(** Every outcome is a success or a failure, never both. *)
Lemma outcomes_split (l : list ChunkResult) :
  (length (successesOf l) + length (failuresOf l) = length l)%nat /\
  Permutation (map outcomeId l)
              (map imageId (successesOf l) ++ map failedImageId (failuresOf l)).
Proof.
  induction l as [|res l [IHlen IHperm]]; [split; [reflexivity | constructor]|].
  destruct res as [result|imageId error].
  - change (successesOf (Success result :: l)) with (result :: successesOf l).
    change (failuresOf (Success result :: l)) with (failuresOf l).
    split; [simpl; lia|]. simpl. now constructor.
  - change (successesOf (Failure imageId error :: l)) with (successesOf l).
    change (failuresOf (Failure imageId error :: l))
      with ({| failedImageId := imageId; error := error |} :: failuresOf l).
    split; [simpl; lia|]. simpl map.
    apply Permutation_cons_app. exact IHperm.
Qed.

(** *** The tracker after the outcomes are recorded *)

Section Recording.
Variable now : string.

Local Abbreviation recordOutcome := (recordOutcome now).

Local Abbreviation hasRecord := Tracker.hasRecord.







End Recording.

(** *** The run *)

Section Batch.

Variable outputDir : string.
Variable buildPrompt : Image.t -> string.
Variable getMimeType : string -> string.
Variable readReference : string -> option string.
Variable generateFilename : Image.t -> string.
Variable pathJoin : string -> string -> string.
Variable remote : Image.t -> list ContentPart -> nat -> RemoteOutcome.
Variable now : string.

Local Abbreviation generateImage :=
  (generateImage outputDir buildPrompt getMimeType readReference
                 generateFilename pathJoin remote).
Local Abbreviation settle :=
  (settle outputDir buildPrompt getMimeType readReference
          generateFilename pathJoin remote).
Local Abbreviation runOne :=
  (runOne outputDir buildPrompt getMimeType readReference
          generateFilename pathJoin remote now).
Local Abbreviation runChunk :=
  (runChunk outputDir buildPrompt getMimeType readReference
            generateFilename pathJoin remote now).
Local Abbreviation runChunks :=
  (runChunks outputDir buildPrompt getMimeType readReference
             generateFilename pathJoin remote now).
Local Abbreviation generateBatch :=
  (generateBatch outputDir buildPrompt getMimeType readReference
                 generateFilename pathJoin remote now).
Local Abbreviation recordOutcome := (recordOutcome now).

Variable imageRefMap : gmap string (list string).
Variable onProgress : option Callback.

(** [settles images results]: the outcomes of the requests, one each,
    in order. *)
Local Abbreviation settles :=
  (Forall2 (fun image res => settle imageRefMap onProgress image = Some res)).

Lemma settle_total image :
  exists res, settle imageRefMap onProgress image = Some res /\
              outcomeId res = Image.id image.
Proof.
  unfold Generator.settle.
  destruct (ExecutorFacts.generateImage_settles
              outputDir buildPrompt getMimeType readReference generateFilename
              pathJoin remote image (Some (prefixed onProgress image))
              (referencesFor imageRefMap image))
    as [(result & -> & Hid)|(e & ->)].
  - exists (Success result). now split.
  - exists (Failure (Image.id image) (message e)). now split.
Qed.

Lemma runOne_spec tr image res :
  settle imageRefMap onProgress image = Some res ->
  runOne tr imageRefMap onProgress image
  = Some (Returned (res, recordOutcome tr res)).
Proof.
  unfold Generator.settle, Generator.runOne.
  destruct (ExecutorFacts.generateImage_settles
              outputDir buildPrompt getMimeType readReference generateFilename
              pathJoin remote image (Some (prefixed onProgress image))
              (referencesFor imageRefMap image))
    as [(result & -> & Hid)|(e & ->)]; intros H; injection H as <-.
  - simpl. now rewrite Hid.
  - reflexivity.
Qed.

Lemma runChunk_spec chunk :
  forall tr,
  exists results,
    settles chunk results /\
    runChunk tr imageRefMap onProgress chunk
    = Some (Returned (results, fold_left recordOutcome results tr)).
Proof.
  induction chunk as [|image rest IH]; intros tr.
  - exists []. split; [constructor | reflexivity].
  - destruct (settle_total image) as (res & Hres & _).
    destruct (IH (recordOutcome tr res)) as (more & Hmore & Hrun).
    exists (res :: more). split; [now constructor|].
    simpl. rewrite (runOne_spec tr image res Hres), Hrun. reflexivity.
Qed.

Lemma runChunks_spec chunks :
  forall tr results,
  exists outcomes,
    settles (concat chunks) outcomes /\
    runChunks tr imageRefMap onProgress chunks results
    = Some (Returned (collect results outcomes,
                      fold_left recordOutcome outcomes tr)).
Proof.
  induction chunks as [|chunk rest IH]; intros tr results.
  - exists []. split; [constructor|]. reflexivity.
  - destruct (runChunk_spec chunk tr) as (first & Hfirst & Hrun).
    destruct (IH (fold_left recordOutcome first tr) (collect results first))
      as (later & Hlater & Hrest).
    exists (first ++ later). split.
    + simpl. now apply Forall2_app.
    + simpl. rewrite Hrun, Hrest. f_equal. f_equal. f_equal.
      * rewrite !collect_spec. simpl.
        rewrite successesOf_app, failuresOf_app, <- !app_assoc. reflexivity.
      * now rewrite fold_left_app.
Qed.

End Batch.

Lemma getRemaining_fresh (tr : Tracker.t) (images : list Image.t) :
  Tracker.completed (Tracker.progress tr) = [] ->
  Tracker.failed (Tracker.progress tr) = [] ->
  Tracker.getRemaining tr images None = images.
Proof.
  intros Hc Hf. unfold Tracker.getRemaining.
  induction images as [|image images IH]; [reflexivity|].
  cbn [List.filter]. rewrite IH.
  unfold Tracker.isCompleted, Tracker.getFailedAttempts.
  rewrite Hc, Hf. reflexivity.
Qed.

Section Summary.

Variable outputDir : string.
Variable buildPrompt : Image.t -> string.
Variable getMimeType : string -> string.
Variable readReference : string -> option string.
Variable generateFilename : Image.t -> string.
Variable pathJoin : string -> string -> string.
Variable remote : Image.t -> list ContentPart -> nat -> RemoteOutcome.
Variable now : string.

Local Abbreviation generateImage :=
  (generateImage outputDir buildPrompt getMimeType readReference
                 generateFilename pathJoin remote).
Local Abbreviation settle :=
  (settle outputDir buildPrompt getMimeType readReference
          generateFilename pathJoin remote).
Local Abbreviation generateBatch :=
  (generateBatch outputDir buildPrompt getMimeType readReference
                 generateFilename pathJoin remote now).
Local Abbreviation recordOutcome := (recordOutcome now).

(** The tracker with which the run starts, the requests it takes up and
    the reference images collected for them. *)
Local Abbreviation started tr options :=
  (if freshStart options then Tracker.clear tr now else tr).
Local Abbreviation remainingOf tr images options :=
  (Tracker.getRemaining (started tr options) images None).
Local Abbreviation refsOf tr images options :=
  (collectReferences (getReferenceImages options) (remainingOf tr images options)).

(** How the executor ends for a request of the run. *)
Local Abbreviation executed tr images options image :=
  (snd (generateImage image (referencesFor (refsOf tr images options) image)
                      (Some (prefixed (onProgress options) image)))).

Lemma settle_outcomeId imageRefMap onProgress image res :
  settle imageRefMap onProgress image = Some res ->
  outcomeId res = Image.id image.
Proof.
  intros H.
  destruct (settle_total outputDir buildPrompt getMimeType readReference
              generateFilename pathJoin remote imageRefMap onProgress image)
    as (res' & Hres' & Hid).
  congruence.
Qed.

Lemma settles_ids imageRefMap onProgress images outcomes :
  Forall2 (fun image res => settle imageRefMap onProgress image = Some res)
          images outcomes ->
  map outcomeId outcomes = map Image.id images.
Proof.
  induction 1 as [|image res images outcomes Hres _ IH]; [reflexivity|].
  simpl. now rewrite IH, (settle_outcomeId _ _ _ _ Hres).
Qed.

(** The run, in one equation: with a positive concurrency and fuel
    beyond the number of requests, [generateBatch] returns the summary
    of the outcomes of the remaining requests and the tracker in which
    they are recorded. *)
Lemma generateBatch_spec tr images options fuel :
  0 < default 5 (concurrency options) ->
  (length images < fuel)%nat ->
  exists outcomes,
    Forall2 (fun image res =>
               settle (refsOf tr images options) (onProgress options) image
               = Some res)
            (remainingOf tr images options) outcomes /\
    generateBatch fuel tr images options
    = Some (Returned
              ({| successful := successesOf outcomes;
                  failed := failuresOf outcomes;
                  skipped := Z.of_nat (length images)
                             - Z.of_nat (length (remainingOf tr images options)) |},
               fold_left recordOutcome outcomes (started tr options))).
Proof.
  intros Hsize Hfuel. unfold Generator.generateBatch.
  set (tr1 := started tr options).
  set (remaining := Tracker.getRemaining tr1 images None).
  assert (Hlen : (length remaining < fuel)%nat).
  { subst remaining. unfold Tracker.getRemaining.
    pose proof (filter_length_le
      (fun img => if Tracker.isCompleted tr1 (Image.id img) then false
                  else if Tracker.getFailedAttempts tr1 (Image.id img) >=? default 3 None
                       then false else true) images).
    lia. }
  destruct (ChunkFacts.chunkArray_partition _ remaining fuel Hsize Hlen)
    as (chunks & -> & Hcat & _).
  destruct (runChunks_spec outputDir buildPrompt getMimeType readReference
              generateFilename pathJoin remote now
              (collectReferences (getReferenceImages options) remaining)
              (onProgress options) chunks tr1
              {| successful := []; failed := [];
                 skipped := Z.of_nat (length images) - Z.of_nat (length remaining) |})
    as (outcomes & Hout & ->).
  exists outcomes. rewrite Hcat in Hout. split; [exact Hout|].
  now rewrite collect_spec.
Qed.


Lemma settle_success imageRefMap onProgress image result :
  snd (generateImage image (referencesFor imageRefMap image)
         (Some (prefixed onProgress image))) = Some (Returned result) ->
  settle imageRefMap onProgress image = Some (Success result).
Proof. intros H. unfold Generator.settle. now rewrite H. Qed.



Lemma settles_all_succeed imageRefMap onProgress images outcomes :
  Forall2 (fun image res => settle imageRefMap onProgress image = Some res)
          images outcomes ->
  (forall image, image ∈ images ->
     exists result, snd (generateImage image (referencesFor imageRefMap image)
                           (Some (prefixed onProgress image)))
                    = Some (Returned result)) ->
  length (successesOf outcomes) = length images /\ failuresOf outcomes = [].
Proof.
  induction 1 as [|image res images outcomes Hres _ IH]; intros Hok;
    [split; reflexivity|].
  destruct (Hok image) as (result & Hr); [left|].
  rewrite (settle_success _ _ _ _ Hr) in Hres. injection Hres as <-.
  destruct IH as [IHs IHf].
  { intros other Hin. apply Hok. now right. }
  split.
  - change (successesOf (Success result :: outcomes))
      with (result :: successesOf outcomes).
    simpl. now rewrite IHs.
  - exact IHf.
Qed.


(** C6: the summary of a run has [skipped = images.length -
    remaining.length], with [remaining] as [getRemaining] gives it at
    the start, and every remaining request is in exactly one of the two
    lists: the ids of the successes and of the failures together are
    the ids of the remaining requests, so the two lengths add up to
    [remaining.length].  With no prior progress, three requests "a",
    "b", "c" and a service that always answers with an image, the
    summary has three successes, no failure and [skipped = 0]. *)
Theorem generateBatch_summary_counts :
  (forall tr images options fuel,
     0 < default 5 (concurrency options) ->
     (length images < fuel)%nat ->
     exists results tr',
       generateBatch fuel tr images options = Some (Returned (results, tr')) /\
       skipped results
       = Z.of_nat (length images)
         - Z.of_nat (length (remainingOf tr images options)) /\
       (length (successful results) + length (failed results)
        = length (remainingOf tr images options))%nat /\
       Permutation (map Image.id (remainingOf tr images options))
                   (map imageId (successful results)
                    ++ map failedImageId (failed results))) /\
  ((forall image contents n,
      exists parts part,
        remote image contents n = Responds (Some parts) /\
        List.find (fun p => bool_decide (is_Some (inlineData p))) parts = Some part) ->
   forall images startedAt options fuel,
     map Image.id images = ["a"; "b"; "c"] ->
     0 < default 5 (concurrency options) ->
     (3 < fuel)%nat ->
     exists results tr',
       generateBatch fuel (Tracker.create None startedAt) images options
       = Some (Returned (results, tr')) /\
       length (successful results) = 3%nat /\
       failed results = [] /\
       skipped results = 0).
Proof.
  split.
  - intros tr images options fuel Hsize Hfuel.
    destruct (generateBatch_spec tr images options fuel Hsize Hfuel)
      as (outcomes & Hout & Hrun).
    eexists. eexists. split; [exact Hrun|]. cbn [successful failed skipped].
    split; [reflexivity|].
    destruct (outcomes_split outcomes) as [Hlen Hperm].
    rewrite (Forall2_length _ _ _ Hout), <- (settles_ids _ _ _ _ Hout).
    split; [exact Hlen | exact Hperm].
  - intros Hok images startedAt options fuel Hids Hsize Hfuel.
    assert (Hthree : length images = 3%nat).
    { rewrite <- (length_map Image.id), Hids. reflexivity. }
    destruct (generateBatch_spec (Tracker.create None startedAt) images options
                fuel Hsize) as (outcomes & Hout & Hrun); [lia|].
    assert (Hrem : remainingOf (Tracker.create None startedAt) images options
                   = images).
    { apply getRemaining_fresh; now destruct (freshStart options). }
    rewrite Hrem in Hout, Hrun.
    eexists. eexists. split; [exact Hrun|]. cbn [successful failed skipped].
    destruct (settles_all_succeed _ _ _ _ Hout) as [Hs Hf].
    { intros image _.
      destruct (Hok image
                  (contentParts buildPrompt getMimeType readReference image
                     (referencesFor (refsOf (Tracker.create None startedAt)
                                            images options) image)) 0%nat)
        as (parts & part & Hremote & Hfind).
      rewrite Hrem in Hremote.
      exact (ExecutorFacts.generateImage_first_success
               outputDir buildPrompt getMimeType readReference generateFilename
               pathJoin remote image _ _ parts part Hremote Hfind). }
    rewrite Hs, Hf, Hthree. split; [reflexivity|]. split; [reflexivity | lia].
Qed.

End Summary.


Lemma generateBatch_summary_counts_witness :
  exists results tr',
    Sample.generateBatch Sample.succeeding 4 (Tracker.create None "t0")
      [Sample.image "a"; Sample.image "b"; Sample.image "c"] Sample.defaults
    = Some (Returned (results, tr')) /\
    length (successful results) = 3%nat /\
    failed results = [] /\
    skipped results = 0.
Proof.
  destruct (generateBatch_summary_counts
              Sample.outputDir Sample.buildPrompt Sample.getMimeType
              Sample.readReference Sample.generateFilename Sample.pathJoin
              Sample.succeeding Sample.now) as [_ Hscenario].
  unfold Sample.generateBatch. apply Hscenario.
  - intros image contents n. eexists. eexists. split; reflexivity.
  - reflexivity.
  - simpl. lia.
  - lia.
Defined.

End BatchFacts.

(** * Further properties of the code *)

(** ** The tracker: counting, invariants, durability *)

Module TrackerMore.
Import Tracker TrackerOps.

Lemma or_zero (x : Z) : (if x =? 0 then 0 else x) = x.
Proof. destruct (Z.eqb_spec x 0); congruence. Qed.

Lemma find_hasId_other (imageId other : string) (l : list Failed.t)
    (g : Failed.t -> Failed.t) :
  other <> imageId ->
  (forall f, Failed.id (g f) = Failed.id f) ->
  List.find (hasId other) (updateFirst (hasId imageId) g l)
  = List.find (hasId other) l.
Proof.
  intros Hne Hg. induction l as [|f l IH]; [reflexivity|].
  simpl. destruct (hasId imageId f) eqn:Hid; simpl.
  - unfold hasId at 1 3. rewrite Hg.
    apply String.eqb_eq in Hid.
    destruct (String.eqb_spec (Failed.id f) other) as [Heq|_]; [congruence|].
    reflexivity.
  - destruct (hasId other f); [reflexivity | exact IH].
Qed.

Lemma getFailedAttempts_markFailed_same (tr : t) (imageId error now : string) :
  getFailedAttempts (markFailed tr imageId error now) imageId
  = getFailedAttempts tr imageId + 1.
Proof.
  unfold getFailedAttempts at 1 2.
  destruct (List.find (hasId imageId) (failed (progress tr))) as [record|] eqn:Hfind.
  - rewrite (TrackerFacts.markFailed_find_existing _ _ _ _ _ Hfind).
    rewrite !or_zero. reflexivity.
  - rewrite (TrackerFacts.markFailed_find_new _ _ _ _ Hfind). reflexivity.
Qed.

Lemma getFailedAttempts_markFailed_other (tr : t) (imageId error now other : string) :
  other <> imageId ->
  getFailedAttempts (markFailed tr imageId error now) other
  = getFailedAttempts tr other.
Proof.
  intros Hne. unfold getFailedAttempts, markFailed. simpl.
  destruct (List.find (hasId imageId) (failed (progress tr))).
  - now rewrite find_hasId_other.
  - rewrite TrackerFacts.find_snoc.
    destruct (List.find (hasId other) (failed (progress tr))); [reflexivity|].
    unfold hasId at 1. simpl.
    destruct (String.eqb_spec imageId other); [congruence | reflexivity].
Qed.

Lemma getFailedAttempts_markCompleted (tr : t) (imageId other : string) :
  getFailedAttempts (markCompleted tr imageId) other = getFailedAttempts tr other.
Proof.
  unfold getFailedAttempts. now rewrite TrackerFacts.markCompleted_failed.
Qed.

Lemma completed_markFailed (tr : t) (imageId error now : string) :
  completed (progress (markFailed tr imageId error now)) = completed (progress tr).
Proof. reflexivity. Qed.

Lemma isCompleted_markCompleted (tr : t) (imageId other : string) :
  isCompleted (markCompleted tr imageId) other
  = isCompleted tr other || String.eqb other imageId.
Proof.
  unfold isCompleted, markCompleted.
  destruct (includes (completed (progress tr)) imageId) eqn:Hc; simpl.
  - destruct (String.eqb_spec other imageId) as [->|_].
    + now rewrite Hc.
    + now rewrite orb_false_r.
  - rewrite TrackerFacts.includes_app. unfold includes at 2. simpl.
    now rewrite orb_false_r.
Qed.



(** X2: [getStats] counts records, not attempts: a failure of an id that
    already has a record leaves [failed] as it is, a first failure adds
    one; [completed] grows by one exactly when the id was not completed
    yet. *)
Theorem getStats_counts_ids (tr : t) (imageId error now : string) :
  Stats.failed (getStats (markFailed tr imageId error now))
  = Stats.failed (getStats tr) + (if hasRecord tr imageId then 0 else 1) /\
  Stats.completed (getStats (markFailed tr imageId error now))
  = Stats.completed (getStats tr) /\
  Stats.completed (getStats (markCompleted tr imageId))
  = Stats.completed (getStats tr) + (if isCompleted tr imageId then 0 else 1) /\
  Stats.failed (getStats (markCompleted tr imageId)) = Stats.failed (getStats tr).
Proof.
  split; [|split; [reflexivity|split]].
  - unfold getStats, markFailed, hasRecord. simpl.
    destruct (List.find (hasId imageId) (failed (progress tr))) as [r|] eqn:Hfind.
    + rewrite TrackerFacts.length_updateFirst.
      assert (Hex : existsb (hasId imageId) (failed (progress tr)) = true).
      { apply existsb_exists. exists r. now apply find_some in Hfind. }
      rewrite Hex. lia.
    + assert (Hex : existsb (hasId imageId) (failed (progress tr)) = false).
      { apply not_true_is_false. intros Hex. apply existsb_exists in Hex.
        destruct Hex as (x & Hin & Hx).
        now rewrite (find_none _ _ Hfind x Hin) in Hx. }
      rewrite Hex, length_app. simpl. lia.
  - unfold getStats, markCompleted, isCompleted.
    destruct (includes (completed (progress tr)) imageId); simpl; [lia|].
    rewrite length_app. simpl. lia.
  - unfold getStats. simpl. now rewrite TrackerFacts.markCompleted_failed.
Qed.

(** *** Invariants of the record *)

Lemma map_id_updateFirst (imageId error now : string) (l : list Failed.t) :
  map Failed.id (updateFirst (hasId imageId) (bump error now) l)
  = map Failed.id l.
Proof.
  induction l as [|f l IH]; [reflexivity|].
  simpl. destruct (hasId imageId f); simpl; [reflexivity | now rewrite IH].
Qed.

Lemma Forall_updateFirst {A : Type} (P : A -> Prop) (p : A -> bool)
    (g : A -> A) (l : list A) :
  (forall x, P x -> P (g x)) -> Forall P l -> Forall P (updateFirst p g l).
Proof.
  intros Hg. induction 1 as [|x l Hx Hl IH]; [constructor|].
  simpl. destruct (p x); constructor; auto.
Qed.

Lemma find_none_not_in (imageId : string) (l : list Failed.t) :
  List.find (hasId imageId) l = None -> imageId ∉ map Failed.id l.
Proof.
  intros Hnone Hin. apply list_elem_of_In, in_map_iff in Hin.
  destruct Hin as (f & Hid & Hin).
  pose proof (find_none _ _ Hnone f Hin) as Hf.
  unfold hasId in Hf. rewrite Hid, String.eqb_refl in Hf. discriminate.
Qed.

Lemma wellFormed_step (tr : t) (op : Op) :
  wellFormed (progress tr) -> wellFormed (progress (step tr op)).
Proof.
  intros (Hc & Hf & Ha). unfold wellFormed.
  destruct op as [imageId|imageId error now|now]; cbn [step].
  - unfold markCompleted.
    destruct (includes (completed (progress tr)) imageId) eqn:Hin;
      cbn [negb progress save completed failed].
    + now split.
    + split; [|now split].
      apply NoDup_app. split; [exact Hc|]. split; [|apply NoDup_singleton].
      intros x Hx Hx'. apply list_elem_of_singleton in Hx'. subst x.
      apply TrackerFacts.includes_elem_of in Hx. congruence.
  - unfold markFailed. cbn [progress save completed failed].
    destruct (List.find (hasId imageId) (failed (progress tr))) eqn:Hfind.
    + split; [exact Hc|]. split.
      * now rewrite map_id_updateFirst.
      * apply Forall_updateFirst; [|exact Ha]. intros x Hx. simpl. lia.
    + split; [exact Hc|]. split.
      * rewrite map_app. cbn [map Failed.id]. apply NoDup_app.
        split; [exact Hf|]. split; [|apply NoDup_singleton].
        intros x Hx Hx'. apply list_elem_of_singleton in Hx'. subst x.
        now apply (find_none_not_in _ _ Hfind).
      * apply Forall_app. split; [exact Ha|].
        constructor; [simpl; lia | constructor].
  - repeat split; constructor.
Qed.

Lemma durable_step (tr : t) (op : Op) : durable tr -> durable (step tr op).
Proof.
  intros Hd. destruct op as [imageId|imageId error now|now]; simpl.
  - unfold markCompleted. destruct (negb _); [now left | exact Hd].
  - now left.
  - right. now repeat split.
Qed.

(** X3: whatever is done to a tracker that starts without a file, its
    record never lists an id twice as completed, never holds two failure
    records for one id, never holds a record with fewer than one
    attempt, and its file is the in-memory record (or does not exist
    while nothing is recorded).  Each operation keeps this from any
    state that has it. *)
Theorem tracker_invariants :
  (forall tr op, wellFormed (progress tr) -> wellFormed (progress (step tr op))) /\
  (forall tr op, durable tr -> durable (step tr op)) /\
  (forall now ops,
     wellFormed (progress (run (create None now) ops)) /\
     durable (run (create None now) ops)).
Proof.
  split; [exact wellFormed_step|]. split; [exact durable_step|].
  intros now ops. unfold run.
  assert (Hstart : wellFormed (progress (create None now)) /\
                   durable (create None now)).
  { split; [repeat split; constructor | right; now repeat split]. }
  revert Hstart. generalize (create None now).
  induction ops as [|op ops IH]; intros tr [Hw Hd]; [now split|].
  simpl. apply IH. split; [now apply wellFormed_step | now apply durable_step].
Qed.

Lemma tracker_invariants_witness :
  wellFormed (progress (markCompleted (markFailed (create None "t0") "a" "e" "t1") "a")).
Proof.
  destruct tracker_invariants as (Hstep & _ & Hrun).
  apply (Hstep _ (MarkCompleted "a")).
  exact (proj1 (Hrun "t0" [MarkFailed "a" "e" "t1"])).
Defined.

(** *** Durability *)

Lemma getRemaining_ext (tr tr' : t) (R : list Image.t) (k : option Z) :
  completed (progress tr') = completed (progress tr) ->
  failed (progress tr') = failed (progress tr) ->
  getRemaining tr' R k = getRemaining tr R k.
Proof.
  intros Hc Hf. unfold getRemaining, isCompleted, getFailedAttempts.
  now rewrite Hc, Hf.
Qed.

(** X4: what a tracker has recorded survives a restart.  A tracker
    rebuilt from the file right after a [markFailed] has the very same
    record; and in every state whose file is in step with the memory, a
    rebuilt tracker has the same completed ids and failure records, so
    it leaves the same requests to do. *)
Theorem reload_keeps_progress (tr : t) (later : string) :
  (forall imageId error now,
     progress (reload (markFailed tr imageId error now) later)
     = progress (markFailed tr imageId error now)) /\
  (durable tr ->
   completed (progress (reload tr later)) = completed (progress tr) /\
   failed (progress (reload tr later)) = failed (progress tr) /\
   (forall R k, getRemaining (reload tr later) R k = getRemaining tr R k) /\
   (forall imageId,
      getFailedAttempts (reload tr later) imageId = getFailedAttempts tr imageId)).
Proof.
  split; [reflexivity|].
  intros Hd.
  assert (H : completed (progress (reload tr later)) = completed (progress tr) /\
              failed (progress (reload tr later)) = failed (progress tr)).
  { unfold reload, create.
    destruct Hd as [Hs | (Hs & Hc & Hf)]; rewrite Hs; simpl; [now split|].
    now rewrite Hc, Hf. }
  destruct H as [Hc Hf].
  split; [exact Hc|]. split; [exact Hf|]. split.
  - intros R k. now apply getRemaining_ext.
  - intros imageId. unfold getFailedAttempts. now rewrite Hf.
Qed.

Lemma reload_keeps_progress_witness :
  completed (progress (reload (markCompleted (create None "t0") "a") "t9")) = ["a"].
Proof.
  destruct (reload_keeps_progress (markCompleted (create None "t0") "a") "t9")
    as [_ Hd].
  destruct Hd as (Hc & _); [now left | exact Hc].
Defined.

(** *** Progress only removes work *)

Lemma filter_sublist_mono {A : Type} (p q : A -> bool) (l : list A) :
  (forall x, p x = true -> q x = true) ->
  sublist (List.filter p l) (List.filter q l).
Proof.
  intros Hpq. induction l as [|x l IH]; simpl; [constructor|].
  destruct (p x) eqn:Hp.
  - rewrite (Hpq x Hp). now constructor.
  - destruct (q x); [now constructor | exact IH].
Qed.

Lemma markCompleted_shrinks (tr : t) (R : list Image.t) (k : option Z)
    (imageId : string) :
  sublist (getRemaining (markCompleted tr imageId) R k) (getRemaining tr R k).
Proof.
  unfold getRemaining. apply filter_sublist_mono. intros img.
  rewrite isCompleted_markCompleted, getFailedAttempts_markCompleted.
  destruct (isCompleted tr (Image.id img)); simpl; [discriminate|].
  destruct (String.eqb _ _); [discriminate | tauto].
Qed.

Lemma markFailed_shrinks (tr : t) (R : list Image.t) (k : option Z)
    (imageId error now : string) :
  sublist (getRemaining (markFailed tr imageId error now) R k) (getRemaining tr R k).
Proof.
  unfold getRemaining. apply filter_sublist_mono. intros img.
  change (isCompleted (markFailed tr imageId error now) (Image.id img))
    with (isCompleted tr (Image.id img)).
  destruct (isCompleted tr (Image.id img)); [discriminate|].
  destruct (String.eqb_spec (Image.id img) imageId) as [->|Hne].
  - rewrite getFailedAttempts_markFailed_same.
    destruct (Z.geb_spec (getFailedAttempts tr imageId + 1) (default 3 k));
      [discriminate|].
    destruct (Z.geb_spec (getFailedAttempts tr imageId) (default 3 k)); [lia|].
    reflexivity.
  - now rewrite getFailedAttempts_markFailed_other.
Qed.

(** X5: recording an outcome never brings a request back: after a
    [markCompleted] or a [markFailed] the remaining requests are a
    sub-sequence of those remaining before, for every list and every
    retry limit. *)
Theorem recording_shrinks_remaining (tr : t) (R : list Image.t) (k : option Z) :
  (forall imageId,
     sublist (getRemaining (markCompleted tr imageId) R k) (getRemaining tr R k)) /\
  (forall imageId error now,
     sublist (getRemaining (markFailed tr imageId error now) R k)
             (getRemaining tr R k)).
Proof.
  split.
  - intros imageId. apply markCompleted_shrinks.
  - intros imageId error now. apply markFailed_shrinks.
Qed.

(** [clear()] forgets everything, whatever was recorded: no
    completed id, no failure record, no file.  After it every request of
    any list is remaining when the retry limit is positive (as the
    default 3 is), and none when the limit is zero or negative. *)
Theorem clear_forgets (tr : t) (now : string) :
  completed (progress (clear tr now)) = [] /\
  failed (progress (clear tr now)) = [] /\
  stored (clear tr now) = None /\
  getStats (clear tr now)
  = {| Stats.completed := 0; Stats.failed := 0; Stats.startedAt := now |} /\
  (forall imageId, isCompleted (clear tr now) imageId = false /\
                   getFailedAttempts (clear tr now) imageId = 0) /\
  (forall R k,
     getRemaining (clear tr now) R k = if 0 <? default 3 k then R else []).
Proof.
  repeat (split; [reflexivity|]). split; [intros; split; reflexivity|].
  intros R k. unfold getRemaining, isCompleted, getFailedAttempts. simpl.
  destruct (Z.ltb_spec 0 (default 3 k)) as [Hpos|Hneg].
  - induction R as [|img R IH]; [reflexivity|]. simpl.
    destruct (Z.geb_spec 0 (default 3 k)); [lia|]. now rewrite IH.
  - induction R as [|img R IH]; [reflexivity|]. simpl.
    destruct (Z.geb_spec 0 (default 3 k)); [exact IH | lia].
Qed.

End TrackerMore.

(** ** The classifier: what every classified error looks like *)

Module ErrorsMore.
Import Errors ErrorsCli.

Lemma toLowerCase_app (a b : string) :
  JS.toLowerCase (a +:+ b) = JS.toLowerCase a +:+ JS.toLowerCase b.
Proof. induction a as [|c a IH]; simpl; [reflexivity | now rewrite IH]. Qed.

Lemma orElse_not_empty (s : option string) (d : string) :
  d <> "" -> JS.orElse s d <> "".
Proof. intros Hd. destruct s as [[|c r]|]; simpl; congruence. Qed.

Lemma startsWith_app (a b : string) : JS.startsWith (a +:+ b) a = true.
Proof.
  induction a as [|c a IH]; simpl; [now destruct b|].
  now rewrite Ascii.eqb_refl.
Qed.

(** X6: every error that [parseApiError] returns is fit to show: its
    message is not empty, it has a non-empty hint, its code is one of
    the six codes of errors.js, and it carries the id of the request
    exactly when it is a [GenerationError] (safety or fallback); the
    other classes drop the id. *)
Theorem parseApiError_wellformed (err : RawError) (imgId : option string) :
  message (parseApiError err imgId) <> "" /\
  (exists h, hint (parseApiError err imgId) = Some h /\ h <> "") /\
  (exists c, code (parseApiError err imgId) = Some c /\ c ∈ codes) /\
  imageId (parseApiError err imgId)
  = (if isGenerationClass (classify err) then imgId else None) /\
  (name (parseApiError err imgId) = "GenerationError"
   <-> isGenerationClass (classify err) = true).
Proof.
  rewrite ErrorsFacts.parseApiError_errorOf.
  destruct (classify err); simpl.
  all: split; [try discriminate|].
  all: try (apply orElse_not_empty; discriminate).
  all: split; [eexists; split; [reflexivity|];
               try discriminate; destruct (JS.truthy imgId); discriminate|].
  all: split; [eexists; split; [reflexivity|]; unfold codes;
               repeat (first [apply list_elem_of_here | apply list_elem_of_further])|].
  all: split; [reflexivity|].
  all: split; intros H; first [reflexivity | discriminate].
Qed.

(** The prefix that the malformed-request branch puts before the
    message does not create or hide a keyword of the earlier rules. *)
Lemma invalid_request_prefix (x : string) :
  authRule ("invalid request: " +:+ x) = authRule x /\
  rateRule ("invalid request: " +:+ x) = rateRule x /\
  safetyRule ("invalid request: " +:+ x) = safetyRule x /\
  malformedRule ("invalid request: " +:+ x) = true.
Proof.
  unfold authRule, rateRule, safetyRule, malformedRule.
  repeat split; cbn; reflexivity.
Qed.

(** X7: classifying a classified error again does not change its
    class: the message that [parseApiError] puts in the error it
    returns falls under the same rule as the message it was given. *)
Theorem classify_stable (err : RawError) (imgId : option string) :
  classify (mkRaw (Some (message (parseApiError err imgId)))) = classify err.
Proof.
  rewrite ErrorsFacts.parseApiError_errorOf.
  destruct (classify err) eqn:Hc; try reflexivity.
  - (* malformed: "Invalid request: " in front of the message *)
    destruct (ErrorsFacts.classify_first_match err)
      as (_ & _ & _ & Hbad & _).
    destruct (proj1 Hbad Hc) as (Hauth & Hrate & Hsafe & Hmal).
    destruct err as [[m|]]; [|discriminate Hmal].
    assert (Hlow : lowered (mkRaw (Some m)) = JS.toLowerCase m).
    { apply ErrorsFacts.lowered_ofString. }
    rewrite Hlow in Hauth, Hrate, Hsafe.
    unfold classify. simpl errorOf. simpl message.
    change (lowered (mkRaw (Some ("Invalid request: " +:+ m))))
      with (JS.toLowerCase ("Invalid request: " +:+ m)).
    rewrite toLowerCase_app.
    change (JS.toLowerCase "Invalid request: ") with "invalid request: ".
    destruct (invalid_request_prefix (JS.toLowerCase m)) as (-> & -> & -> & ->).
    now rewrite Hauth, Hrate, Hsafe.
  - (* fallback: the message itself, or the default text *)
    simpl errorOf. simpl message.
    destruct err as [[[|c m]|]]; simpl JS.orElse; [reflexivity | exact Hc | reflexivity].
Qed.

End ErrorsMore.

(** ** The executor: bounds, files, recovery *)

Module ExecutorMore.
Import Errors Generator Traces.

Section Executor.

Variable outputDir : string.
Variable buildPrompt : Image.t -> string.
Variable getMimeType : string -> string.
Variable readReference : string -> option string.
Variable generateFilename : Image.t -> string.
Variable pathJoin : string -> string -> string.
Variable remote : Image.t -> list ContentPart -> nat -> RemoteOutcome.

Local Abbreviation attemptOnce := (attemptOnce outputDir generateFilename pathJoin remote).
Local Abbreviation attemptLoop := (attemptLoop outputDir generateFilename pathJoin remote).
Local Abbreviation processResponse := (processResponse outputDir generateFilename pathJoin).
Local Abbreviation contentParts := (contentParts buildPrompt getMimeType readReference).
Local Abbreviation generateImage :=
  (generateImage outputDir buildPrompt getMimeType readReference
                 generateFilename pathJoin remote).
Local Abbreviation loopUnfold :=
  (ExecutorFacts.attemptLoop_unfold outputDir generateFilename pathJoin remote).

Variable image : Image.t.
Variable onProgress : option Callback.

(** *** What [processResponse] does *)

Lemma processResponse_cases response :
  (exists result data,
     processResponse response image
     = ([MkDir outputDir; WriteFile (filepath result) data], Returned result) /\
     filepath result = pathJoin outputDir (generateFilename image) /\
     filename result = generateFilename image /\
     success result = true /\
     imageId result = Image.id image) \/
  (exists e, processResponse response image = ([], Threw e)).
Proof.
  unfold Generator.processResponse.
  destruct response as [parts|]; [|right; eauto].
  destruct (List.find _ parts) as [part|].
  - left.
    exists {| success := true;
              filepath := pathJoin outputDir (generateFilename image);
              imageId := Image.id image;
              filename := generateFilename image |},
           (default "" (inlineData part)).
    now repeat split.
  - right. destruct (List.find _ parts) as [part|]; [|eauto].
    destruct (_ || _); eauto.
Qed.

Lemma processResponse_found (parts : list Part) (part : Part) :
  List.find hasImage parts = Some part ->
  processResponse (Some parts) image
  = ([MkDir outputDir;
      WriteFile (pathJoin outputDir (generateFilename image))
                (default "" (inlineData part))],
     Returned {| success := true;
                 filepath := pathJoin outputDir (generateFilename image);
                 imageId := Image.id image;
                 filename := generateFilename image |}).
Proof.
  intros Hfind. unfold Generator.processResponse.
  change (fun part0 : Part => bool_decide (is_Some (inlineData part0)))
    with hasImage.
  now rewrite Hfind.
Qed.

(** X8: [processResponse] succeeds exactly when some part of the
    answer carries an image, whatever text parts come with it and in
    whatever order; it then writes the data of the first such part, once,
    to [outputDir/filename].  When it throws it has written nothing. *)
Theorem processResponse_image_wins (parts : list Part) :
  ((exists part, part ∈ parts /\ hasImage part = true) <->
   (exists result,
      snd (processResponse (Some parts) image) = Returned result)) /\
  (forall part,
     List.find hasImage parts = Some part ->
     processResponse (Some parts) image
     = ([MkDir outputDir;
         WriteFile (pathJoin outputDir (generateFilename image))
                   (default "" (inlineData part))],
        Returned {| success := true;
                    filepath := pathJoin outputDir (generateFilename image);
                    imageId := Image.id image;
                    filename := generateFilename image |})) /\
  (forall e, snd (processResponse (Some parts) image) = Threw e ->
             fst (processResponse (Some parts) image) = []) /\
  (forall events e, processResponse None image = (events, e) -> events = []).
Proof.
  assert (Hfound : forall part, List.find hasImage parts = Some part ->
            processResponse (Some parts) image
            = ([MkDir outputDir;
                WriteFile (pathJoin outputDir (generateFilename image))
                          (default "" (inlineData part))],
               Returned {| success := true;
                           filepath := pathJoin outputDir (generateFilename image);
                           imageId := Image.id image;
                           filename := generateFilename image |})).
  { intros part. apply processResponse_found. }
  split; [|split; [exact Hfound|split]].
  - split.
    + intros (part & Hin & Himg).
      destruct (List.find hasImage parts) as [first|] eqn:Hfind.
      * eexists. now rewrite (Hfound first eq_refl).
      * apply list_elem_of_In in Hin.
        now rewrite (find_none _ _ Hfind part Hin) in Himg.
    + intros (result & Hres).
      destruct (List.find hasImage parts) as [first|] eqn:Hfind.
      * exists first. apply find_some in Hfind.
        split; [now apply list_elem_of_In | tauto].
      * exfalso. revert Hres. unfold Generator.processResponse.
        change (fun part0 : Part => bool_decide (is_Some (inlineData part0)))
          with hasImage.
        rewrite Hfind.
        destruct (List.find (fun p => JS.truthy (text p)) parts) as [part|];
          [destruct (_ || _)|]; cbn [snd]; intros H; discriminate H.
  - intros e He.
    destruct (processResponse_cases (Some parts))
      as [(result & data & Hrun & _)|(e' & Hrun)]; rewrite Hrun in *;
      [discriminate | reflexivity].
  - intros events e H. unfold Generator.processResponse in H. now injection H.
Qed.

(** *** The shape of every trace *)

Lemma writesOf_app (t1 t2 : list Event) :
  writesOf (t1 ++ t2) = writesOf t1 ++ writesOf t2.
Proof. apply omap_app. Qed.

Lemma writesOf_invoke msg : writesOf (invoke onProgress msg) = [].
Proof.
  unfold invoke, writesOf.
  induction (heard onProgress msg) as [|m l IH]; [reflexivity | exact IH].
Qed.

Lemma beforeRetry_projections attempt :
  callsOf (beforeRetry onProgress attempt) = [] /\
  writesOf (beforeRetry onProgress attempt) = [] /\
  sleepsOf (beforeRetry onProgress attempt)
  = if (0 <? attempt)%nat then [nth (attempt - 1) RETRY_DELAYS 0] else [].
Proof.
  unfold beforeRetry. destruct (0 <? attempt)%nat; [|now repeat split].
  rewrite ExecutorFacts.callsOf_app, writesOf_app, ExecutorFacts.sleepsOf_app.
  rewrite ExecutorFacts.callsOf_invoke, writesOf_invoke,
    ExecutorFacts.sleepsOf_invoke.
  now repeat split.
Qed.

(** What a result that [generateImage] returns says, and the one file
    that goes with it. *)
Local Abbreviation delivered trace result :=
  ((exists data, writesOf trace = [(filepath result, data)]) /\
   filepath result = pathJoin outputDir (generateFilename image) /\
   filename result = generateFilename image /\
   success result = true /\
   imageId result = Image.id image).

Lemma attemptOnce_shape contents attempt :
  exists events,
    fst (attemptOnce image contents attempt) = GenerateContent attempt :: events /\
    callsOf events = [] /\ sleepsOf events = [] /\
    match snd (attemptOnce image contents attempt) with
    | Returned result => delivered events result
    | Threw _ => writesOf events = []
    end.
Proof.
  unfold Generator.attemptOnce.
  destruct (remote image contents attempt) as [err|response].
  - exists []. now repeat split.
  - destruct (processResponse_cases response)
      as [(result & data & -> & Hp & Hn & Hs & Hi)|(e & ->)].
    + eexists. split; [reflexivity|]. split; [reflexivity|].
      split; [reflexivity|]. split; [|now repeat split].
      exists data. reflexivity.
    + exists []. now repeat split.
Qed.

Lemma attemptLoop_shape contents fuel :
  forall attempt lastError,
    (attempt <= 3)%nat -> (3 - attempt < fuel)%nat ->
    exists last,
      (attempt <= last <= 3)%nat /\
      callsOf (fst (attemptLoop fuel image contents onProgress attempt lastError))
      = seq attempt (S last - attempt) /\
      sleepsOf (fst (attemptLoop fuel image contents onProgress attempt lastError))
      = skipn (attempt - 1) (firstn last RETRY_DELAYS) /\
      match snd (attemptLoop fuel image contents onProgress attempt lastError) with
      | Some (Returned result) =>
          delivered (fst (attemptLoop fuel image contents onProgress attempt
                            lastError)) result
      | Some (Threw _) =>
          writesOf (fst (attemptLoop fuel image contents onProgress attempt
                           lastError)) = []
      | None => False
      end.
Proof.
  induction fuel as [|fuel IH]; intros attempt lastError Hle Hfuel; [lia|].
  rewrite loopUnfold.
  change (length RETRY_DELAYS) with 3%nat.
  destruct (Nat.leb_spec attempt 3); [|lia].
  destruct (attemptOnce_shape contents attempt)
    as (events & Hev & Hcalls & Hsleeps & Hout).
  destruct (beforeRetry_projections attempt) as (Hbc & Hbw & Hbs).
  assert (Hstop_sleeps :
            (if (0 <? attempt)%nat then [nth (attempt - 1) RETRY_DELAYS 0] else [])
            = skipn (attempt - 1) (firstn attempt RETRY_DELAYS)).
  { destruct attempt as [|[|[|[|n]]]]; try reflexivity; lia. }
  destruct (attemptOnce image contents attempt) as [events' [result|err]];
    cbn [fst snd] in Hev, Hout; subst events'.
  - exists attempt. cbn [fst snd]. split; [lia|].
    rewrite ExecutorFacts.callsOf_app, ExecutorFacts.sleepsOf_app, Hbc, Hbs.
    replace (S attempt - attempt)%nat with 1%nat by lia.
    split; [simpl; now rewrite Hcalls|].
    split; [simpl sleepsOf; rewrite Hsleeps, app_nil_r; exact Hstop_sleeps|].
    destruct Hout as ((data & Hw) & Hrest).
    split; [|exact Hrest]. exists data.
    rewrite writesOf_app, Hbw. exact Hw.
  - destruct (isRetryable err && (attempt <? 3)%nat) eqn:Hgo.
    + apply andb_true_iff in Hgo. destruct Hgo as [_ Hlt].
      apply Nat.ltb_lt in Hlt.
      destruct (IH (S attempt) (Some (parseApiError err (Some (Image.id image)))))
        as (last & Hrange & Hc & Hs & Ho); [lia | lia |].
      destruct (attemptLoop fuel image contents onProgress (S attempt) _)
        as [later outcome].
      cbn [fst snd] in *. exists last. split; [lia|].
      rewrite !ExecutorFacts.callsOf_app, !ExecutorFacts.sleepsOf_app.
      rewrite Hbc, Hbs, Hc, Hs.
      split; [|split].
      * simpl callsOf. rewrite Hcalls. simpl.
        replace (S last - attempt)%nat with (S (last - attempt)) by lia.
        reflexivity.
      * simpl sleepsOf. rewrite Hsleeps. simpl.
        destruct attempt as [|[|[|n]]]; destruct last as [|[|[|[|m]]]];
          try lia; reflexivity.
      * destruct outcome as [[result|e]|]; [| |exact Ho].
        -- destruct Ho as ((data & Hw) & Hrest). split; [|exact Hrest].
           exists data. rewrite !writesOf_app, Hbw. simpl. rewrite Hout.
           exact Hw.
        -- rewrite !writesOf_app, Hbw. simpl. now rewrite Hout, Ho.
    + exists attempt. cbn [fst snd]. split; [lia|].
      rewrite ExecutorFacts.callsOf_app, ExecutorFacts.sleepsOf_app, Hbc, Hbs.
      replace (S attempt - attempt)%nat with 1%nat by lia.
      split; [simpl; now rewrite Hcalls|].
      split; [simpl sleepsOf; rewrite Hsleeps, app_nil_r; exact Hstop_sleeps|].
      rewrite writesOf_app, Hbw. simpl. exact Hout.
Qed.

(** X9: whatever the service does, [generateImage] makes between one
    and four calls, numbered 0, 1, ... in order, and sleeps before each
    call but the first for the next delay of [RETRY_DELAYS], in order:
    it never sleeps more than 7000 ms in all, and never before the
    first call. *)
Theorem generateImage_bounded (referenceImages : list string) :
  exists n,
    (1 <= n <= 4)%nat /\
    callsOf (fst (generateImage image referenceImages onProgress)) = seq 0 n /\
    sleepsOf (fst (generateImage image referenceImages onProgress))
    = firstn (n - 1) RETRY_DELAYS /\
    0 <= sleptMs (fst (generateImage image referenceImages onProgress)) <= 7000 /\
    exists later,
      fst (generateImage image referenceImages onProgress)
      = GenerateContent 0 :: later.
Proof.
  unfold Generator.generateImage.
  change (S (S (length RETRY_DELAYS))) with 5%nat.
  destruct (attemptLoop_shape (contentParts image referenceImages) 5 0 None)
    as (last & Hrange & Hc & Hs & _); [lia | lia |].
  exists (S last). split; [lia|]. split; [now rewrite Hc|].
  replace (S last - 1)%nat with last by lia.
  split; [exact Hs|]. split.
  - unfold sleptMs. rewrite Hs.
    destruct last as [|[|[|[|m]]]]; simpl; lia.
  - destruct (ExecutorFacts.attemptLoop_calls outputDir generateFilename pathJoin
                remote image onProgress (contentParts image referenceImages)
                4 0 None) as (later & Hlater); [simpl; lia|].
    exists later. exact Hlater.
Qed.

(** X10: a file is written exactly when [generateImage] returns a
    result: then it is one file, at [outputDir/filename], and the result
    names it, says [success] and carries the id of the request; when
    [generateImage] throws, nothing has been written, however many
    attempts were made. *)
Theorem generateImage_writes_on_success (referenceImages : list string) :
  (forall result,
     snd (generateImage image referenceImages onProgress) = Some (Returned result) ->
     (exists data,
        writesOf (fst (generateImage image referenceImages onProgress))
        = [(filepath result, data)]) /\
     filepath result = pathJoin outputDir (generateFilename image) /\
     filename result = generateFilename image /\
     success result = true /\
     imageId result = Image.id image) /\
  (forall e,
     snd (generateImage image referenceImages onProgress) = Some (Threw e) ->
     writesOf (fst (generateImage image referenceImages onProgress)) = []).
Proof.
  unfold Generator.generateImage.
  change (S (S (length RETRY_DELAYS))) with 5%nat.
  destruct (attemptLoop_shape (contentParts image referenceImages) 5 0 None)
    as (last & _ & _ & _ & Ho); [lia | lia |].
  split.
  - intros result Hr. rewrite Hr in Ho. exact Ho.
  - intros e He. rewrite He in Ho. exact Ho.
Qed.

(** *** Retries that end before the budget is spent *)

Lemma turn_projections attempt (rest : list Event) :
  callsOf (beforeRetry onProgress attempt ++ GenerateContent attempt :: rest)
  = attempt :: callsOf rest /\
  sleepsOf (beforeRetry onProgress attempt ++ GenerateContent attempt :: rest)
  = (if (0 <? attempt)%nat then [nth (attempt - 1) RETRY_DELAYS 0] else [])
    ++ sleepsOf rest /\
  writesOf (beforeRetry onProgress attempt ++ GenerateContent attempt :: rest)
  = writesOf rest.
Proof.
  destruct (beforeRetry_projections attempt) as (Hc & Hw & Hs).
  rewrite ExecutorFacts.callsOf_app, ExecutorFacts.sleepsOf_app, writesOf_app.
  rewrite Hc, Hw, Hs. now repeat split.
Qed.

(** The hypothesis of the next two statements: the calls before the
    [k]-th are all rejected with an error that [isRetryable] accepts. *)
Local Abbreviation rejectedBefore contents errs k :=
  (forall n, (n < k)%nat ->
     remote image contents n = Rejects (errs n) /\ isRetryable (errs n) = true).

Ltac retry_turn Hbefore n fuel :=
  rewrite (ExecutorFacts.attemptLoop_retries outputDir generateFilename pathJoin
             remote image onProgress _ fuel n _ [GenerateContent n] _
             ltac:(simpl; lia)
             (ExecutorFacts.attemptOnce_rejected outputDir generateFilename
                pathJoin remote image _ n _ (proj1 (Hbefore n ltac:(lia))))
             (proj2 (Hbefore n ltac:(lia)))).

Ltac project_turns :=
  cbn [fst snd app];
  repeat (rewrite (proj1 (turn_projections _ _))
          || rewrite (proj1 (proj2 (turn_projections _ _)))
          || rewrite (proj2 (proj2 (turn_projections _ _)))).

(** X11: retries are absorbed.  When the calls before the [k]-th
    ([k <= 3]) are rejected with retryable errors and the [k]-th answers
    with an image, [generateImage] returns the result after exactly
    [k + 1] calls and the first [k] delays, and writes the one file;
    none of the earlier errors shows. *)
Theorem generateImage_recovers (referenceImages : list string)
    (errs : nat -> RawError) (k : nat) (parts : list Part) (part : Part) :
  (k <= 3)%nat ->
  rejectedBefore (contentParts image referenceImages) errs k ->
  remote image (contentParts image referenceImages) k = Responds (Some parts) ->
  List.find hasImage parts = Some part ->
  snd (generateImage image referenceImages onProgress)
  = Some (Returned {| success := true;
                      filepath := pathJoin outputDir (generateFilename image);
                      imageId := Image.id image;
                      filename := generateFilename image |}) /\
  callsOf (fst (generateImage image referenceImages onProgress)) = seq 0 (S k) /\
  sleepsOf (fst (generateImage image referenceImages onProgress))
  = firstn k RETRY_DELAYS /\
  writesOf (fst (generateImage image referenceImages onProgress))
  = [(pathJoin outputDir (generateFilename image), default "" (inlineData part))].
Proof.
  intros Hk Hbefore Hremote Hfind.
  assert (Hrun : attemptOnce image (contentParts image referenceImages) k
                 = ([GenerateContent k; MkDir outputDir;
                     WriteFile (pathJoin outputDir (generateFilename image))
                               (default "" (inlineData part))],
                    Returned {| success := true;
                                filepath := pathJoin outputDir (generateFilename image);
                                imageId := Image.id image;
                                filename := generateFilename image |})).
  { unfold Generator.attemptOnce. rewrite Hremote.
    now rewrite (processResponse_found parts part Hfind). }
  unfold Generator.generateImage.
  change (S (S (length RETRY_DELAYS))) with 5%nat.
  destruct k as [|[|[|[|k]]]]; [| | | |lia].
  - rewrite (ExecutorFacts.attemptLoop_returns _ _ _ _ _ _ _ 4 0 None _ _
               ltac:(simpl; lia) Hrun).
    project_turns. repeat split; reflexivity.
  - retry_turn Hbefore 0%nat 4%nat.
    rewrite (ExecutorFacts.attemptLoop_returns _ _ _ _ _ _ _ 3 1 _ _ _
               ltac:(simpl; lia) Hrun).
    project_turns. repeat split; reflexivity.
  - retry_turn Hbefore 0%nat 4%nat. retry_turn Hbefore 1%nat 3%nat.
    rewrite (ExecutorFacts.attemptLoop_returns _ _ _ _ _ _ _ 2 2 _ _ _
               ltac:(simpl; lia) Hrun).
    project_turns. repeat split; reflexivity.
  - retry_turn Hbefore 0%nat 4%nat. retry_turn Hbefore 1%nat 3%nat.
    retry_turn Hbefore 2%nat 2%nat.
    rewrite (ExecutorFacts.attemptLoop_returns _ _ _ _ _ _ _ 1 3 _ _ _
               ltac:(simpl; lia) Hrun).
    project_turns. repeat split; reflexivity.
Qed.

(** X12: the error that [generateImage] throws is made from the last
    rejection, never from an earlier one, and an error that
    [isRetryable] refuses stops the retries at once: when the calls
    before the [k]-th are rejected with retryable errors and the [k]-th
    with one that is not, there are exactly [k + 1] calls, the first [k]
    delays, no file, and the error is [parseApiError] of the [k]-th
    rejection. *)
Theorem generateImage_stops_on_fatal (referenceImages : list string)
    (errs : nat -> RawError) (k : nat) :
  (k <= 3)%nat ->
  rejectedBefore (contentParts image referenceImages) errs k ->
  remote image (contentParts image referenceImages) k = Rejects (errs k) ->
  isRetryable (errs k) = false ->
  snd (generateImage image referenceImages onProgress)
  = Some (Threw (Some (parseApiError (errs k) (Some (Image.id image))))) /\
  callsOf (fst (generateImage image referenceImages onProgress)) = seq 0 (S k) /\
  sleepsOf (fst (generateImage image referenceImages onProgress))
  = firstn k RETRY_DELAYS /\
  writesOf (fst (generateImage image referenceImages onProgress)) = [].
Proof.
  intros Hk Hbefore Hremote Hfatal.
  pose proof (ExecutorFacts.attemptOnce_rejected outputDir generateFilename
                pathJoin remote image _ k _ Hremote) as Hrun.
  unfold Generator.generateImage.
  change (S (S (length RETRY_DELAYS))) with 5%nat.
  destruct k as [|[|[|[|k]]]]; [| | | |lia].
  - rewrite (ExecutorFacts.attemptLoop_gives_up _ _ _ _ _ _ _ 4 0 None _ _
               ltac:(simpl; lia) Hrun (or_introl Hfatal)).
    project_turns. repeat split; reflexivity.
  - retry_turn Hbefore 0%nat 4%nat.
    rewrite (ExecutorFacts.attemptLoop_gives_up _ _ _ _ _ _ _ 3 1 _ _ _
               ltac:(simpl; lia) Hrun (or_introl Hfatal)).
    project_turns. repeat split; reflexivity.
  - retry_turn Hbefore 0%nat 4%nat. retry_turn Hbefore 1%nat 3%nat.
    rewrite (ExecutorFacts.attemptLoop_gives_up _ _ _ _ _ _ _ 2 2 _ _ _
               ltac:(simpl; lia) Hrun (or_introl Hfatal)).
    project_turns. repeat split; reflexivity.
  - retry_turn Hbefore 0%nat 4%nat. retry_turn Hbefore 1%nat 3%nat.
    retry_turn Hbefore 2%nat 2%nat.
    rewrite (ExecutorFacts.attemptLoop_gives_up _ _ _ _ _ _ _ 1 3 _ _ _
               ltac:(simpl; lia) Hrun (or_introl Hfatal)).
    project_turns. repeat split; reflexivity.
Qed.

(** *** Answers without an image *)



Lemma length_substring_le (s : string) :
  forall n m, (String.length (substring n m s) <= m)%nat.
Proof.
  induction s as [|c s IH]; intros [|n] [|m]; simpl; try lia.
  - specialize (IH 0%nat m). lia.
  - apply (IH n 0%nat).
  - apply (IH n (S m)).
Qed.

(** X14: an answer with text and no image.  The text of the first part
    that has one is quoted in the error, cut to 200 characters.  If the
    quoted text contains "cannot" or "sorry" in any letter case the
    error reads "Content blocked: ..."; since that message contains
    "blocked", [parseApiError] can only make an auth, a rate-limit or a
    content-safety error of it, and it is the content-safety error with
    its standard text as soon as the quoted text brings no auth or
    rate-limit keyword.  Otherwise the error reads "API returned text
    instead of image: ...". *)
Theorem text_only_answer (parts : list Part) (part : Part) :
  List.find hasImage parts = None ->
  List.find (fun p => JS.truthy (text p)) parts = Some part ->
  (String.length (substring 0 200 (default "" (text part))) <= 200)%nat /\
  exists e,
    processResponse (Some parts) image = ([], Threw e) /\
    name e = "GenerationError" /\
    Errors.imageId e = Some (Image.id image) /\
    message e
    = (if JS.includes (JS.toLowerCase (substring 0 200 (default "" (text part))))
                      "cannot"
          || JS.includes (JS.toLowerCase (substring 0 200 (default "" (text part))))
                         "sorry"
       then "Content blocked: " +:+ substring 0 200 (default "" (text part))
            +:+ ". Try simplifying your prompt or removing specific brand references."
       else "API returned text instead of image: "
            +:+ substring 0 200 (default "" (text part))) /\
    (JS.includes (JS.toLowerCase (substring 0 200 (default "" (text part)))) "cannot"
     || JS.includes (JS.toLowerCase (substring 0 200 (default "" (text part)))) "sorry"
     = true ->
     classify (asRaw e)
       ∈ [Class.AuthError; Class.RateLimitError; Class.ContentSafetyError] /\
     (authRule (lowered (asRaw e)) = false ->
      rateRule (lowered (asRaw e)) = false ->
      parseApiError (asRaw e) (Some (Image.id image))
      = safetyError (Some (Image.id image)))).
Proof.
  intros Hno Htext. split; [apply length_substring_le|].
  set (quoted := substring 0 200 (default "" (text part))).
  unfold Generator.processResponse.
  change (fun part : Part => bool_decide (is_Some (inlineData part)))
    with hasImage.
  rewrite Hno, Htext. fold quoted.
  destruct (JS.includes (JS.toLowerCase quoted) "cannot"
            || JS.includes (JS.toLowerCase quoted) "sorry") eqn:Hrefusal.
  - eexists. split; [reflexivity|]. split; [reflexivity|].
    split; [reflexivity|]. split; [reflexivity|]. intros _.
    set (e := GenerationError _ _).
    assert (Hsafe : safetyRule (lowered (asRaw e)) = true).
    { unfold e, asRaw, lowered, GenerationError. cbn [message raw_message option_map].
      rewrite ErrorsMore.toLowerCase_app.
      change (JS.toLowerCase "Content blocked: ") with "content blocked: ".
      unfold safetyRule. apply orb_true_iff. left. apply orb_true_iff. right.
      reflexivity. }
    split.
    + unfold classify. rewrite Hsafe.
      destruct (authRule _); [apply list_elem_of_here|].
      destruct (rateRule _);
        [apply list_elem_of_further, list_elem_of_here|].
      apply list_elem_of_further, list_elem_of_further, list_elem_of_here.
    + intros Hauth Hrate. unfold parseApiError.
      now rewrite Hauth, Hrate, Hsafe.
  - eexists. split; [reflexivity|]. split; [reflexivity|].
    split; [reflexivity|]. split; [reflexivity|]. discriminate.
Qed.

(** *** The parts sent *)

(** X15: the request carries the prompt first, then one inline part for
    each reference image that could be read, in the order given; a
    reference that cannot be read is left out and nothing fails, so with
    no readable reference the prompt goes out alone. *)
Theorem contentParts_skips_unreadable (referenceImages : list string) :
  contentParts image referenceImages
  = TextPart (buildPrompt image)
    :: map (fun refPath => InlinePart (getMimeType refPath)
                                      (default "" (readReference refPath)))
           (List.filter (fun refPath => bool_decide (is_Some (readReference refPath)))
                        referenceImages) /\
  (1 <= length (contentParts image referenceImages)
     <= 1 + length referenceImages)%nat /\
  ((forall refPath, refPath ∈ referenceImages -> readReference refPath = None) ->
   contentParts image referenceImages = [TextPart (buildPrompt image)]).
Proof.
  assert (Heq : contentParts image referenceImages
    = TextPart (buildPrompt image)
      :: map (fun refPath => InlinePart (getMimeType refPath)
                                        (default "" (readReference refPath)))
             (List.filter (fun refPath => bool_decide (is_Some (readReference refPath)))
                          referenceImages)).
  { unfold Generator.contentParts. f_equal.
    induction referenceImages as [|refPath rest IH]; [reflexivity|].
    cbn [omap list_omap List.filter].
    destruct (readReference refPath) as [data|] eqn:Hread; simpl.
    - rewrite Hread. simpl. f_equal. exact IH.
    - exact IH. }
  split; [exact Heq|]. split.
  - rewrite Heq. simpl. rewrite length_map.
    pose proof (filter_length_le
                  (fun refPath => bool_decide (is_Some (readReference refPath)))
                  referenceImages).
    lia.
  - intros Hnone. rewrite Heq. f_equal. clear Heq.
    induction referenceImages as [|refPath rest IH]; [reflexivity|].
    simpl. rewrite (Hnone refPath) by (now left). simpl.
    apply IH. intros other Hin. apply Hnone. now right.
Qed.

End Executor.

Lemma processResponse_image_wins_witness :
  Generator.processResponse Sample.outputDir Sample.generateFilename Sample.pathJoin
    (Some [Scenes.textPart "Here is your image."; Scenes.imagePart]) (Sample.image "a")
  = ([MkDir "./output"; WriteFile "./output/a.png" "iVBORw0KGgo="],
     Returned {| success := true; filepath := "./output/a.png";
                 imageId := "a"; filename := "a.png" |}).
Proof.
  destruct (processResponse_image_wins
              Sample.outputDir Sample.buildPrompt Sample.getMimeType
              Sample.readReference Sample.generateFilename Sample.pathJoin
              Sample.succeeding (Sample.image "a")
              [Scenes.textPart "Here is your image."; Scenes.imagePart])
    as (_ & Hfound & _).
  apply (Hfound Scenes.imagePart). reflexivity.
Defined.

Lemma generateImage_writes_on_success_witness :
  writesOf (fst (Sample.generateImage (Sample.rejecting "401 unauthorized")
                   (Sample.image "a") [] None)) = [].
Proof.
  destruct (generateImage_writes_on_success
              Sample.outputDir Sample.buildPrompt Sample.getMimeType
              Sample.readReference Sample.generateFilename Sample.pathJoin
              (Sample.rejecting "401 unauthorized") (Sample.image "a") None [])
    as [_ Hthrown].
  eapply Hthrown. reflexivity.
Defined.

Lemma generateImage_recovers_witness :
  callsOf (fst (Sample.generateImage (Scenes.flaky 2) (Sample.image "a") []
                  (Some Sample.handler))) = [0; 1; 2]%nat /\
  sleepsOf (fst (Sample.generateImage (Scenes.flaky 2) (Sample.image "a") []
                   (Some Sample.handler))) = [1000; 2000].
Proof.
  destruct (generateImage_recovers
              Sample.outputDir Sample.buildPrompt Sample.getMimeType
              Sample.readReference Sample.generateFilename Sample.pathJoin
              (Scenes.flaky 2) (Sample.image "a") (Some Sample.handler) []
              (fun _ => ofString "503 Service Unavailable") 2
              [Scenes.imagePart] Scenes.imagePart)
    as (_ & Hcalls & Hsleeps & _).
  - lia.
  - intros [|[|n]] Hn; [split; reflexivity | split; reflexivity | lia].
  - reflexivity.
  - reflexivity.
  - split; [exact Hcalls | exact Hsleeps].
Defined.

Lemma generateImage_stops_on_fatal_witness :
  snd (Sample.generateImage (Scenes.failing 1 "400 invalid argument")
         (Sample.image "a") [] None)
  = Some (Threw (Some (ConfigError "Invalid request: 400 invalid argument" None))).
Proof.
  destruct (generateImage_stops_on_fatal
              Sample.outputDir Sample.buildPrompt Sample.getMimeType
              Sample.readReference Sample.generateFilename Sample.pathJoin
              (Scenes.failing 1 "400 invalid argument") (Sample.image "a") None []
              (fun n => match n with
                        | O => ofString "503 Service Unavailable"
                        | _ => ofString "400 invalid argument"
                        end) 1)
    as (Hthrown & _).
  - lia.
  - intros [|n] Hn; [split; reflexivity | lia].
  - reflexivity.
  - reflexivity.
  - exact Hthrown.
Defined.


Lemma text_only_answer_witness :
  exists e,
    Generator.processResponse Sample.outputDir Sample.generateFilename
      Sample.pathJoin (Some [Scenes.textPart "Sorry, I cannot draw that."])
      (Sample.image "a") = ([], Threw e) /\
    parseApiError (asRaw e) (Some "a") = safetyError (Some "a").
Proof.
  destruct (text_only_answer
              Sample.outputDir Sample.generateFilename Sample.pathJoin
              (Sample.image "a") [Scenes.textPart "Sorry, I cannot draw that."]
              (Scenes.textPart "Sorry, I cannot draw that.") eq_refl eq_refl)
    as (_ & e & Hrun & _ & _ & Hmsg & Hrefusal).
  exists e. split; [exact Hrun|].
  destruct (Hrefusal eq_refl) as [_ Hsafe].
  apply Hsafe; unfold asRaw; rewrite Hmsg; reflexivity.
Defined.

Lemma contentParts_skips_unreadable_witness :
  Generator.contentParts Sample.buildPrompt Sample.getMimeType Sample.readReference
    (Sample.image "a") ["missing.png"; "gone.jpg"]
  = [TextPart "a banana"].
Proof.
  destruct (contentParts_skips_unreadable
              Sample.buildPrompt Sample.getMimeType Sample.readReference
              (Sample.image "a") ["missing.png"; "gone.jpg"])
    as (_ & _ & Hnone).
  apply Hnone. intros refPath _. reflexivity.
Defined.

End ExecutorMore.

(** ** The batch: what a run leaves behind *)

Module BatchMore.
Import Errors Generator Summary.

(** *** The tracker after a list of outcomes *)

Section Recording.
Variable now : string.
Local Abbreviation recordAll outcomes tr := (fold_left (recordOutcome now) outcomes tr).

Lemma countId_cons (imageId first : string) (ids : list string) :
  countId imageId (first :: ids)
  = (if String.eqb imageId first then 1 else 0) + countId imageId ids.
Proof.
  unfold countId. simpl. destruct (String.eqb imageId first); simpl length; lia.
Qed.

Lemma recordAll_attempts outcomes : forall tr imageId,
  Tracker.getFailedAttempts (recordAll outcomes tr) imageId
  = Tracker.getFailedAttempts tr imageId
    + countId imageId (map failedImageId (failuresOf outcomes)).
Proof.
  induction outcomes as [|res outcomes IH]; intros tr imageId.
  - unfold countId. simpl. lia.
  - simpl fold_left. rewrite IH. destruct res as [result|failedId error].
    + change (failuresOf (Success result :: outcomes)) with (failuresOf outcomes).
      simpl recordOutcome. now rewrite TrackerMore.getFailedAttempts_markCompleted.
    + change (failuresOf (Failure failedId error :: outcomes))
        with ({| failedImageId := failedId; error := error |} :: failuresOf outcomes).
      simpl recordOutcome. cbn [map failedImageId]. rewrite countId_cons.
      destruct (String.eqb_spec imageId failedId) as [->|Hne].
      * rewrite TrackerMore.getFailedAttempts_markFailed_same. lia.
      * rewrite TrackerMore.getFailedAttempts_markFailed_other by exact Hne. lia.
Qed.

Lemma recordAll_completed outcomes : forall tr imageId,
  Tracker.isCompleted (recordAll outcomes tr) imageId
  = Tracker.isCompleted tr imageId
    || Tracker.includes (map Generator.imageId (successesOf outcomes)) imageId.
Proof.
  induction outcomes as [|res outcomes IH]; intros tr imageId.
  - simpl. now rewrite orb_false_r.
  - simpl fold_left. rewrite IH. destruct res as [result|failedId error].
    + change (successesOf (Success result :: outcomes))
        with (result :: successesOf outcomes).
      simpl recordOutcome. rewrite TrackerMore.isCompleted_markCompleted.
      unfold Tracker.includes at 2. cbn [map existsb].
      now rewrite orb_assoc.
    + change (successesOf (Failure failedId error :: outcomes))
        with (successesOf outcomes).
      reflexivity.
Qed.

Lemma recordAll_shrinks outcomes : forall tr R k,
  sublist (Tracker.getRemaining (recordAll outcomes tr) R k)
          (Tracker.getRemaining tr R k).
Proof.
  induction outcomes as [|res outcomes IH]; intros tr R k; [reflexivity|].
  simpl fold_left. etransitivity; [apply IH|].
  destruct res as [result|failedId error]; simpl recordOutcome;
    [apply TrackerMore.markCompleted_shrinks | apply TrackerMore.markFailed_shrinks].
Qed.

End Recording.

(** *** Runs *)

Section Runs.

Variable outputDir : string.
Variable buildPrompt : Image.t -> string.
Variable getMimeType : string -> string.
Variable readReference : string -> option string.
Variable generateFilename : Image.t -> string.
Variable pathJoin : string -> string -> string.
Variable remote : Image.t -> list ContentPart -> nat -> RemoteOutcome.
Variable now : string.

Local Abbreviation generateBatch :=
  (generateBatch outputDir buildPrompt getMimeType readReference
                 generateFilename pathJoin remote now).
Local Abbreviation settle :=
  (settle outputDir buildPrompt getMimeType readReference
          generateFilename pathJoin remote).
Local Abbreviation batchSpec :=
  (BatchFacts.generateBatch_spec outputDir buildPrompt getMimeType readReference
     generateFilename pathJoin remote now).
Local Abbreviation started tr options :=
  (if freshStart options then Tracker.clear tr now else tr).
Local Abbreviation remainingOf tr images options :=
  (Tracker.getRemaining (started tr options) images None).

(** A run that returns, with what it returns. *)
Local Abbreviation returns fuel tr images options results tr' :=
  (generateBatch fuel tr images options = Some (Returned (results, tr'))).

Lemma run_inversion fuel tr images options results tr' :
  0 < default 5 (concurrency options) ->
  (length images < fuel)%nat ->
  returns fuel tr images options results tr' ->
  exists outcomes,
    Forall2 (fun image res =>
               settle (collectReferences (getReferenceImages options)
                                         (remainingOf tr images options))
                      (onProgress options) image = Some res)
            (remainingOf tr images options) outcomes /\
    successful results = successesOf outcomes /\
    failed results = failuresOf outcomes /\
    skipped results
    = Z.of_nat (length images) - Z.of_nat (length (remainingOf tr images options)) /\
    tr' = fold_left (recordOutcome now) outcomes (started tr options).
Proof.
  intros Hsize Hfuel Hrun.
  destruct (batchSpec tr images options fuel Hsize Hfuel) as (outcomes & Hout & Heq).
  rewrite Heq in Hrun. injection Hrun as <- <-.
  exists outcomes. now repeat split.
Qed.

Lemma run_records fuel tr images options results tr' :
  0 < default 5 (concurrency options) ->
  (length images < fuel)%nat ->
  returns fuel tr images options results tr' ->
  forall imageId,
    Tracker.getFailedAttempts tr' imageId
    = Tracker.getFailedAttempts (started tr options) imageId
      + countId imageId (failedIds results) /\
    Tracker.isCompleted tr' imageId
    = Tracker.isCompleted (started tr options) imageId
      || Tracker.includes (succeededIds results) imageId.
Proof.
  intros Hsize Hfuel Hrun imageId.
  destruct (run_inversion _ _ _ _ _ _ Hsize Hfuel Hrun)
    as (outcomes & _ & Hs & Hf & _ & ->).
  unfold failedIds, succeededIds. rewrite Hs, Hf.
  split; [apply recordAll_attempts | apply recordAll_completed].
Qed.

(** X16: what a run records.  For every id, the failed-attempt count
    after the run is the count with which the run started plus the
    number of failures the summary lists for that id: one per failed
    request, however many calls the executor made for it.  An id is
    completed after the run exactly if it was when the run started or is
    among the successes of the summary. *)
Theorem generateBatch_records fuel tr images options results tr' :
  0 < default 5 (concurrency options) ->
  (length images < fuel)%nat ->
  returns fuel tr images options results tr' ->
  forall imageId,
    Tracker.getFailedAttempts tr' imageId
    = Tracker.getFailedAttempts (started tr options) imageId
      + countId imageId (failedIds results) /\
    Tracker.isCompleted tr' imageId
    = Tracker.isCompleted (started tr options) imageId
      || Tracker.includes (succeededIds results) imageId.
Proof.
  intros Hsize Hfuel Hrun imageId.
  destruct (run_inversion _ _ _ _ _ _ Hsize Hfuel Hrun)
    as (outcomes & _ & Hs & Hf & _ & ->).
  unfold failedIds, succeededIds. rewrite Hs, Hf.
  split; [apply recordAll_attempts | apply recordAll_completed].
Qed.

(** X17: resuming.  After a run, a further run over the same list
    (without fresh start) takes up a sub-sequence of what the first one
    took up; it takes up no request whose id succeeded, and it takes up
    a request of the list exactly if its id is still not completed and
    its failed attempts, those of the first run included, are fewer than
    three. *)
Theorem generateBatch_resume fuel tr images options results tr' :
  0 < default 5 (concurrency options) ->
  (length images < fuel)%nat ->
  returns fuel tr images options results tr' ->
  sublist (Tracker.getRemaining tr' images None) (remainingOf tr images options) /\
  (forall r, r ∈ Tracker.getRemaining tr' images None ->
             Image.id r ∉ succeededIds results) /\
  (forall r,
     r ∈ Tracker.getRemaining tr' images None <->
     r ∈ images /\
     Tracker.isCompleted (started tr options) (Image.id r) = false /\
     (Image.id r ∉ succeededIds results) /\
     Tracker.getFailedAttempts (started tr options) (Image.id r)
     + countId (Image.id r) (failedIds results) < 3).
Proof.
  intros Hsize Hfuel Hrun.
  pose proof (run_records _ _ _ _ _ _ Hsize Hfuel Hrun) as Hrec.
  assert (Hchar : forall r,
     r ∈ Tracker.getRemaining tr' images None <->
     r ∈ images /\
     Tracker.isCompleted (started tr options) (Image.id r) = false /\
     (Image.id r ∉ succeededIds results) /\
     Tracker.getFailedAttempts (started tr options) (Image.id r)
     + countId (Image.id r) (failedIds results) < 3).
  { intros r. rewrite TrackerFacts.elem_of_getRemaining.
    destruct (Hrec (Image.id r)) as [Hf Hc].
    rewrite Hf. change (default 3 None) with 3.
    rewrite <- TrackerFacts.includes_elem_of.
    fold (Tracker.isCompleted tr' (Image.id r)). rewrite Hc.
    rewrite <- (TrackerFacts.includes_elem_of (succeededIds results)).
    destruct (Tracker.isCompleted (started tr options) (Image.id r));
      destruct (Tracker.includes (succeededIds results) (Image.id r));
      simpl; intuition congruence. }
  split; [|split; [|exact Hchar]].
  - destruct (run_inversion _ _ _ _ _ _ Hsize Hfuel Hrun)
      as (outcomes & _ & _ & _ & _ & ->).
    apply recordAll_shrinks.
  - intros r Hr. apply Hchar in Hr. tauto.
Qed.

(** X18: a fresh start forgets the past.  With [freshStart] every
    request of the list is taken up and [skipped] is 0, whatever the
    tracker held; after the run the failed attempts of an id are the
    failures of this run alone and the completed ids are its successes
    alone. *)
Theorem generateBatch_fresh_start fuel tr images options results tr' :
  freshStart options = true ->
  0 < default 5 (concurrency options) ->
  (length images < fuel)%nat ->
  returns fuel tr images options results tr' ->
  remainingOf tr images options = images /\
  skipped results = 0 /\
  (length (successful results) + length (failed results) = length images)%nat /\
  forall imageId,
    Tracker.getFailedAttempts tr' imageId = countId imageId (failedIds results) /\
    Tracker.isCompleted tr' imageId = Tracker.includes (succeededIds results) imageId.
Proof.
  intros Hfresh Hsize Hfuel Hrun.
  pose proof (run_records _ _ _ _ _ _ Hsize Hfuel Hrun) as Hrec.
  destruct (run_inversion _ _ _ _ _ _ Hsize Hfuel Hrun)
    as (outcomes & Hout & Hs & Hf & Hskip & _).
  rewrite Hfresh in *.
  assert (Hall : Tracker.getRemaining (Tracker.clear tr now) images None = images).
  { now apply BatchFacts.getRemaining_fresh. }
  rewrite Hall in *.
  split; [reflexivity|]. split; [lia|]. split.
  - rewrite Hs, Hf, (Forall2_length _ _ _ Hout).
    apply BatchFacts.outcomes_split.
  - intros imageId. destruct (Hrec imageId) as [-> ->]. split; reflexivity.
Qed.

(** Nothing to do: when no request of the list is remaining (the
    list is empty, or all are completed or out of retries),
    [generateBatch] returns at once, for any concurrency, positive or
    not: the summary has no success and no failure, [skipped] is the
    length of the list, and the tracker is the one the run started
    with. *)
Theorem generateBatch_nothing_to_do fuel tr images options :
  remainingOf tr images options = [] ->
  (0 < fuel)%nat ->
  generateBatch fuel tr images options
  = Some (Returned ({| successful := []; failed := [];
                       skipped := Z.of_nat (length images) |},
                    started tr options)).
Proof.
  intros Hnone Hfuel. unfold Generator.generateBatch. rewrite Hnone.
  destruct fuel as [|fuel]; [lia|]. simpl.
  now rewrite Z.sub_0_r.
Qed.

(** X19: a concurrency that is not positive.  With [concurrency <= 0]
    and at least one request remaining, the chunking loop never
    advances and [generateBatch] does not return, whatever the fuel. *)
Theorem generateBatch_needs_positive_concurrency tr images options :
  default 5 (concurrency options) <= 0 ->
  remainingOf tr images options <> [] ->
  forall fuel, generateBatch fuel tr images options = None.
Proof.
  intros Hsize Hsome fuel. unfold Generator.generateBatch, chunkArray.
  now rewrite (ChunkFacts.chunkLoop_diverges _ _ Hsize Hsome fuel 0 []).
Qed.



Lemma sublist_map {A B : Type} (f : A -> B) (l1 l2 : list A) :
  sublist l1 l2 -> sublist (map f l1) (map f l2).
Proof. induction 1; simpl; now constructor. Qed.

Lemma sublist_omap_map {A B : Type} (f : A -> option B) (g : B -> string)
    (h : A -> string) (l : list A) :
  (forall a b, f a = Some b -> g b = h a) ->
  sublist (map g (omap f l)) (map h l).
Proof.
  intros Hfg. induction l as [|a l IH]; [constructor|].
  cbn [omap list_omap map]. destruct (f a) as [b|] eqn:Hf.
  - cbn [map]. rewrite (Hfg a b Hf). now constructor.
  - now constructor.
Qed.

(** X21: the summary follows the request list.  The ids of the
    successes, and the ids of the failures, come in the order in which
    their requests stand in the list given to [generateBatch], whatever
    the grouping. *)
Theorem generateBatch_keeps_order fuel tr images options results tr' :
  0 < default 5 (concurrency options) ->
  (length images < fuel)%nat ->
  returns fuel tr images options results tr' ->
  sublist (succeededIds results) (map Image.id images) /\
  sublist (failedIds results) (map Image.id images).
Proof.
  intros Hsize Hfuel Hrun.
  destruct (run_inversion _ _ _ _ _ _ Hsize Hfuel Hrun)
    as (outcomes & Hout & Hs & Hf & _ & _).
  pose proof (BatchFacts.settles_ids outputDir buildPrompt getMimeType
                readReference generateFilename pathJoin remote _ _ _ _ Hout) as Hids.
  assert (Hrem : sublist (map Image.id (remainingOf tr images options))
                         (map Image.id images)).
  { apply sublist_map, TrackerFacts.filter_sublist. }
  unfold succeededIds, failedIds. rewrite Hs, Hf. split.
  - etransitivity; [|exact Hrem]. rewrite <- Hids.
    apply sublist_omap_map. intros [r|i e] b H; inversion H; reflexivity.
  - etransitivity; [|exact Hrem]. rewrite <- Hids.
    apply sublist_omap_map. intros [r|i e] b H; inversion H; reflexivity.
Qed.

End Runs.

(** *** The reference images of a request *)

Lemma referencesFor_insert (m : gmap string (list string)) (key : string)
    (refs : list string) (image : Image.t) :
  referencesFor (<[key := refs]> m) image
  = if String.eqb key (Image.id image) then refs else referencesFor m image.
Proof.
  unfold referencesFor.
  destruct (String.eqb_spec key (Image.id image)) as [->|Hne].
  - now rewrite lookup_insert_eq.
  - now rewrite lookup_insert_ne.
Qed.

Lemma collect_fold (f : Image.t -> list string) (requests : list Image.t) :
  forall (m : gmap string (list string)) (image : Image.t),
    referencesFor
      (fold_left (fun m r => <[Image.id r := f r]> m) requests m) image
    = match lastWithId image requests with
      | Some r => f r
      | None => referencesFor m image
      end.
Proof.
  unfold lastWithId.
  induction requests as [|first rest IH]; intros m image; [reflexivity|].
  cbn [fold_left List.filter]. rewrite IH, referencesFor_insert.
  destruct (String.eqb (Image.id first) (Image.id image)); [|reflexivity].
  rewrite last_cons. now destruct (last _).
Qed.

(** X22: the reference images handed to the executor.  Without a
    collector every request gets none.  With a collector, a request gets
    what the collector gave for the last remaining request that has its
    id: when the ids of the remaining requests are all different that is
    what the collector gave for the request itself, and when two
    requests share an id both get the references collected for the later
    one. *)
Theorem references_last_wins (remaining : list Image.t) (image : Image.t) :
  referencesFor (collectReferences None remaining) image = [] /\
  (forall f,
     referencesFor (collectReferences (Some f) remaining) image
     = match lastWithId image remaining with
       | Some r => f r
       | None => []
       end) /\
  (forall f,
     image ∈ remaining -> NoDup (map Image.id remaining) ->
     referencesFor (collectReferences (Some f) remaining) image = f image).
Proof.
  assert (Hlast : forall f,
     referencesFor (collectReferences (Some f) remaining) image
     = match lastWithId image remaining with
       | Some r => f r
       | None => []
       end).
  { intros f. unfold collectReferences. now rewrite collect_fold. }
  split; [reflexivity|]. split; [exact Hlast|].
  intros f Hin Hnodup. rewrite Hlast.
  assert (Hself : lastWithId image remaining = Some image); [|now rewrite Hself].
  unfold lastWithId. clear Hlast.
  induction remaining as [|first rest IH]; [now apply elem_of_nil in Hin|].
  cbn [map] in Hnodup. apply NoDup_cons in Hnodup. destruct Hnodup as [Hfresh Hnodup].
  cbn [List.filter]. apply elem_of_cons in Hin. destruct Hin as [->|Hin].
  - rewrite String.eqb_refl, last_cons.
    assert (Hnone : List.filter
                      (fun r => String.eqb (Image.id r) (Image.id first)) rest = []).
    { clear IH Hnodup. induction rest as [|r rest IH]; [reflexivity|].
      cbn [List.filter].
      destruct (String.eqb_spec (Image.id r) (Image.id first)) as [Heq|_].
      - exfalso. apply Hfresh. rewrite <- Heq. cbn [map]. apply list_elem_of_here.
      - apply IH. intros Hin. apply Hfresh. cbn [map].
        now apply list_elem_of_further. }
    now rewrite Hnone.
  - destruct (String.eqb_spec (Image.id first) (Image.id image)) as [Heq|_].
    + exfalso. apply Hfresh. rewrite Heq.
      apply list_elem_of_In, in_map, list_elem_of_In, Hin.
    + now apply IH.
Qed.

Lemma references_last_wins_witness :
  referencesFor
    (collectReferences (Some (fun r => [Image.title r]))
       [Image.mk "a" None "first" "1:1" "p"; Image.mk "b" None "other" "1:1" "p"])
    (Image.mk "a" None "first" "1:1" "p")
  = ["first"].
Proof.
  destruct (references_last_wins
              [Image.mk "a" None "first" "1:1" "p";
               Image.mk "b" None "other" "1:1" "p"]
              (Image.mk "a" None "first" "1:1" "p")) as (_ & _ & Hself).
  apply (Hself (fun r => [Image.title r])).
  - apply list_elem_of_here.
  - cbn [map Image.id]. apply NoDup_cons. split.
    + intros Hin. apply list_elem_of_singleton in Hin. discriminate.
    + apply NoDup_singleton.
Defined.

(** *** The statements above on sample runs *)

Ltac sample_run Hrun :=
  match goal with
  | |- context [Sample.generateBatch ?remote ?fuel ?tr ?images ?options] =>
      destruct (Sample.generateBatch remote fuel tr images options)
        as [[[results tr']|thrown]|] eqn:Hrun;
      [| vm_compute in Hrun; discriminate Hrun
       | vm_compute in Hrun; discriminate Hrun]
  end.

Lemma generateBatch_records_witness :
  exists results tr',
    Sample.generateBatch (Sample.rejecting "503 Service Unavailable") 3
      (Tracker.create None "t0") [Sample.image "a"; Sample.image "b"]
      Sample.defaults
    = Some (Returned (results, tr')) /\
    Tracker.getFailedAttempts tr' "a"
    = Tracker.getFailedAttempts (Tracker.create None "t0") "a"
      + countId "a" (failedIds results).
Proof.
  sample_run Hrun. exists results, tr'. split; [reflexivity|].
  refine (proj1 (generateBatch_records
                   Sample.outputDir Sample.buildPrompt Sample.getMimeType
                   Sample.readReference Sample.generateFilename Sample.pathJoin
                   (Sample.rejecting "503 Service Unavailable") Sample.now 3
                   (Tracker.create None "t0") [Sample.image "a"; Sample.image "b"]
                   Sample.defaults results tr' _ _ Hrun "a")).
  - simpl. lia.
  - simpl. lia.
Defined.

Lemma generateBatch_resume_witness :
  exists results tr',
    Sample.generateBatch Sample.succeeding 3
      (Tracker.create None "t0") [Sample.image "a"; Sample.image "b"]
      Sample.defaults
    = Some (Returned (results, tr')) /\
    sublist (Tracker.getRemaining tr' [Sample.image "a"; Sample.image "b"] None)
            [Sample.image "a"; Sample.image "b"].
Proof.
  sample_run Hrun. exists results, tr'. split; [reflexivity|].
  refine (proj1 (generateBatch_resume
                   Sample.outputDir Sample.buildPrompt Sample.getMimeType
                   Sample.readReference Sample.generateFilename Sample.pathJoin
                   Sample.succeeding Sample.now 3
                   (Tracker.create None "t0") [Sample.image "a"; Sample.image "b"]
                   Sample.defaults results tr' _ _ Hrun)).
  - simpl. lia.
  - simpl. lia.
Defined.

Lemma generateBatch_fresh_start_witness :
  exists results tr',
    Sample.generateBatch Sample.succeeding 3
      (Tracker.markCompleted (Tracker.create None "t0") "a")
      [Sample.image "a"; Sample.image "b"]
      (withConcurrency
         {| onProgress := None; getReferenceImages := None;
            freshStart := true; concurrency := None |} None)
    = Some (Returned (results, tr')) /\
    skipped results = 0.
Proof.
  sample_run Hrun. exists results, tr'. split; [reflexivity|].
  refine (proj1 (proj2 (generateBatch_fresh_start
                   Sample.outputDir Sample.buildPrompt Sample.getMimeType
                   Sample.readReference Sample.generateFilename Sample.pathJoin
                   Sample.succeeding Sample.now 3
                   (Tracker.markCompleted (Tracker.create None "t0") "a")
                   [Sample.image "a"; Sample.image "b"]
                   (withConcurrency
                      {| onProgress := None; getReferenceImages := None;
                         freshStart := true; concurrency := None |} None)
                   results tr' eq_refl _ _ Hrun))).
  - simpl. lia.
  - simpl. lia.
Defined.

Lemma generateBatch_nothing_to_do_witness :
  Sample.generateBatch Sample.succeeding 1
    (Tracker.markCompleted (Tracker.create None "t0") "a") [Sample.image "a"]
    (withConcurrency Sample.defaults (Some 0))
  = Some (Returned ({| successful := []; failed := []; skipped := 1 |},
                    Tracker.markCompleted (Tracker.create None "t0") "a")).
Proof.
  apply (generateBatch_nothing_to_do
           Sample.outputDir Sample.buildPrompt Sample.getMimeType
           Sample.readReference Sample.generateFilename Sample.pathJoin
           Sample.succeeding Sample.now 1
           (Tracker.markCompleted (Tracker.create None "t0") "a")
           [Sample.image "a"] (withConcurrency Sample.defaults (Some 0))).
  - reflexivity.
  - lia.
Defined.

Lemma generateBatch_needs_positive_concurrency_witness :
  Sample.generateBatch Sample.succeeding 1000 (Tracker.create None "t0")
    [Sample.image "a"] (withConcurrency Sample.defaults (Some 0)) = None.
Proof.
  apply (generateBatch_needs_positive_concurrency
           Sample.outputDir Sample.buildPrompt Sample.getMimeType
           Sample.readReference Sample.generateFilename Sample.pathJoin
           Sample.succeeding Sample.now (Tracker.create None "t0")
           [Sample.image "a"] (withConcurrency Sample.defaults (Some 0))).
  - simpl. lia.
  - discriminate.
Defined.


Lemma generateBatch_keeps_order_witness :
  exists results tr',
    Sample.generateBatch Sample.succeeding 4 (Tracker.create None "t0")
      [Sample.image "a"; Sample.image "b"; Sample.image "c"]
      (withConcurrency Sample.defaults (Some 2))
    = Some (Returned (results, tr')) /\
    sublist (succeededIds results) ["a"; "b"; "c"].
Proof.
  sample_run Hrun. exists results, tr'. split; [reflexivity|].
  refine (proj1 (generateBatch_keeps_order
                   Sample.outputDir Sample.buildPrompt Sample.getMimeType
                   Sample.readReference Sample.generateFilename Sample.pathJoin
                   Sample.succeeding Sample.now 4 (Tracker.create None "t0")
                   [Sample.image "a"; Sample.image "b"; Sample.image "c"]
                   (withConcurrency Sample.defaults (Some 2)) results tr'
                   _ _ Hrun)).
  - simpl. lia.
  - simpl. lia.
Defined.

End BatchMore.

(** ** Strings: substrings and joins *)

Module StringFacts.
Import JS PromptBuilder.

Lemma append_cons (x : ascii) (a b : string) :
  String x a +:+ b = String x (a +:+ b).
Proof. reflexivity. Qed.

Lemma append_nil_l (a : string) : "" +:+ a = a.
Proof. reflexivity. Qed.

Lemma append_assoc (a b c : string) : (a +:+ b) +:+ c = a +:+ b +:+ c.
Proof.
  induction a as [|x a IH]; [reflexivity|].
  rewrite !append_cons. now rewrite IH.
Qed.

Lemma append_nil_r (a : string) : a +:+ "" = a.
Proof.
  induction a as [|x a IH]; [reflexivity|]. rewrite append_cons. now rewrite IH.
Qed.

Lemma append_not_empty_r (a b : string) : b <> "" -> a +:+ b <> "".
Proof. destruct a; [tauto | rewrite append_cons; discriminate]. Qed.

Lemma startsWith_iff (s p : string) :
  startsWith s p = true <-> exists c, s = p +:+ c.
Proof.
  revert p. induction s as [|x s IH]; intros [|y p]; simpl startsWith.
  - split; [now exists "" | reflexivity].
  - split; [discriminate | intros (c & H); rewrite append_cons in H; discriminate].
  - split; [now exists (String x s) | reflexivity].
  - destruct (Ascii.eqb_spec y x) as [->|Hne].
    + rewrite IH. split; intros (c & H); exists c.
      * rewrite append_cons. congruence.
      * rewrite append_cons in H. congruence.
    + split; [discriminate|].
      intros (c & H). rewrite append_cons in H. congruence.
Qed.

Lemma includes_iff (s p : string) :
  includes s p = true <-> exists a c, s = a +:+ p +:+ c.
Proof.
  induction s as [|x s IH].
  - change (includes "" p) with (startsWith "" p || false).
    rewrite orb_false_r, startsWith_iff. split.
    + intros (c & H). now exists "", c.
    + intros ([|y a] & c & H); [now exists c | rewrite append_cons in H; discriminate].
  - change (includes (String x s) p)
      with (startsWith (String x s) p || includes s p).
    rewrite orb_true_iff, startsWith_iff, IH. split.
    + intros [(c & H)|(a & c & H)].
      * now exists "", c.
      * exists (String x a), c. rewrite append_cons. now rewrite H.
    + intros ([|y a] & c & H).
      * left. now exists c.
      * right. exists a, c. rewrite append_cons in H. congruence.
Qed.

Lemma includes_infix (a p c : string) : includes (a +:+ p +:+ c) p = true.
Proof. apply includes_iff. now exists a, c. Qed.

Lemma includes_refl (s : string) : includes s s = true.
Proof.
  apply includes_iff. exists "", "". now rewrite append_nil_l, append_nil_r.
Qed.

Lemma includes_trans (s t u : string) :
  includes s t = true -> includes t u = true -> includes s u = true.
Proof.
  rewrite !includes_iff. intros (a & c & ->) (a' & c' & ->).
  exists (a +:+ a'), (c' +:+ c). now rewrite !append_assoc.
Qed.

Lemma includes_app_r (a s p : string) :
  includes s p = true -> includes (a +:+ s) p = true.
Proof.
  rewrite !includes_iff. intros (a' & c & ->). exists (a +:+ a'), c.
  now rewrite append_assoc.
Qed.

Lemma includes_app_l (s c p : string) :
  includes s p = true -> includes (s +:+ c) p = true.
Proof.
  rewrite !includes_iff. intros (a & c' & ->). exists a, (c' +:+ c).
  now rewrite !append_assoc.
Qed.

Lemma join_cons (sep x : string) (rest : list string) :
  rest <> [] -> join sep (x :: rest) = x +:+ sep +:+ join sep rest.
Proof. destruct rest; [congruence | reflexivity]. Qed.

Lemma join_app (sep : string) (l1 l2 : list string) :
  l1 <> [] -> l2 <> [] ->
  join sep (l1 ++ l2) = join sep l1 +:+ sep +:+ join sep l2.
Proof.
  intros H1 H2. induction l1 as [|x l1 IH]; [congruence|].
  destruct l1 as [|y l1].
  - simpl app. now rewrite join_cons.
  - change ((x :: y :: l1) ++ l2) with (x :: ((y :: l1) ++ l2)).
    rewrite join_cons by discriminate.
    rewrite IH by discriminate.
    rewrite (join_cons sep x (y :: l1)) by discriminate.
    now rewrite !append_assoc.
Qed.

(** Every item shows in the joined text. *)
Lemma includes_join (sep : string) (l : list string) (x : string) :
  x ∈ l -> includes (join sep l) x = true.
Proof.
  induction l as [|y l IH]; intros Hin; [now apply elem_of_nil in Hin|].
  destruct l as [|z l].
  - apply list_elem_of_singleton in Hin. subst. apply includes_refl.
  - rewrite join_cons by discriminate.
    apply elem_of_cons in Hin. destruct Hin as [->|Hin].
    + apply includes_app_l, includes_refl.
    + apply includes_app_r, includes_app_r. now apply IH.
Qed.

Lemma join_not_empty (sep : string) (l : list string) :
  l <> [] -> (forall x, x ∈ l -> x <> "") -> join sep l <> "".
Proof.
  intros Hne Hall. destruct l as [|x l]; [congruence|].
  assert (Hx : x <> "") by (apply Hall; apply list_elem_of_here).
  destruct l as [|y l]; [exact Hx|].
  rewrite join_cons by discriminate.
  destruct x; [congruence | rewrite append_cons; discriminate].
Qed.

End StringFacts.

(** ** The prompt builder *)

Module PromptFacts.
Import PromptBuilder StringFacts.

Lemma stripSpaces_idem (s : string) : stripSpaces (stripSpaces s) = stripSpaces s.
Proof.
  induction s as [|c s IH]; [reflexivity|]. simpl.
  destruct (isSpace c) eqn:Hc; [exact IH|]. simpl. now rewrite Hc, IH.
Qed.

Lemma supported_stripped (r : string) : r ∈ supported -> stripSpaces r = r.
Proof.
  unfold supported. intros Hin.
  repeat (apply elem_of_cons in Hin; destruct Hin as [->|Hin]; [reflexivity|]).
  now apply elem_of_nil in Hin.
Qed.

Lemma supported_eqb (r : string) :
  existsb (String.eqb r) supported = true <-> r ∈ supported.
Proof.
  rewrite existsb_exists, list_elem_of_In. split.
  - intros (x & Hin & Heq). apply String.eqb_eq in Heq. now subst.
  - intros Hin. exists r. split; [exact Hin | apply String.eqb_refl].
Qed.

(** X23: [normalizeAspectRatio] always answers with one of the ten
    supported ratios.  A supported ratio comes back as it is; white
    space anywhere in the input does not count; anything else becomes
    "16:9"; and normalizing twice is normalizing once. *)
Theorem normalizeAspectRatio_closed (aspectRatio : string) :
  normalizeAspectRatio aspectRatio ∈ supported /\
  (aspectRatio ∈ supported -> normalizeAspectRatio aspectRatio = aspectRatio) /\
  normalizeAspectRatio (stripSpaces aspectRatio) = normalizeAspectRatio aspectRatio /\
  ((stripSpaces aspectRatio ∉ supported) -> normalizeAspectRatio aspectRatio = "16:9") /\
  normalizeAspectRatio (normalizeAspectRatio aspectRatio)
  = normalizeAspectRatio aspectRatio.
Proof.
  assert (Hin : forall r, normalizeAspectRatio r ∈ supported).
  { intros r. unfold normalizeAspectRatio.
    destruct (existsb _ supported) eqn:Hex.
    - now apply supported_eqb.
    - unfold supported. apply list_elem_of_further, list_elem_of_here. }
  assert (Hfix : forall r, r ∈ supported -> normalizeAspectRatio r = r).
  { intros r Hr. unfold normalizeAspectRatio.
    rewrite (supported_stripped r Hr).
    now rewrite (proj2 (supported_eqb r) Hr). }
  split; [apply Hin|]. split; [apply Hfix|]. split; [|split].
  - unfold normalizeAspectRatio. now rewrite stripSpaces_idem.
  - intros Hout. unfold normalizeAspectRatio.
    destruct (existsb _ supported) eqn:Hex; [|reflexivity].
    apply supported_eqb in Hex. contradiction.
  - apply Hfix, Hin.
Qed.

Lemma normalizeAspectRatio_closed_witness :
  normalizeAspectRatio " 16 : 9 " = "16:9" /\ normalizeAspectRatio "4:3" = "4:3".
Proof.
  split.
  - destruct (normalizeAspectRatio_closed " 16 : 9 ") as (_ & _ & Hstrip & _).
    rewrite <- Hstrip.
    destruct (normalizeAspectRatio_closed (stripSpaces " 16 : 9 "))
      as (_ & Hfix & _).
    apply Hfix. vm_compute. apply list_elem_of_further, list_elem_of_here.
  - destruct (normalizeAspectRatio_closed "4:3") as (_ & Hfix & _).
    apply Hfix. unfold supported.
    do 8 apply list_elem_of_further. apply list_elem_of_here.
Defined.

Lemma pushIf_nil (cond : bool) (line : string) : pushIf cond line = [] <-> cond = false.
Proof. destruct cond; simpl; split; congruence. Qed.

Lemma styleParts_nil (st : ImageStyle) :
  styleParts st = [] <->
  JS.truthy (lighting st) = false /\ JS.truthy (detail_level st) = false /\
  JS.truthy (ui_fidelity st) = false /\ JS.truthy (mood st) = false.
Proof.
  unfold styleParts.
  destruct (JS.truthy (lighting st)), (JS.truthy (detail_level st)),
    (JS.truthy (ui_fidelity st)), (JS.truthy (mood st)); simpl;
    split; intros H; try discriminate; try reflexivity;
    repeat match goal with H : _ /\ _ |- _ => destruct H end;
    try discriminate; now repeat split.
Qed.

(** X24: the image-specific style.  [formatImageStyle] gives the empty
    string exactly when there is no style object or none of its four
    attributes is set (a missing or empty value does not count).
    [buildPrompt] then ends with the main prompt; otherwise it is the
    same text followed by a blank line, the heading "=== IMAGE-SPECIFIC
    STYLE ===" and the formatted style, which ends with a full stop. *)
Theorem style_section_when_set (styleGuide : StyleGuide) (image : Image.t)
    (style : option ImageStyle) :
  (formatImageStyle style = "" <->
   style = None \/
   exists st, style = Some st /\
     JS.truthy (lighting st) = false /\ JS.truthy (detail_level st) = false /\
     JS.truthy (ui_fidelity st) = false /\ JS.truthy (mood st) = false) /\
  (formatImageStyle style = "" ->
   buildPrompt styleGuide image style = buildPrompt styleGuide image None /\
   exists before, buildPrompt styleGuide image style
                  = before +:+ JS.newline +:+ "=== MAIN PROMPT ==="
                    +:+ JS.newline +:+ Image.prompt image) /\
  (formatImageStyle style <> "" ->
   buildPrompt styleGuide image style
   = buildPrompt styleGuide image None
     +:+ JS.newline +:+ JS.newline +:+ "=== IMAGE-SPECIFIC STYLE ===" +:+ JS.newline
     +:+ formatImageStyle style /\
   exists body, formatImageStyle style = body +:+ ".").
Proof.
  split; [|split].
  - destruct style as [st|]; simpl.
    + destruct (styleParts st) as [|part parts] eqn:Hparts.
      * apply styleParts_nil in Hparts. split; [|reflexivity].
        intros _. right. exists st. now split.
      * split.
        -- intros H. exfalso. revert H. apply append_not_empty_r. discriminate.
        -- intros [H|(st' & H & Hfalsy)]; [discriminate|].
           injection H as <-. apply styleParts_nil in Hfalsy. congruence.
    + split; [now left | reflexivity].
  - intros Hempty. unfold buildPrompt. rewrite Hempty. simpl JS.truthy. cbv iota.
    split; [reflexivity|].
    exists ("=== STYLE GUIDE ===" +:+ JS.newline +:+ formatStyleGuide styleGuide
            +:+ JS.newline +:+ "" +:+ JS.newline +:+ "=== IMAGE REQUEST ==="
            +:+ JS.newline +:+ ("Title: " +:+ Image.title image)
            +:+ JS.newline +:+ ("Section: " +:+ JS.show (Image.section image))
            +:+ JS.newline +:+ ("Aspect Ratio: " +:+ Image.aspect_ratio image)
            +:+ JS.newline +:+ "").
    cbn [join]. rewrite !append_assoc. reflexivity.
  - intros Hset. split.
    + unfold buildPrompt.
      assert (Ht : JS.truthy (Some (formatImageStyle style)) = true).
      { destruct (formatImageStyle style); [congruence | reflexivity]. }
      rewrite Ht. simpl formatImageStyle at 2. simpl JS.truthy. cbv iota.
      rewrite join_app by discriminate.
      cbn [join]. rewrite !append_assoc. reflexivity.
    + destruct style as [st|]; [|now elim Hset]. simpl in Hset |- *.
      destruct (styleParts st); [now elim Hset | eauto].
Qed.

Lemma style_section_when_set_witness :
  let styleGuide := mkStyleGuide None (mkDefinition None None None None None None) in
  let image := Image.mk "hero" None "Hero" "16:9" "a banana" in
  let style := Some (mkImageStyle (Some "soft") None None (Some "calm")) in
  buildPrompt styleGuide image style
  = buildPrompt styleGuide image None
    +:+ JS.newline +:+ JS.newline +:+ "=== IMAGE-SPECIFIC STYLE ===" +:+ JS.newline
    +:+ "Lighting: soft. Mood: calm.".
Proof.
  intros styleGuide image style.
  destruct (style_section_when_set styleGuide image style) as (_ & _ & Hset).
  apply Hset. vm_compute. discriminate.
Defined.

Lemma includes_prefixed_join (head sep line : string) (lines : list string) :
  line ∈ lines -> JS.includes (head +:+ join sep lines) line = true.
Proof. intros Hin. now apply includes_app_r, includes_join. Qed.

Lemma elem_of_pushIf (cond : bool) (line x : string) :
  x ∈ pushIf cond line <-> cond = true /\ x = line.
Proof.
  destruct cond; simpl.
  - rewrite list_elem_of_singleton. tauto.
  - split; [intros H; now apply elem_of_nil in H | intros [H _]; discriminate].
Qed.

(** Every line of a group is inside one of the sections. *)
Lemma groupLine_in_section (sg : StyleGuideDefinition) (line : string) :
  line ∈ groupLines sg ->
  exists section, section ∈ sections sg /\ JS.includes section line = true.
Proof.
  unfold groupLines, sections. rewrite !elem_of_app.
  intros [H|[H|[H|[H|[H|H]]]]].
  - exists line. rewrite !elem_of_app. split; [tauto | apply includes_refl].
  - destruct (palette sg) as [p|]; [|now apply elem_of_nil in H].
    eexists. rewrite !elem_of_app. split.
    + right. left. apply elem_of_pushIf. split; [|reflexivity].
      destruct (paletteLines p); [now apply elem_of_nil in H | reflexivity].
    + rewrite <- append_assoc. now apply includes_prefixed_join.
  - destruct (ui_style sg) as [ui|]; [|now apply elem_of_nil in H].
    eexists. rewrite !elem_of_app. split.
    + right. right. left. apply elem_of_pushIf. split; [|reflexivity].
      destruct (uiLines ui); [now apply elem_of_nil in H | reflexivity].
    + rewrite <- append_assoc. now apply includes_prefixed_join.
  - exists line. rewrite !elem_of_app. split; [tauto | apply includes_refl].
  - exists line. rewrite !elem_of_app. split; [tauto | apply includes_refl].
  - exists line. rewrite !elem_of_app. split; [tauto | apply includes_refl].
Qed.

Lemma sections_nil (sg : StyleGuideDefinition) :
  sections sg = [] <-> groupLines sg = [].
Proof.
  unfold sections, groupLines.
  destruct (nonEmpty (brand_keywords sg)), (nonEmpty (typography_feel sg)),
    (nonEmpty (visual_motifs sg)), (nonEmpty (avoid sg));
    cbn [pushIf app]; try (split; discriminate).
  all: destruct (palette sg) as [p|]; [destruct (paletteLines p)|];
    cbn [pushIf app]; try (split; discriminate).
  all: destruct (ui_style sg) as [ui|]; [destruct (uiLines ui)|];
    cbn [pushIf app]; try (split; discriminate).
  all: split; reflexivity.
Qed.

Lemma section_not_empty (sg : StyleGuideDefinition) (section : string) :
  section ∈ sections sg -> section <> "".
Proof.
  unfold sections. rewrite !elem_of_app.
  intros [H|[H|[H|[H|[H|H]]]]].
  1,4,5,6: apply elem_of_pushIf in H; destruct H as [_ ->]; discriminate.
  - destruct (palette sg); [|now apply elem_of_nil in H].
    apply elem_of_pushIf in H. destruct H as [_ ->]. discriminate.
  - destruct (ui_style sg); [|now apply elem_of_nil in H].
    apply elem_of_pushIf in H. destruct H as [_ ->]. discriminate.
Qed.

Lemma formatStyleGuide_lines_lemma (styleGuide : StyleGuide) (line : string) :
  line ∈ groupLines (effective styleGuide) ->
  JS.includes (formatStyleGuide styleGuide) line = true.
Proof.
  intros Hline.
  destruct (groupLine_in_section _ _ Hline) as (section & Hin & Hinc).
  apply (includes_trans _ section); [|exact Hinc].
  unfold formatStyleGuide. now apply includes_join.
Qed.

(** X25: what the style guide text holds.  [formatStyleGuide] reads the
    [style_guide] property when there is one and the object itself
    otherwise.  Its text contains the line of every group that is not
    empty ("Style Keywords: ...", "Background: ...", "Mode: ...",
    "AVOID: ...", ...), and it is the empty string exactly when there is
    no such line: a palette or a UI style with nothing set adds no
    heading. *)
Theorem formatStyleGuide_lines (styleGuide : StyleGuide) :
  (forall line,
     line ∈ groupLines (effective styleGuide) ->
     JS.includes (formatStyleGuide styleGuide) line = true) /\
  (formatStyleGuide styleGuide = "" <-> groupLines (effective styleGuide) = []) /\
  (forall d, formatStyleGuide {| style_guide := Some d; own := own styleGuide |}
             = formatStyleGuide {| style_guide := None; own := d |}).
Proof.
  split; [|split; [|reflexivity]].
  - intros line Hline. now apply formatStyleGuide_lines_lemma.
  - rewrite <- sections_nil. unfold formatStyleGuide. split.
    + intros Hempty.
      destruct (sections (effective styleGuide)) as [|section rest] eqn:Hs;
        [reflexivity|].
      exfalso. revert Hempty. apply join_not_empty; [discriminate|].
      intros x Hx. apply (section_not_empty (effective styleGuide)).
      now rewrite Hs.
    + now intros ->.
Qed.

Lemma formatStyleGuide_lines_witness :
  JS.includes
    (formatStyleGuide
       {| style_guide :=
            Some {| brand_keywords := Some ["modern"; "minimal"];
                    palette := Some {| background := Some ["#000000"; "#111111"];
                                       primary_accents := None;
                                       secondary_accents := None;
                                       neutrals := Some [] |};
                    ui_style := None; typography_feel := None;
                    visual_motifs := None; avoid := None |};
          own := mkDefinition None None None None None None |})
    "Background: #000000, #111111" = true.
Proof.
  apply formatStyleGuide_lines. vm_compute.
  apply list_elem_of_further, list_elem_of_here.
Defined.

(** X26: what the prompt holds.  Whatever the style guide and the
    request, the text of [buildPrompt] opens with "=== STYLE GUIDE ==="
    and contains the style guide text, the three headings, the lines
    "Title: ...", "Section: ..." and "Aspect Ratio: ..." of the request
    (a request without section reads "Section: undefined") and the main
    prompt; so it contains every line of the style guide as well. *)
Theorem buildPrompt_mentions (styleGuide : StyleGuide) (image : Image.t)
    (style : option ImageStyle) :
  JS.startsWith (buildPrompt styleGuide image style) "=== STYLE GUIDE ===" = true /\
  (forall line,
     line ∈ fixedLines styleGuide image ->
     JS.includes (buildPrompt styleGuide image style) line = true) /\
  (forall line,
     line ∈ groupLines (effective styleGuide) ->
     JS.includes (buildPrompt styleGuide image style) line = true) /\
  (Image.section image = None ->
   JS.includes (buildPrompt styleGuide image style) "Section: undefined" = true).
Proof.
  assert (Hfixed : forall line,
     line ∈ fixedLines styleGuide image ->
     JS.includes (buildPrompt styleGuide image style) line = true).
  { intros line Hline. unfold buildPrompt. apply includes_join.
    assert (Hbase : line ∈ ["=== STYLE GUIDE ==="; formatStyleGuide styleGuide; "";
                            "=== IMAGE REQUEST ==="; "Title: " +:+ Image.title image;
                            "Section: " +:+ JS.show (Image.section image);
                            "Aspect Ratio: " +:+ Image.aspect_ratio image; "";
                            "=== MAIN PROMPT ==="; Image.prompt image]).
    { unfold fixedLines in Hline.
      repeat (apply elem_of_cons in Hline; destruct Hline as [->|Hline];
              [repeat (first [apply list_elem_of_here | apply list_elem_of_further])|]).
      now apply elem_of_nil in Hline. }
    destruct (JS.truthy _); [apply elem_of_app; now left | exact Hbase]. }
  split; [|split; [exact Hfixed|split]].
  - unfold buildPrompt. apply startsWith_iff.
    destruct (JS.truthy _); eexists; cbn [app join]; reflexivity.
  - intros line Hline.
    apply (includes_trans _ (formatStyleGuide styleGuide)).
    + apply Hfixed. unfold fixedLines. apply list_elem_of_further, list_elem_of_here.
    + now apply formatStyleGuide_lines_lemma.
  - intros Hnone.
    assert (Hin : "Section: " +:+ JS.show (Image.section image)
                  ∈ fixedLines styleGuide image).
    { unfold fixedLines. do 4 apply list_elem_of_further. apply list_elem_of_here. }
    apply Hfixed in Hin. now rewrite Hnone in Hin.
Qed.

Lemma buildPrompt_mentions_witness :
  JS.includes
    (buildPrompt (mkStyleGuide None (mkDefinition None None None None None None))
                 (Image.mk "hero" None "Hero" "16:9" "a banana") None)
    "Section: undefined" = true.
Proof. apply buildPrompt_mentions. reflexivity. Defined.

End PromptFacts.

(** ** config-loader.js *)

Module ConfigFacts.

Import ConfigLoader.

Lemma isUndefined_true (v : Value) : isUndefined v = true <-> v = Undefined.
Proof. destruct v; simpl; split; congruence. Qed.

Lemma isUndefined_false (v : Value) : isUndefined v = false <-> v <> Undefined.
Proof. destruct v; simpl; split; congruence. Qed.

(** One turn of the loop, on a key that the file and the command line
    call the same. *)
Lemma get_mergeKey (file merged : gmap string Value) (k key : string) :
  get (mergeKey file merged (k, k)) key
  = if String.eqb key k && isUndefined (get merged k)
    then get file k
    else get merged key.
Proof.
  unfold mergeKey.
  destruct (String.eqb_spec key k) as [->|Hne]; cbn [andb].
  - destruct (isUndefined (get file k)) eqn:Hfile,
             (isUndefined (get merged k)) eqn:Hmerged; cbn [negb andb];
      try reflexivity.
    + apply isUndefined_true in Hfile, Hmerged. congruence.
    + unfold get at 1. now rewrite lookup_insert_eq.
  - destruct (negb _ && _); [|reflexivity].
    unfold get at 1. rewrite lookup_insert_ne by congruence. reflexivity.
Qed.

Lemma get_fold (file : gmap string Value) (entries : list (string * string)) :
  Forall (fun entry => fst entry = snd entry) entries ->
  forall (merged : gmap string Value) (key : string),
    get (fold_left (mergeKey file) entries merged) key
    = if existsb (String.eqb key) (map snd entries) && isUndefined (get merged key)
      then get file key
      else get merged key.
Proof.
  induction 1 as [|[k k'] entries Hk _ IH]; intros merged key; [reflexivity|].
  cbn [fst snd] in Hk. subst k'.
  cbn [fold_left map existsb snd]. rewrite IH, get_mergeKey.
  destruct (String.eqb_spec key k) as [->|Hne]; cbn [andb orb].
  - destruct (isUndefined (get merged k)) eqn:Hmerged.
    + now destruct (_ && _).
    + rewrite Hmerged, andb_false_r. reflexivity.
  - reflexivity.
Qed.

Lemma keyMap_same : Forall (fun entry => fst entry = snd entry) keyMap.
Proof. unfold keyMap. repeat constructor. Qed.

Lemma get_mergeOptions (cli file : gmap string Value) (key : string) :
  get (mergeOptions cli (Some file)) key
  = if existsb (String.eqb key) keys && isUndefined (get cli key)
    then get file key
    else get cli key.
Proof. unfold mergeOptions, keys. apply get_fold, keyMap_same. Qed.

Lemma existsb_keys (key : string) (l : list string) :
  existsb (String.eqb key) l = true <-> key ∈ l.
Proof.
  rewrite existsb_exists, list_elem_of_In. split.
  - intros (x & Hin & Heq). apply String.eqb_eq in Heq. now subst.
  - intros Hin. exists key. split; [exact Hin | apply String.eqb_refl].
Qed.

(** X27: how [mergeOptions] combines the command line with the
    configuration file.  An option that the command line sets keeps its
    value; one of the nine known options that the command line leaves
    undefined takes the file's value; a key of the file that is not one
    of the nine is never copied; and merging the same file a second time
    changes nothing. *)
Theorem mergeOptions_precedence (cli file : gmap string Value) (key : string) :
  let merged := mergeOptions cli (Some file) in
  (get cli key <> Undefined -> get merged key = get cli key) /\
  (key ∈ keys -> get cli key = Undefined -> get merged key = get file key) /\
  (key ∉ keys -> get merged key = get cli key) /\
  get (mergeOptions merged (Some file)) key = get merged key.
Proof.
  cbv zeta. rewrite !get_mergeOptions.
  destruct (existsb (String.eqb key) keys) eqn:Hkey; cbn [andb].
  - destruct (isUndefined (get cli key)) eqn:Hcli.
    + apply isUndefined_true in Hcli. repeat split.
      * intros Hset. contradiction.
      * intros Hout. apply existsb_keys in Hkey. contradiction.
      * now destruct (isUndefined (get file key)).
    + repeat split.
      * intros _ Hundef. rewrite Hundef in Hcli. discriminate.
      * now rewrite Hcli.
  - repeat split.
    intros Hin. apply existsb_keys in Hin. congruence.
Qed.

Lemma mergeOptions_precedence_witness :
  let cli : gmap string Value := {[ "format" := Str "jpg" ]} in
  let file : gmap string Value :=
    {[ "format" := Str "png"; "concurrency" := Num 3; "apiKey" := Str "secret" ]} in
  get (mergeOptions cli (Some file)) "format" = Str "jpg" /\
  get (mergeOptions cli (Some file)) "concurrency" = Num 3 /\
  get (mergeOptions cli (Some file)) "apiKey" = Undefined.
Proof.
  intros cli file.
  destruct (mergeOptions_precedence cli file "format") as (Hset & _).
  destruct (mergeOptions_precedence cli file "concurrency") as (_ & Hfile & _).
  destruct (mergeOptions_precedence cli file "apiKey") as (_ & _ & Hother & _).
  split; [|split].
  - rewrite Hset; [reflexivity | vm_compute; discriminate].
  - rewrite Hfile; [reflexivity | | reflexivity].
    apply existsb_keys. reflexivity.
  - rewrite Hother; [reflexivity|].
    intros Hin. apply existsb_keys in Hin. vm_compute in Hin. discriminate Hin.
Defined.

Section Loading.

Variable Config : Type.
Variable cwd : string.
Variable pathJoin : string -> string -> string.
Variable readFile : string -> option string.
Variable parse : string -> option Config.

Local Abbreviation usable := (ConfigLoader.usable Config cwd pathJoin readFile parse).
Local Abbreviation loadFrom := (ConfigLoader.loadFrom Config cwd pathJoin readFile parse).
Local Abbreviation loadConfigFile :=
  (ConfigLoader.loadConfigFile Config cwd pathJoin readFile parse).

Lemma loadFrom_skip (filename : string) (rest : list string) :
  usable filename = None -> loadFrom (filename :: rest) = loadFrom rest.
Proof.
  unfold ConfigLoader.usable. cbn [ConfigLoader.loadFrom].
  destruct (readFile _); [|reflexivity]. now intros ->.
Qed.

Lemma loadFrom_take (filename : string) (rest : list string) (config : Config) :
  usable filename = Some config ->
  loadFrom (filename :: rest) = Some (config, pathJoin cwd filename).
Proof.
  unfold ConfigLoader.usable. cbn [ConfigLoader.loadFrom].
  destruct (readFile _); [|discriminate]. now intros ->.
Qed.

Lemma loadFrom_first (before : list string) (filename : string)
    (after : list string) (config : Config) :
  (forall f, f ∈ before -> usable f = None) ->
  usable filename = Some config ->
  loadFrom (before ++ filename :: after) = Some (config, pathJoin cwd filename).
Proof.
  induction before as [|f before IH]; intros Hbefore Huse.
  - now apply loadFrom_take.
  - cbn [app]. rewrite loadFrom_skip by (apply Hbefore; left).
    apply IH; [|exact Huse]. intros g Hg. apply Hbefore. now right.
Qed.

Lemma loadFrom_none (candidates : list string) :
  loadFrom candidates = None <-> forall f, f ∈ candidates -> usable f = None.
Proof.
  induction candidates as [|f rest IH].
  - split; [|reflexivity]. intros _ f Hf. now apply elem_of_nil in Hf.
  - destruct (usable f) as [config|] eqn:Huse.
    + rewrite (loadFrom_take _ _ _ Huse). split; [discriminate|].
      intros Hall. specialize (Hall f (list_elem_of_here _ _)). congruence.
    + rewrite (loadFrom_skip _ _ Huse), IH. split.
      * intros Hall g Hg. apply elem_of_cons in Hg as [->|Hg]; auto.
      * intros Hall g Hg. apply Hall. now right.
Qed.

Lemma loadFrom_some (candidates : list string) (config : Config) (filepath : string) :
  loadFrom candidates = Some (config, filepath) ->
  exists before filename after,
    candidates = before ++ filename :: after /\
    (forall f, f ∈ before -> usable f = None) /\
    usable filename = Some config /\
    filepath = pathJoin cwd filename.
Proof.
  induction candidates as [|f rest IH]; [discriminate|].
  destruct (usable f) as [config'|] eqn:Huse.
  - rewrite (loadFrom_take _ _ _ Huse). intros [= <- <-].
    exists [], f, rest. repeat split; [|exact Huse].
    intros g Hg. now apply elem_of_nil in Hg.
  - rewrite (loadFrom_skip _ _ Huse). intros Hrest.
    destruct (IH Hrest) as (before & filename & after & -> & Hbefore & Hfile & ->).
    exists (f :: before), filename, after. repeat split; [|exact Hfile].
    intros g Hg. apply elem_of_cons in Hg as [->|Hg]; auto.
Qed.

(** X28: which file [loadConfigFile] reads.  It answers with the first
    name of [CONFIG_FILES] (".stylegenrc", ".stylegenrc.json",
    "stylegen.config.json", ".stylegen.json", in this order) whose file
    exists and parses, together with its path; a file that exists but
    does not parse is passed over, it does not stop the search; and the
    answer is [null] exactly when no candidate exists and parses. *)
Theorem loadConfigFile_first_usable :
  (forall config filepath,
     loadConfigFile = Some (config, filepath) <->
     exists before filename after,
       CONFIG_FILES = before ++ filename :: after /\
       (forall f, f ∈ before -> usable f = None) /\
       usable filename = Some config /\
       filepath = pathJoin cwd filename) /\
  (loadConfigFile = None <-> forall f, f ∈ CONFIG_FILES -> usable f = None).
Proof.
  split; [|apply loadFrom_none].
  intros config filepath. split; [apply loadFrom_some|].
  intros (before & filename & after & Hsplit & Hbefore & Hfile & ->).
  unfold ConfigLoader.loadConfigFile. rewrite Hsplit.
  now apply loadFrom_first.
Qed.

End Loading.

(** A directory where ".stylegenrc" is broken and ".stylegenrc.json" is
    fine: the second one is read. *)
Lemma loadConfigFile_first_usable_witness :
  let pathJoin := fun dir file : string => dir +:+ "/" +:+ file in
  let readFile := fun path : string =>
    if String.eqb path "/w/.stylegenrc" then Some "{"
    else if String.eqb path "/w/.stylegenrc.json" then Some "{}"
    else None in
  let parse := fun content : string =>
    if String.eqb content "{}" then Some (∅ : gmap string Value) else None in
  ConfigLoader.loadConfigFile (gmap string Value) "/w" pathJoin readFile parse
  = Some (∅, "/w/.stylegenrc.json").
Proof.
  intros pathJoin readFile parse.
  apply (loadConfigFile_first_usable (gmap string Value) "/w" pathJoin readFile parse).
  exists [".stylegenrc"], ".stylegenrc.json",
         ["stylegen.config.json"; ".stylegen.json"].
  split; [reflexivity|]. split; [|split; reflexivity].
  intros f Hf. apply list_elem_of_singleton in Hf. subst f. reflexivity.
Defined.

End ConfigFacts.

(** ** generator.js: file names *)

Module FilenameFacts.

Import Filename StringFacts.

Lemma hasChar_cons (c a : ascii) (s : string) :
  hasChar c (String a s) = Ascii.eqb c a || hasChar c s.
Proof. reflexivity. Qed.

(** A pattern whose first character does not occur is not found. *)
Lemma splitFirst_absent (c : ascii) (p s : string) :
  hasChar c s = false -> splitFirst s (String c p) = None.
Proof.
  induction s as [|a s IH]; intros Hc; [reflexivity|].
  rewrite hasChar_cons in Hc. apply orb_false_iff in Hc as [Hca Hs].
  cbn [splitFirst JS.startsWith]. rewrite Hca, (IH Hs). reflexivity.
Qed.

Lemma replace_absent (c : ascii) (p s replacement : string) :
  hasChar c s = false -> replace s (String c p) replacement = s.
Proof. intros Hc. unfold replace. now rewrite splitFirst_absent. Qed.

(** A replacement text without a dollar stands for itself. *)
Lemma expand_plain (replacement matched before after : string) :
  hasChar "$" replacement = false ->
  expand replacement matched before after = replacement.
Proof.
  induction replacement as [|c rest IH]; intros Hc; [reflexivity|].
  rewrite hasChar_cons in Hc. apply orb_false_iff in Hc as [Hc Hrest].
  rewrite Ascii.eqb_sym in Hc.
  destruct rest as [|d rest']; [reflexivity|].
  change (expand (String c (String d rest')) matched before after)
    with (if Ascii.eqb c "$"
          then if Ascii.eqb d "$" then "$" +:+ expand rest' matched before after
               else if Ascii.eqb d "&" then matched +:+ expand rest' matched before after
               else if Ascii.eqb d "`" then before +:+ expand rest' matched before after
               else if Ascii.eqb d "'" then after +:+ expand rest' matched before after
               else String c (expand (String d rest') matched before after)
          else String c (expand (String d rest') matched before after)).
  rewrite Hc. f_equal. now apply IH.
Qed.

(** Replacing a template that is the placeholder alone. *)
Lemma replace_whole (pat replacement : string) :
  splitFirst pat pat = Some ("", "") ->
  hasChar "$" replacement = false ->
  replace pat pat replacement = replacement.
Proof.
  intros Hsplit Hplain. unfold replace. rewrite Hsplit.
  rewrite expand_plain by exact Hplain.
  now rewrite append_nil_l, append_nil_r.
Qed.

Lemma isSafe_underscore : isSafe "_" = true.
Proof. reflexivity. Qed.

Lemma sanitize_safe (s : string) (c : ascii) :
  hasChar c (sanitize s) = true -> isSafe c = true.
Proof.
  induction s as [|a s IH]; [discriminate|].
  cbn [sanitize]. rewrite hasChar_cons. intros H.
  apply orb_true_iff in H as [H|H]; [|now apply IH].
  apply Ascii.eqb_eq in H. subst c.
  destruct (isSafe a) eqn:Ha; [exact Ha | reflexivity].
Qed.

Lemma sanitize_lacks (s : string) (c : ascii) :
  isSafe c = false -> hasChar c (sanitize s) = false.
Proof.
  intros Hc. destruct (hasChar c (sanitize s)) eqn:H; [|reflexivity].
  apply sanitize_safe in H. congruence.
Qed.

Lemma sanitize_length (s : string) : String.length (sanitize s) = String.length s.
Proof. induction s as [|a s IH]; [reflexivity|]. cbn [sanitize String.length]. now rewrite IH. Qed.

Lemma sanitize_fixed (s : string) :
  (forall c, hasChar c s = true -> isSafe c = true) -> sanitize s = s.
Proof.
  induction s as [|a s IH]; intros Hsafe; [reflexivity|].
  cbn [sanitize]. rewrite (Hsafe a), IH; [reflexivity| |].
  - intros c Hc. apply Hsafe. rewrite hasChar_cons, Hc. apply orb_true_r.
  - rewrite hasChar_cons, Ascii.eqb_refl. reflexivity.
Qed.

Lemma append_length (a b : string) :
  String.length (a +:+ b) = (String.length a + String.length b)%nat.
Proof. induction a as [|c a IH]; [reflexivity|]. rewrite append_cons. cbn [String.length]. now rewrite IH. Qed.

Lemma append_inv_tail (a b tail : string) : a +:+ tail = b +:+ tail -> a = b.
Proof.
  revert b. induction a as [|c a IH]; intros [|d b] H.
  - reflexivity.
  - apply (f_equal String.length) in H.
    rewrite append_nil_l, append_cons in H. cbn [String.length] in H.
    rewrite append_length in H. lia.
  - apply (f_equal String.length) in H.
    rewrite append_nil_l, append_cons in H. cbn [String.length] in H.
    rewrite append_length in H. lia.
  - rewrite !append_cons in H. injection H as -> H. f_equal. now apply IH.
Qed.

Lemma generateFilename_id (outputFormat : string) (image : Image.t) :
  hasChar "$" (Image.id image) = false ->
  hasChar "{" (Image.id image) = false ->
  generateFilename "{id}" outputFormat image
  = Image.id image +:+ "." +:+ outputFormat.
Proof.
  intros Hdollar Hbrace. unfold generateFilename.
  rewrite (replace_whole "{id}") by (reflexivity || exact Hdollar).
  do 3 rewrite (replace_absent _ _ (Image.id image) _ Hbrace).
  now destruct (String.eqb_spec outputFormat "jpg") as [->|].
Qed.

(** X29: the default file name.  With the default template "{id}" an
    image whose id holds no dollar sign and no opening brace is written
    to "<id>.<format>", so two such images with different ids never
    share a file. *)
Theorem generateFilename_default_template (outputFormat : string)
    (image other : Image.t) :
  hasChar "$" (Image.id image) = false ->
  hasChar "{" (Image.id image) = false ->
  generateFilename "{id}" outputFormat image
  = Image.id image +:+ "." +:+ outputFormat /\
  (hasChar "$" (Image.id other) = false ->
   hasChar "{" (Image.id other) = false ->
   generateFilename "{id}" outputFormat image
   = generateFilename "{id}" outputFormat other ->
   Image.id image = Image.id other).
Proof.
  intros Hdollar Hbrace. split; [now apply generateFilename_id|].
  intros Hdollar' Hbrace'. rewrite !generateFilename_id by assumption.
  apply append_inv_tail.
Qed.

Lemma generateFilename_default_template_witness :
  generateFilename "{id}" "png" (Image.mk "hero-1" None "Hero" "16:9" "a banana")
  = "hero-1.png".
Proof.
  destruct (generateFilename_default_template "png"
              (Image.mk "hero-1" None "Hero" "16:9" "a banana")
              (Image.mk "hero-2" None "Hero" "16:9" "a banana")
              eq_refl eq_refl) as [Hname _].
  exact Hname.
Defined.

(** X30: file names from titles.  With the template "{title}" the file
    is named after the title (after the id when the title is empty) with
    every character other than a letter, a digit, "-" and "_" turned
    into "_", followed by "." and the format; the name before the
    extension has the length of the title and holds only those
    characters, whatever the title is; a title made of them is kept as it
    is. *)
Theorem generateFilename_title_template (outputFormat : string) (image : Image.t) :
  let name := JS.orElse (Some (Image.title image)) (Image.id image) in
  generateFilename "{title}" outputFormat image
  = sanitize name +:+ "." +:+ outputFormat /\
  (forall c, hasChar c (sanitize name) = true -> isSafe c = true) /\
  String.length (sanitize name) = String.length name /\
  ((forall c, hasChar c name = true -> isSafe c = true) ->
   generateFilename "{title}" outputFormat image = name +:+ "." +:+ outputFormat).
Proof.
  cbv zeta.
  assert (Hname : generateFilename "{title}" outputFormat image
                  = sanitize (JS.orElse (Some (Image.title image)) (Image.id image))
                    +:+ "." +:+ outputFormat).
  { unfold generateFilename.
    change (replace "{title}" "{id}" (Image.id image)) with "{title}".
    change (replace "{title}" "{section}" (JS.orElse (Image.section image) "default"))
      with "{title}".
    rewrite (replace_whole "{title}")
      by (reflexivity || (apply sanitize_lacks; reflexivity)).
    rewrite replace_absent by (apply sanitize_lacks; reflexivity).
    now destruct (String.eqb_spec outputFormat "jpg") as [->|]. }
  split; [exact Hname|]. split; [apply sanitize_safe|].
  split; [apply sanitize_length|].
  intros Hsafe. rewrite Hname. now rewrite sanitize_fixed.
Qed.

Lemma generateFilename_title_template_witness :
  generateFilename "{title}" "png" (Image.mk "hero" None "Hero_shot-1" "16:9" "a banana")
  = "Hero_shot-1.png".
Proof.
  destruct (generateFilename_title_template "png"
              (Image.mk "hero" None "Hero_shot-1" "16:9" "a banana"))
    as (_ & Hsafe & _ & Hkept).
  apply Hkept. intros c Hc.
  change (JS.orElse (Some (Image.title (Image.mk "hero" None "Hero_shot-1" "16:9" "a banana")))
                    (Image.id (Image.mk "hero" None "Hero_shot-1" "16:9" "a banana")))
    with (sanitize "Hero_shot-1") in Hc.
  exact (sanitize_safe "Hero_shot-1" c Hc).
Defined.

End FilenameFacts.
